(** * translate_codex_stream: a shallow embedding and its properties

    The program under study is [dictionaries/meta/translate_codex_stream.py]:
    a line-oriented translator that masks code-like spans, applies phrase
    overrides and a longest-match phrase dictionary, and walks JSON event
    records, re-assembling streamed [delta] fragments per record.

    Python strings are sequences of Unicode code points; they are modelled
    as [list N].  Python exceptions are modelled by the [outcome] type.
    The parts of the Python runtime the program calls but does not define
    (Unicode tables, the [re] replacement-template parser, the [json]
    codec, [str()] of a non-string value) are the fields of [PyRuntime]. *)

From Stdlib Require Import NArith ZArith Ascii String DecimalNat Lia Sorted.
From stdpp Require Import base option list gmap.

Set Warnings "-register-all".
Local Open Scope N_scope.

(** ** Strings *)

Abbreviation str := (list N).

(** [DeltaAccumulator.buffers]: the raw text received so far, per stream key. *)
Abbreviation buffers := (gmap str str).

(** Decoding of the UTF-8 bytes of a literal into code points, so that
    examples can be written as text. *)
Fixpoint utf8_decode (bs : list N) : str :=
  match bs with
  | [] => []
  | b :: r =>
      if b <? 128 then b :: utf8_decode r
      else if b <? 224 then
        match r with
        | b1 :: r' => ((b - 192) * 64 + (b1 - 128)) :: utf8_decode r'
        | _ => []
        end
      else if b <? 240 then
        match r with
        | b1 :: b2 :: r' =>
            ((b - 224) * 4096 + (b1 - 128) * 64 + (b2 - 128)) :: utf8_decode r'
        | _ => []
        end
      else
        match r with
        | b1 :: b2 :: b3 :: r' =>
            ((b - 240) * 262144 + (b1 - 128) * 4096 + (b2 - 128) * 64 + (b3 - 128))
              :: utf8_decode r'
        | _ => []
        end
  end.

Fixpoint bytes_of_string (s : string) : list N :=
  match s with
  | EmptyString => []
  | String a s' => N_of_ascii a :: bytes_of_string s'
  end.

(** [u "text"] is the Python string written ["text"]. *)
Definition u (s : string) : str := utf8_decode (bytes_of_string s).

Definition in_range (lo hi c : N) : bool := (lo <=? c) && (c <=? hi).

Definition is_upper (c : N) : bool := in_range 65 90 c.
Definition is_lower (c : N) : bool := in_range 97 122 c.
Definition is_letter (c : N) : bool := is_upper c || is_lower c.
Definition is_digit (c : N) : bool := in_range 48 57 c.
Definition is_alnum (c : N) : bool := is_letter c || is_digit c.
Definition is_ascii (c : N) : bool := c <? 128.

(** The regex class [[A-Za-z0-9_]]. *)
Definition is_ident_char (c : N) : bool := is_alnum c || (c =? 95).

(** [str.isspace] of one code point, which is also the regex class [\s] on
    [str] patterns: the ASCII controls 9-13 and 28-31, the space, and the
    Unicode white-space code points. *)
Definition is_space (c : N) : bool :=
  in_range 9 13 c || in_range 28 32 c || (c =? 133) || (c =? 160)
  || (c =? 5760) || in_range 8192 8202 c || (c =? 8232) || (c =? 8233)
  || (c =? 8239) || (c =? 8287) || (c =? 12288).

(** [text[a:b]] for [0 <= a] and [0 <= b]. *)
Definition slice (a b : nat) (s : str) : str := take (b - a) (drop a s).

(** [s.startswith(p)]. *)
Fixpoint starts_with (p s : str) : bool :=
  match p, s with
  | [], _ => true
  | a :: p', b :: s' => (a =? b) && starts_with p' s'
  | _ :: _, [] => false
  end.

(** [s.endswith(p)]. *)
Definition ends_with (p s : str) : bool := starts_with (reverse p) (reverse s).

(** [p in s] for strings: [p] occurs in [s] as a substring. *)
Fixpoint contains (p s : str) : bool :=
  starts_with p s ||
  match s with
  | [] => false
  | _ :: s' => contains p s'
  end.

(** The longest prefix whose characters satisfy [p], and what follows it. *)
Fixpoint span_len (p : N -> bool) (s : str) : nat :=
  match s with
  | c :: s' => if p c then S (span_len p s') else O
  | [] => O
  end.

Fixpoint drop_while (p : N -> bool) (s : str) : str :=
  match s with
  | c :: s' => if p c then drop_while p s' else s
  | [] => []
  end.

(** [s.strip()]: leading and trailing white space removed. *)
Definition lstrip (s : str) : str := drop_while is_space s.
Definition rstrip (s : str) : str := reverse (drop_while is_space (reverse s)).
Definition strip (s : str) : str := rstrip (lstrip s).

(** [line.rstrip("\n")]. *)
Definition rstrip_newlines (s : str) : str :=
  reverse (drop_while (N.eqb 10) (reverse s)).

(** [s.isspace()]: at least one character and nothing but white space. *)
Definition isspace (s : str) : bool :=
  match s with
  | [] => false
  | _ => forallb is_space s
  end.

(** Truth value of a string: non-empty. *)
Definition nonempty (s : str) : bool :=
  match s with
  | [] => false
  | _ => true
  end.

(** [sep.join(parts)]. *)
Fixpoint join (sep : str) (parts : list str) : str :=
  match parts with
  | [] => []
  | [p] => p
  | p :: ps => p ++ sep ++ join sep ps
  end.

(** [re.sub(r"\s+", " ", text)]: every maximal run of white space becomes
    one space.  [in_ws] tells that the previous character was white space. *)
Fixpoint collapse_spaces (in_ws : bool) (s : str) : str :=
  match s with
  | [] => []
  | c :: s' =>
      if is_space c
      then (if in_ws then collapse_spaces true s' else 32 :: collapse_spaces true s')
      else c :: collapse_spaces false s'
  end.

Definition normalize_spaces (text : str) : str :=
  strip (collapse_spaces false text).

Definition ascii_lower (c : N) : N := if is_upper c then c + 32 else c.

(** Decimal digits of a natural number, as [f"{index}"] prints them. *)
Fixpoint digits_of_uint (d : Decimal.uint) : str :=
  match d with
  | Decimal.Nil => []
  | Decimal.D0 d' => 48 :: digits_of_uint d'
  | Decimal.D1 d' => 49 :: digits_of_uint d'
  | Decimal.D2 d' => 50 :: digits_of_uint d'
  | Decimal.D3 d' => 51 :: digits_of_uint d'
  | Decimal.D4 d' => 52 :: digits_of_uint d'
  | Decimal.D5 d' => 53 :: digits_of_uint d'
  | Decimal.D6 d' => 54 :: digits_of_uint d'
  | Decimal.D7 d' => 55 :: digits_of_uint d'
  | Decimal.D8 d' => 56 :: digits_of_uint d'
  | Decimal.D9 d' => 57 :: digits_of_uint d'
  end.

Definition decimal (n : nat) : str := digits_of_uint (Nat.to_uint n).

(** ** Outcomes of Python code *)

(** The exceptions the program can raise. [NoReturn] stands for a call that
    does not return normally at all (see [find_best_match]). *)
Inductive exn : Set :=
| JSONDecodeError
| ValueError
| AttributeError
| TypeError
| ReError
| RecursionError
| UnicodeEncodeError
| NoReturn.

Inductive outcome (A : Type) : Type :=
| Return (a : A)
| Raise (e : exn).
Arguments Return {A} a.
Arguments Raise {A} e.

#[global] Instance outcome_ret : MRet outcome := fun A a => Return a.
#[global] Instance outcome_bind : MBind outcome := fun A B f m =>
  match m with
  | Return a => f a
  | Raise e => Raise e
  end.
#[global] Instance outcome_fmap : FMap outcome := fun A B f m =>
  match m with
  | Return a => Return (f a)
  | Raise e => Raise e
  end.

(** ** JSON values, as [json.loads] builds them *)

(** A [dict] built by [json.loads] keeps its keys in order of first
    appearance and has each key once; it is modelled as an association
    list. *)
Inductive json : Type :=
| JNull
| JBool (b : bool)
| JInt (z : Z)
| JFloat (repr : str)
| JStr (s : str)
| JArr (items : list json)
| JObj (fields : list (str * json)).

(** ** The Python runtime *)

(** What the program uses from the interpreter and its standard library.
    The Unicode fields are consulted only outside ASCII, where the
    definitions below are exact on their own. *)
Class PyRuntime : Type := {
  (** [str.isalnum] of a code point above 127, for the regex class [\w] *)
  uni_alnum : N -> bool;
  (** [str.lower] of a string that has a code point above 127 *)
  uni_lower : str -> str;
  (** [uni_ci_eq p c]: under [re.IGNORECASE] the pattern character [p]
      matches the text character [c], for a pair that is not all ASCII *)
  uni_ci_eq : N -> N -> bool;
  (** the replacement template of [re.sub], for a template with a backslash
      and a pattern without groups: [None] when [re] rejects the template,
      else the text substituted for a given match *)
  re_template : str -> option (str -> str);
  (** [json.loads]: the value it builds or the exception it raises, which is
      [json.JSONDecodeError] on a text that is not JSON, and for instance
      [RecursionError] on a text nested too deep or [ValueError] on an
      integer literal longer than the interpreter converts *)
  json_loads : str -> outcome json;
  (** [json.dumps(v, ensure_ascii=False, separators=(",", ":"))] *)
  json_dumps : json -> str;
  (** [str(v)] of a JSON value that is not a string *)
  py_repr : json -> str;
  (** [sys.stdout.write(text)] succeeds: the encoder of the stream accepts
      [text]; the UTF-8 encoder rejects a lone surrogate, with
      [UnicodeEncodeError] *)
  stdout_encodes : str -> bool
}.

Section Model.
Context {RT : PyRuntime}.

(** The regex class [\w] on [str] patterns. *)
Definition is_word (c : N) : bool :=
  is_ident_char c || (negb (is_ascii c) && uni_alnum c).

(** [text.lower()]. *)
Definition lower (s : str) : str :=
  if forallb is_ascii s then map ascii_lower s else uni_lower s.

Definition normalize_key (text : str) : str := lower (normalize_spaces text).

Definition has_english (text : str) : bool := existsb is_letter text.

(** The class [[A-Za-z0-9 \-_/.'&()+]]. *)
Definition is_term_char (c : N) : bool :=
  is_alnum c || (c =? 32) || (c =? 45) || (c =? 95) || (c =? 47) || (c =? 46)
  || (c =? 39) || (c =? 38) || (c =? 40) || (c =? 41) || (c =? 43).

(** [re.fullmatch(r"[A-Za-z0-9][A-Za-z0-9 \-_/.'&()+]{0,127}", text)]. *)
Definition is_plain_english_term (text : str) : bool :=
  match text with
  | [] => false
  | c :: rest =>
      is_alnum c && forallb is_term_char rest && (length rest <=? 127)%nat
  end.

(** ** Regular expressions *)

(** A compiled pattern, seen from one position of the subject: given the
    character before the position (none at the start of the string) and the
    text from the position on, the length of the match that starts there. *)
Definition matcher : Type := option N -> str -> option nat.

(** The position of the first occurrence of [p] in [s]. *)
Fixpoint find_from (p s : str) : option nat :=
  if starts_with p s then Some O
  else match s with
       | [] => None
       | _ :: s' => S <$> find_from p s'
       end.

Definition BACKTICK : N := 96.
Definition FENCE : str := [BACKTICK; BACKTICK; BACKTICK].

(** [```[\s\S]*?```]: the lazy body stops at the first closing fence. *)
Definition m_fenced_code : matcher := fun _ s =>
  if starts_with FENCE s
  then k ← find_from FENCE (drop 3 s); Some (3 + k + 3)%nat
  else None.

(** [`[^`\n]+`] *)
Definition m_inline_code : matcher := fun _ s =>
  match s with
  | c :: r =>
      let n := span_len (fun x => negb (x =? BACKTICK) && negb (x =? 10)) r in
      if (c =? BACKTICK) && (0 <? n)%nat && starts_with [BACKTICK] (drop n r)
      then Some (n + 2)%nat else None
  | [] => None
  end.

(** The class [[^\s)\]>]]. *)
Definition is_url_char (c : N) : bool :=
  negb (is_space c || (c =? 41) || (c =? 93) || (c =? 62)).

(** [https?://[^\s)\]>]+] *)
Definition m_url : matcher := fun _ s =>
  let body (k : nat) :=
    let n := span_len is_url_char (drop k s) in
    if (0 <? n)%nat then Some (k + n)%nat else None in
  if starts_with (u "https://") s then body 8%nat
  else if starts_with (u "http://") s then body 7%nat
  else None.

(** The class of a path's characters: anything but white space, the double
    quote, the quote, the backtick and the characters <, > and |. *)
Definition is_path_char (c : N) : bool :=
  negb (is_space c || (c =? 34) || (c =? 39) || (c =? BACKTICK)
        || (c =? 60) || (c =? 62) || (c =? 124)).

(** [(?:~?/|\.{1,2}/|/|[A-Za-z]:\\)]: the length of the path head. *)
Definition path_head (s : str) : option nat :=
  match s with
  | 126 :: 47 :: _ => Some 2%nat
  | 47 :: _ => Some 1%nat
  | 46 :: 46 :: 47 :: _ => Some 3%nat
  | 46 :: 47 :: _ => Some 2%nat
  | c :: 58 :: 92 :: _ => if is_letter c then Some 3%nat else None
  | _ => None
  end.

(** The path pattern: at the start of the text or after white space, a path
    head followed by the longest run of path characters (possibly none). *)
Definition m_path : matcher := fun prev s =>
  if match prev with None => true | Some p => is_space p end
  then k ← path_head s; Some (k + span_len is_path_char (drop k s))%nat
  else None.

Definition not_after_word (prev : option N) : bool :=
  match prev with
  | None => true
  | Some p => negb (is_word p)
  end.

(** [(?<!\w)--?[A-Za-z][\w-]*] *)
Definition m_flag : matcher := fun prev s =>
  let tail (r : str) := span_len (fun x => is_word x || (x =? 45)) r in
  if not_after_word prev then
    match s with
    | 45 :: 45 :: c :: r => if is_letter c then Some (3 + tail r)%nat else None
    | 45 :: c :: r => if is_letter c then Some (2 + tail r)%nat else None
    | _ => None
    end
  else None.

(** The class [[A-Z0-9_]]. *)
Definition is_const_char (c : N) : bool := is_upper c || is_digit c || (c =? 95).

(** [\b[A-Z_][A-Z0-9_]{2,}\b]: the run is followed by the end of the text
    or by a character that is not a word character. *)
Definition m_constant : matcher := fun prev s =>
  match s with
  | c :: r =>
      let n := span_len is_const_char r in
      if not_after_word prev && (is_upper c || (c =? 95)) && (2 <=? n)%nat
         && match drop n r with [] => true | d :: _ => negb (is_word d) end
      then Some (S n) else None
  | [] => None
  end.

Definition PROTECT_PATTERNS : list matcher :=
  [m_fenced_code; m_inline_code; m_url; m_path; m_flag; m_constant].

(** [pattern.sub(repl, text)] with a callable [repl] that may update a
    state [St] (the closure's captured variables): the subject is scanned
    from the left, each match found on the original text, [skip] counting
    the characters of the current match still to pass over.  The patterns
    of this program match at one position either the empty string or a
    non-empty one, never both. *)
Fixpoint re_sub_from {St : Type} (m : matcher) (repl : St -> str -> St * str)
    (prev : option N) (skip : nat) (st : St) (s : str) : St * str :=
  match s with
  | [] =>
      match skip, m prev [] with
      | O, Some _ => repl st []
      | _, _ => (st, [])
      end
  | c :: s' =>
      match skip with
      | S k => re_sub_from m repl (Some c) k st s'
      | O =>
          match m prev s with
          | Some O =>
              let '(st1, r) := repl st [] in
              let '(st2, out) := re_sub_from m repl (Some c) O st1 s' in
              (st2, r ++ c :: out)
          | Some (S k) =>
              let '(st1, r) := repl st (take (S k) s) in
              let '(st2, out) := re_sub_from m repl (Some c) k st1 s' in
              (st2, r ++ out)
          | None =>
              let '(st2, out) := re_sub_from m repl (Some c) O st s' in
              (st2, c :: out)
          end
      end
  end.

Definition re_sub {St : Type} (m : matcher) (repl : St -> str -> St * str)
    (st : St) (text : str) : St * str :=
  re_sub_from m repl None O st text.

(** [TOKEN_RE = [A-Za-z]+(?:[-'][A-Za-z0-9]+)*]. [group_len] measures the
    repeated group: [in_group] tells that the previous character belongs to
    the run [[A-Za-z0-9]+] of a group. *)
Definition is_token_sep (c : N) : bool := (c =? 45) || (c =? 39).

Fixpoint group_len (in_group : bool) (s : str) : nat :=
  match s with
  | [] => O
  | c :: r =>
      if in_group && is_alnum c then S (group_len true r)
      else if is_token_sep c && match r with d :: _ => is_alnum d | [] => false end
      then S (group_len true r)
      else O
  end.

Definition token_len (s : str) : option nat :=
  match s with
  | c :: _ =>
      if is_letter c
      then let n := span_len is_letter s in Some (n + group_len false (drop n s))%nat
      else None
  | [] => None
  end.

(** [list(TOKEN_RE.finditer(text))], each match as [(start(), end())]. *)
Fixpoint tokens_from (pos skip : nat) (s : str) : list (nat * nat) :=
  match s with
  | [] => []
  | _ :: r =>
      match skip with
      | S k => tokens_from (S pos) k r
      | O =>
          match token_len s with
          | Some (S k) => (pos, pos + S k)%nat :: tokens_from (S pos) k r
          | _ => tokens_from (S pos) O r
          end
      end
  end.

Definition tokens (text : str) : list (nat * nat) := tokens_from O O text.

(** ** The translator *)

(** [override_patterns] holds, for each compiled override pattern, the
    normalized source it was compiled from and the replacement. *)
Record ControlledTranslator : Type := {
  dictionary_map : gmap str str;
  min_phrase_words : Z;
  max_phrase_words : Z;
  override_patterns : list (str * str)
}.

(** [sorted(items, key=lambda item: len(item[0]), reverse=True)]: a stable
    sort, longest source first, equal lengths in their original order. *)
Fixpoint insert_by_length (x : str * str) (l : list (str * str)) : list (str * str) :=
  match l with
  | [] => [x]
  | y :: l' =>
      if (length y.1 <=? length x.1)%nat then x :: l
      else y :: insert_by_length x l'
  end.

Definition sorted_by_length_desc (l : list (str * str)) : list (str * str) :=
  foldr insert_by_length [] l.

(** [ControlledTranslator.__init__]; [overrides] is the dict's items in
    order. *)
Definition new_translator (dictionary : gmap str str) (overrides : list (str * str))
    (min_words max_words : Z) : ControlledTranslator :=
  {| dictionary_map := dictionary;
     min_phrase_words := min_words;
     max_phrase_words := Z.max min_words max_words;
     override_patterns :=
       sorted_by_length_desc
         ((fun item : str * str => (normalize_key item.1, item.2)) <$>
          filter (fun item : str * str =>
                    nonempty (strip item.1) && nonempty (strip item.2) = true)
                 overrides) |}.

(** The mask of the protected span number [index]. *)
Definition PH_OPEN : N := 10218.
Definition PH_CLOSE : N := 10219.
Definition placeholder (index : nat) : str :=
  PH_OPEN :: 35 :: decimal index ++ [PH_CLOSE].

(** The closure [replacer] of [_protect] with its captured list. *)
Definition replacer (protected : list str) (matched : str) : list str * str :=
  (protected ++ [matched], placeholder (length protected)).

(** [ControlledTranslator._protect] *)
Definition _protect (text : str) : str * list str :=
  foldl (fun (acc : str * list str) (pattern : matcher) =>
           let '(protected, out) := re_sub pattern replacer acc.2 acc.1 in
           (out, protected))
        (text, []) PROTECT_PATTERNS.

(** [out.replace(old, new)] for a non-empty [old]: the occurrences are
    taken from the left and do not overlap. *)
Fixpoint replace_from (old new : str) (skip : nat) (s : str) : str :=
  match s with
  | [] => []
  | c :: s' =>
      match skip with
      | S k => replace_from old new k s'
      | O =>
          if starts_with old s
          then new ++ replace_from old new (length old - 1) s'
          else c :: replace_from old new O s'
      end
  end.

Definition replace (old new s : str) : str := replace_from old new O s.

(** The loop of [_restore], from [index - 1] down to 0. *)
Fixpoint restore_from (index : nat) (out : str) (protected : list str) : str :=
  match index with
  | O => out
  | S i => restore_from i (replace (placeholder i) (nth i protected []) out) protected
  end.

(** [ControlledTranslator._restore] *)
Definition _restore (text : str) (protected : list str) : str :=
  restore_from (length protected) text protected.

(** Matching under [re.IGNORECASE]. *)
Definition ci_eq (p c : N) : bool :=
  if is_ascii p && is_ascii c then ascii_lower p =? ascii_lower c
  else (p =? c) || uni_ci_eq p c.

Definition IDENT_CHARS : str :=
  u "ABCDEFGHIJKLMNOPQRSTUVWXYZabcdefghijklmnopqrstuvwxyz0123456789_".

(** The class [[A-Za-z0-9_]] under [re.IGNORECASE]. *)
Definition ci_ident (c : N) : bool :=
  if is_ascii c then is_ident_char c
  else existsb (fun p => uni_ci_eq p c) IDENT_CHARS.

Fixpoint starts_with_ci (p s : str) : bool :=
  match p, s with
  | [], _ => true
  | a :: p', b :: s' => ci_eq a b && starts_with_ci p' s'
  | _ :: _, [] => false
  end.

(** [(?<![A-Za-z0-9_])] + [re.escape(source)] + [(?![A-Za-z0-9_])],
    compiled with [re.IGNORECASE]. *)
Definition m_override (source : str) : matcher := fun prev s =>
  if match prev with None => true | Some p => negb (ci_ident p) end
     && starts_with_ci source s
     && match drop (length source) s with [] => true | d :: _ => negb (ci_ident d) end
  then Some (length source) else None.

(** A [str] replacement of [pattern.sub] is a template: without a backslash
    it stands for itself, with one it is parsed by [re], which raises
    [re.error] on an escape it does not accept.  The template is compiled
    before the subject is searched. *)
Definition compile_template (replacement : str) : outcome (str -> str) :=
  if existsb (N.eqb 92) replacement then
    match re_template replacement with
    | Some expand => Return expand
    | None => Raise ReError
    end
  else Return (fun _ => replacement).

(** [ControlledTranslator._apply_overrides] *)
Fixpoint apply_patterns (patterns : list (str * str)) (out : str) : outcome str :=
  match patterns with
  | [] => Return out
  | (source, replacement) :: rest =>
      expand ← compile_template replacement;
      apply_patterns rest
        (re_sub (m_override source) (fun (_ : unit) matched => (tt, expand matched)) tt out).2
  end.

Definition _apply_overrides (tr : ControlledTranslator) (text : str) : outcome str :=
  apply_patterns (override_patterns tr) text.

(** [tokens[idx]] *)
Definition token_at (toks : list (nat * nat)) (idx : nat) : nat * nat :=
  nth idx toks (O, O).

(** [ControlledTranslator._tokens_are_space_separated] *)
Definition _tokens_are_space_separated (text : str) (toks : list (nat * nat))
    (start_index end_index : nat) : bool :=
  forallb (fun idx => isspace (slice (token_at toks idx).2 (token_at toks (S idx)).1 text))
          (seq start_index (end_index - start_index)).

(** [range(hi, lo - 1, -1)] *)
Definition range_down (hi lo : Z) : list Z :=
  (fun k => (hi - Z.of_nat k)%Z) <$> seq O (Z.to_nat (hi - lo + 1)).

(** [self.dictionary_map.get(key)] when it is a non-empty string. *)
Definition lookup_phrase (tr : ControlledTranslator) (key : str) : option str :=
  match dictionary_map tr !! key with
  | Some replacement => if nonempty replacement then Some replacement else None
  | None => None
  end.

(** The candidate phrase of the window of [window] tokens at [index]. *)
Definition window_phrase (text : str) (toks : list (nat * nat)) (index window : nat) : str :=
  join [32] ((fun idx => slice (token_at toks idx).1 (token_at toks idx).2 text)
               <$> seq index window).

Inductive best_match : Type :=
| NoMatch
| Match (start end_ : nat) (replacement : str) (next_index : nat)
| Stuck.

(** The [for window in range(...)] loop of [_apply_dictionary].  A window
    [w <= 0] (tried only when [min_phrase_words <= 0]) builds the empty
    phrase; if the dictionary maps the empty key to a non-empty string the
    enclosing [while] loop does not end normally: with [w = 0] the token
    index no longer advances, with [w < 0] it moves backwards until an index
    is out of range.  [Stuck] stands for that. *)
Fixpoint find_best_match (tr : ControlledTranslator) (text : str)
    (toks : list (nat * nat)) (index : nat) (windows : list Z) : best_match :=
  match windows with
  | [] => NoMatch
  | w :: rest =>
      if (w <=? 0)%Z then
        match lookup_phrase tr (normalize_key []) with
        | Some _ => Stuck
        | None => find_best_match tr text toks index rest
        end
      else
        let window := Z.to_nat w in
        let end_index := (index + window - 1)%nat in
        if _tokens_are_space_separated text toks index end_index then
          match lookup_phrase tr (normalize_key (window_phrase text toks index window)) with
          | Some replacement =>
              Match (token_at toks index).1 (token_at toks end_index).2
                    replacement (end_index + 1)
          | None => find_best_match tr text toks index rest
          end
        else find_best_match tr text toks index rest
  end.

(** The windows tried at token [index]. *)
Definition window_range (tr : ControlledTranslator) (n_tokens index : nat) : list Z :=
  range_down (Z.min (max_phrase_words tr) (Z.of_nat (n_tokens - index)))
             (min_phrase_words tr).

(** The [while index < len(tokens)] loop; the value is the text joined from
    [out_parts] from the current cursor on.  Every iteration that returns
    moves [index] forward, so [fuel = len(tokens)] iterations reach the end
    of the loop. *)
Fixpoint dictionary_loop (tr : ControlledTranslator) (text : str)
    (toks : list (nat * nat)) (fuel index cursor : nat) : outcome str :=
  match fuel with
  | O => Return (drop cursor text)
  | S fuel' =>
      if (index <? length toks)%nat then
        match find_best_match tr text toks index (window_range tr (length toks) index) with
        | NoMatch => dictionary_loop tr text toks fuel' (S index) cursor
        | Match start end_ replacement next_index =>
            rest ← dictionary_loop tr text toks fuel' next_index end_;
            Return (slice cursor start text ++ replacement ++ rest)
        | Stuck => Raise NoReturn
        end
      else Return (drop cursor text)
  end.

(** [ControlledTranslator._apply_dictionary] *)
Definition _apply_dictionary (tr : ControlledTranslator) (text : str) : outcome str :=
  let toks := tokens text in
  match toks with
  | [] => Return text
  | _ => dictionary_loop tr text toks (length toks) O O
  end.

(** [ControlledTranslator.translate_text] *)
Definition translate_text (tr : ControlledTranslator) (text : str) : outcome str :=
  if negb (nonempty (strip text)) || negb (has_english text) then Return text
  else
    let '(protected_text, protected) := _protect text in
    translated ← _apply_overrides tr protected_text;
    translated ← _apply_dictionary tr translated;
    Return (_restore translated protected).

(** ** The delta accumulator *)

(** [DeltaAccumulator.rewrite_to_full_buffer]: the value and the buffers
    after the call. *)
Definition rewrite_to_full_buffer (tr : ControlledTranslator) (stream_key delta : str)
    (bufs : buffers) : outcome (str * buffers) :=
  let full_source := default [] (bufs !! stream_key) ++ delta in
  let bufs' := <[stream_key := full_source]> bufs in
  out ← translate_text tr full_source;
  Return (out, bufs').

(** [DeltaAccumulator.clear_by_record_id] *)
Definition clear_by_record_id (record_id : str) (bufs : buffers) : buffers :=
  let prefix := record_id ++ [124] in
  let keys := filter (fun key => starts_with prefix key = true) (map_to_list bufs).*1 in
  foldl (fun m key => delete key m) bufs keys.

(** ** The JSON walker *)

Definition TARGET_STATUS_KEYS : list str :=
  [u "status_header"; u "status_details"; u "statusHeader"; u "statusDetails"].
Definition TARGET_REASONING_KEYS : list str :=
  [u "delta"; u "text"; u "summary"; u "summary_text"; u "summaryText"; u "message"].
Definition TARGET_STATUS_EVENT_TYPES : list str :=
  [u "background_event"; u "collab_waiting_begin"; u "collab_waiting_end"].
Definition RESET_EVENT_TYPES : list str :=
  [u "agent_reasoning"; u "agent_reasoning_raw_content";
   u "agent_reasoning_section_break"; u "task_complete"; u "turn_complete"].

(** [x in SET] for a set of strings. *)
Definition mem (x : str) (set : list str) : bool := bool_decide (x ∈ set).

(** [node.get(key)] on a dict. *)
Fixpoint dict_get (fields : list (str * json)) (key : str) : option json :=
  match fields with
  | [] => None
  | (k, v) :: rest => if bool_decide (k = key) then Some v else dict_get rest key
  end.

(** [value = obj.get(key)] followed by [isinstance(value, str)]. *)
Definition get_str (fields : list (str * json)) (key : str) : option str :=
  match dict_get fields key with
  | Some (JStr s) => Some s
  | _ => None
  end.

(** [obj.get(key)] when it is a dict. *)
Definition get_dict (fields : list (str * json)) (key : str) : option (list (str * json)) :=
  match dict_get fields key with
  | Some (JObj inner) => Some inner
  | _ => None
  end.

Definition detect_event_type (node : json) : option str :=
  match node with
  | JObj fields =>
      match get_str fields (u "type") with
      | Some value => Some value
      | None =>
          match payload ← get_dict fields (u "payload");
                msg ← get_dict payload (u "msg");
                get_str msg (u "type") with
          | Some msg_type => Some msg_type
          | None => msg ← get_dict fields (u "msg"); get_str msg (u "type")
          end
      end
  | _ => None
  end.

(** A string that is present and non-empty. *)
Definition truthy_str (o : option str) : option str :=
  match o with
  | Some s => if nonempty s then Some s else None
  | None => None
  end.

Definition extract_record_id (node : json) : option str :=
  match node with
  | JObj fields =>
      match truthy_str (payload ← get_dict fields (u "payload"); get_str payload (u "id")) with
      | Some payload_id => Some payload_id
      | None =>
          match truthy_str (get_str fields (u "id")) with
          | Some value => Some value
          | None => truthy_str (get_str fields (u "item_id"))
          end
      end
  | _ => None
  end.

Definition TEXT_KEYS : list str := [u "message"; u "text"; u "delta"].

Definition should_translate_field (key : str) (event_type : option str)
    (parent_path : list str) : bool :=
  mem key TARGET_STATUS_KEYS
  || match truthy_str event_type with
     | Some t =>
         let lowered := lower t in
         (contains (u "reasoning") lowered && mem key TARGET_REASONING_KEYS)
         || (mem lowered TARGET_STATUS_EVENT_TYPES && mem key TEXT_KEYS)
     | None => false
     end
  || mem key [u "status_header"; u "status_details"]
  || (contains (u "orchestration") (lower (join [46] parent_path)) && mem key TEXT_KEYS).

Inductive DeltaMode : Set := full_buffer | chunk.
Inductive Mode : Set := auto | jsonl | text.

(** The condition [should_expand_delta] of [translate_json_node]. *)
Definition should_expand_delta (delta_mode : DeltaMode) (key : str)
    (node_event_type record_id : option str) : bool :=
  match delta_mode, node_event_type, record_id with
  | full_buffer, Some t, Some _ =>
      bool_decide (key = u "delta")
      && (contains (u "reasoning") (lower t) || mem (lower t) TARGET_STATUS_EVENT_TYPES)
  | _, _, _ => false
  end.

(** [f"{record_id}|{node_event_type}|{'.'.join([*current_path, key])}"] *)
Definition stream_key_of (record_id event_type : str) (path : list str) (key : str) : str :=
  record_id ++ [124] ++ event_type ++ [124] ++ join [46] (path ++ [key]).

(** [detect_event_type(node) or inherited_event_type] *)
Definition event_type_or (node : json) (inherited : option str) : option str :=
  match truthy_str (detect_event_type node) with
  | Some t => Some t
  | None => inherited
  end.

(** [translate_json_node]: the accumulator's buffers are threaded through
    the traversal in the order of the dict's items and the list's elements. *)
Fixpoint translate_json_node (tr : ControlledTranslator) (delta_mode : DeltaMode)
    (record_id : option str) (node : json) (inherited_event_type : option str)
    (path : list str) (bufs : buffers) : outcome (json * buffers) :=
  let node_event_type := event_type_or node inherited_event_type in
  match node with
  | JObj fields =>
      let fix items (l : list (str * json)) (bufs : buffers)
          : outcome (list (str * json) * buffers) :=
        match l with
        | [] => Return ([], bufs)
        | (key, value) :: l' =>
            '(value', bufs1) ←
              match value with
              | JStr s =>
                  if should_translate_field key node_event_type path then
                    if should_expand_delta delta_mode key node_event_type record_id then
                      '(out, bufs1) ←
                        rewrite_to_full_buffer tr
                          (stream_key_of (default [] record_id) (default [] node_event_type)
                                         path key)
                          s bufs;
                      Return (JStr out, bufs1)
                    else
                      out ← translate_text tr s; Return (JStr out, bufs)
                  else Return (value, bufs)
              | _ =>
                  translate_json_node tr delta_mode record_id value node_event_type
                                      (path ++ [key]) bufs
              end;
            '(rest, bufs2) ← items l' bufs1;
            Return ((key, value') :: rest, bufs2)
        end in
      '(fields', bufs') ← items fields bufs;
      Return (JObj fields', bufs')
  | JArr elements =>
      let fix each (l : list json) (bufs : buffers) : outcome (list json * buffers) :=
        match l with
        | [] => Return ([], bufs)
        | item :: l' =>
            '(item', bufs1) ←
              translate_json_node tr delta_mode record_id item node_event_type path bufs;
            '(rest, bufs2) ← each l' bufs1;
            Return (item' :: rest, bufs2)
        end in
      '(elements', bufs') ← each elements bufs;
      Return (JArr elements', bufs')
  | _ => Return (node, bufs)
  end.

(** ** The line processor *)

Record TranslationStats : Set := {
  lines : nat;
  translated_strings : nat;
  json_records : nat
}.

(** [process_line]: the returned text, with the buffers and the counters
    after the call. *)
Definition process_line (line : str) (tr : ControlledTranslator) (bufs : buffers)
    (mode : Mode) (delta_mode : DeltaMode) (stats : TranslationStats)
    : outcome (str * buffers * TranslationStats) :=
  let stats := {| lines := S (lines stats);
                  translated_strings := translated_strings stats;
                  json_records := json_records stats |} in
  let content := rstrip_newlines line in
  let newline := if ends_with [10] line then [10] else [] in
  let as_text :=
    match mode with
    | jsonl => Return (line, bufs, stats)
    | _ =>
        translated_text ← translate_text tr content;
        Return (translated_text ++ newline, bufs,
                {| lines := lines stats;
                   translated_strings :=
                     if bool_decide (translated_text = content)
                     then translated_strings stats else S (translated_strings stats);
                   json_records := json_records stats |})
    end in
  let should_try_json :=
    match mode with
    | text => false
    | _ => starts_with [123] (strip content) || starts_with [91] (strip content)
    end in
  if should_try_json then
    match json_loads content with
    | Raise JSONDecodeError => as_text
    | Raise e => Raise e
    | Return parsed =>
        let event_type := detect_event_type parsed in
        let record_id := extract_record_id parsed in
        let bufs :=
          match delta_mode, record_id, event_type with
          | full_buffer, Some rid, Some t =>
              if mem t RESET_EVENT_TYPES then clear_by_record_id rid bufs else bufs
          | _, _, _ => bufs
          end in
        '(translated, bufs') ←
          translate_json_node tr delta_mode record_id parsed None [] bufs;
        let encoded := json_dumps translated in
        Return (encoded ++ newline, bufs',
                {| lines := lines stats;
                   translated_strings :=
                     if bool_decide (encoded = content)
                     then translated_strings stats else S (translated_strings stats);
                   json_records := S (json_records stats) |})
    end
  else as_text.

(** ** Loading the overrides and the dictionary *)

(** [load_overrides]; [file] is the text of the file, [None] when the path
    does not exist. *)
Definition load_overrides (file : option str) : outcome (list (str * str)) :=
  match file with
  | None => Return []
  | Some content =>
      match json_loads content with
      | Raise e => Raise e
      | Return (JObj fields) =>
          Return (omap (fun item : str * json =>
                          match item.2 with
                          | JStr value => Some (item.1, value)
                          | _ => None
                          end) fields)
      | Return _ => Raise ValueError
      end
  end.

(** [str(v)] *)
Definition py_str (v : json) : str :=
  match v with
  | JStr s => s
  | _ => py_repr v
  end.

Definition TARGET_LANGS : list str := [u "zh"; u "zh-Hans"; u "zh-Hant"].

(** [value == "en"] for a JSON value. *)
Definition is_str (expected : str) (value : option json) : bool :=
  match value with
  | Some (JStr s) => bool_decide (s = expected)
  | _ => false
  end.

(** [value in {"zh", "zh-Hans", "zh-Hant"}]: the value is hashed first,
    which raises [TypeError] on a list or a dict. *)
Definition in_target_langs (value : option json) : outcome bool :=
  match value with
  | Some (JArr _) | Some (JObj _) => Raise TypeError
  | Some (JStr l) => Return (mem l TARGET_LANGS)
  | _ => Return false
  end.

(** One iteration of the loop of [load_dictionary]. *)
Definition load_dictionary_line (mapping : gmap str str) (line : str)
    : outcome (gmap str str) :=
  let line := strip line in
  if negb (nonempty line) then Return mapping
  else
    match json_loads line with
    | Raise e => Raise e
    | Return (JObj record) =>
        if negb (is_str (u "en") (dict_get record (u "lang_src"))) then Return mapping
        else
          wanted ← in_target_langs (dict_get record (u "lang_tgt"));
          if negb wanted then Return mapping
          else
            let source :=
              normalize_spaces (py_str (default (JStr []) (dict_get record (u "term_src")))) in
            let target :=
              normalize_spaces (py_str (default (JStr []) (dict_get record (u "term_tgt")))) in
            if negb (nonempty source) || negb (nonempty target) then Return mapping
            else if negb (is_plain_english_term source) then Return mapping
            else
              let key := normalize_key source in
              match mapping !! key with
              | Some _ => Return mapping
              | None => Return (<[key := target]> mapping)
              end
    | Return _ => Raise AttributeError
    end.

(** [load_dictionary] on the lines of the file. *)
Fixpoint load_dictionary_from (mapping : gmap str str) (file_lines : list str)
    : outcome (gmap str str) :=
  match file_lines with
  | [] => Return mapping
  | line :: rest =>
      mapping' ← load_dictionary_line mapping line;
      load_dictionary_from mapping' rest
  end.

Definition load_dictionary (file_lines : list str) : outcome (gmap str str) :=
  load_dictionary_from ∅ file_lines.

(** ** The translator built by [main] *)

(** The translator [main] builds from the command line's
    [--min-phrase-words] and [--max-phrase-words]. *)
Definition main_translator (dictionary : gmap str str) (overrides : list (str * str))
    (arg_min arg_max : Z) : ControlledTranslator :=
  new_translator dictionary overrides (Z.max 1 arg_min) arg_max.

(** ** The main loop *)

(** The loop [for line in sys.stdin] of [main]: the texts written to the
    standard output, with the buffers and the counters after the last line.
    Each text is written as soon as its line is processed; a text that the
    stream cannot encode ends the loop with [UnicodeEncodeError]. *)
Fixpoint process_lines (tr : ControlledTranslator) (mode : Mode) (delta_mode : DeltaMode)
    (input : list str) (bufs : buffers) (stats : TranslationStats)
    : outcome (list str * buffers * TranslationStats) :=
  match input with
  | [] => Return ([], bufs, stats)
  | line :: rest =>
      '(out, bufs1, stats1) ← process_line line tr bufs mode delta_mode stats;
      if stdout_encodes out then
        '(outs, bufs2, stats2) ← process_lines tr mode delta_mode rest bufs1 stats1;
        Return (out :: outs, bufs2, stats2)
      else Raise UnicodeEncodeError
  end.

(** [main] for a dictionary file that exists: [dictionary_lines] are the
    lines of that file, [overrides_file] is the text of the overrides file
    if there is one, [input] the lines of the standard input.  The value is
    what is written to the standard output, with the counters that
    [--stats] reports. *)
Definition main (dictionary_lines : list str) (overrides_file : option str)
    (arg_min arg_max : Z) (mode : Mode) (delta_mode : DeltaMode) (input : list str)
    : outcome (list str * TranslationStats) :=
  dictionary_map ← load_dictionary dictionary_lines;
  overrides ← load_overrides overrides_file;
  '(outs, _, stats) ←
    process_lines (main_translator dictionary_map overrides arg_min arg_max)
                  mode delta_mode input ∅
                  {| lines := 0; translated_strings := 0; json_records := 0 |};
  Return (outs, stats).

End Model.

(** ** A runtime for the examples *)

(** A decoder for the JSON texts of the examples: objects, arrays, strings
    with the two-character escapes, integers and the three literals.  It
    rejects floats and [\u] escapes, which the examples do not use. *)
Definition is_json_ws (c : N) : bool := (c =? 32) || (c =? 9) || (c =? 10) || (c =? 13).

Definition skip_ws (s : str) : str := drop_while is_json_ws s.

(** The characters of a string up to its closing quote, and what follows. *)
Fixpoint decode_string (s : str) : option (str * str) :=
  match s with
  | [] => None
  | 34 :: rest => Some ([], rest)
  | 92 :: e :: rest =>
      c ← (if e =? 34 then Some 34 else if e =? 92 then Some 92
            else if e =? 47 then Some 47 else if e =? 110 then Some 10
            else if e =? 116 then Some 9 else if e =? 114 then Some 13
            else if e =? 98 then Some 8 else if e =? 102 then Some 12
            else None);
      '(body, rest') ← decode_string rest;
      Some (c :: body, rest')
  | c :: rest =>
      if (c <? 32) || (c =? 92) then None
      else '(body, rest') ← decode_string rest; Some (c :: body, rest')
  end.

Fixpoint decode_digits (acc : Z) (s : str) : Z * str :=
  match s with
  | c :: rest => if is_digit c then decode_digits (acc * 10 + Z.of_N (c - 48)) rest else (acc, s)
  | [] => (acc, s)
  end.

(** [0] or a digit from 1 to 9 followed by digits; no fraction, no exponent. *)
Definition decode_int (s : str) : option (Z * str) :=
  '(n, rest) ←
    match s with
    | 48 :: rest => Some (0%Z, rest)
    | c :: _ => if is_digit c then Some (decode_digits 0 s) else None
    | [] => None
    end;
  match rest with
  | c :: _ => if (c =? 46) || (c =? 101) || (c =? 69) then None else Some (n, rest)
  | [] => Some (n, rest)
  end.

(** [d[key] = value] on a dict: a key keeps its first position. *)
Fixpoint dict_set (fields : list (str * json)) (key : str) (value : json)
    : list (str * json) :=
  match fields with
  | [] => [(key, value)]
  | (k, v) :: rest =>
      if bool_decide (k = key) then (k, value) :: rest
      else (k, v) :: dict_set rest key value
  end.

Fixpoint decode_value (fuel : nat) (s : str) : option (json * str) :=
  match fuel with
  | O => None
  | S fuel' =>
      let fix elements (n : nat) (acc : list json) (s : str) : option (json * str) :=
        match n with
        | O => None
        | S n' =>
            '(v, rest) ← decode_value fuel' s;
            match skip_ws rest with
            | 44 :: rest' => elements n' (acc ++ [v]) rest'
            | 93 :: rest' => Some (JArr (acc ++ [v]), rest')
            | _ => None
            end
        end in
      let fix members (n : nat) (acc : list (str * json)) (s : str) : option (json * str) :=
        match n with
        | O => None
        | S n' =>
            match skip_ws s with
            | 34 :: rest =>
                '(key, rest) ← decode_string rest;
                match skip_ws rest with
                | 58 :: rest =>
                    '(v, rest) ← decode_value fuel' rest;
                    match skip_ws rest with
                    | 44 :: rest' => members n' (dict_set acc key v) rest'
                    | 125 :: rest' => Some (JObj (dict_set acc key v), rest')
                    | _ => None
                    end
                | _ => None
                end
            | _ => None
            end
        end in
      match skip_ws s with
      | 123 :: rest =>
          match skip_ws rest with
          | 125 :: rest' => Some (JObj [], rest')
          | _ => members fuel' [] rest
          end
      | 91 :: rest =>
          match skip_ws rest with
          | 93 :: rest' => Some (JArr [], rest')
          | _ => elements fuel' [] rest
          end
      | 34 :: rest => '(body, rest') ← decode_string rest; Some (JStr body, rest')
      | 45 :: rest => '(n, rest') ← decode_int rest; Some (JInt (- n), rest')
      | s' =>
          if starts_with (u "true") s' then Some (JBool true, drop 4 s')
          else if starts_with (u "false") s' then Some (JBool false, drop 5 s')
          else if starts_with (u "null") s' then Some (JNull, drop 4 s')
          else '(n, rest') ← decode_int s'; Some (JInt n, rest')
      end
  end.

Definition example_loads (s : str) : option json :=
  '(v, rest) ← decode_value (S (length s)) s;
  match skip_ws rest with
  | [] => Some v
  | _ => None
  end.

(** The compact encoder, with [ensure_ascii=False]. *)
Definition hex_digit (n : N) : N := if n <? 10 then 48 + n else 87 + n.

Definition encode_char (c : N) : str :=
  if c =? 34 then [92; 34] else if c =? 92 then [92; 92]
  else if c =? 10 then [92; 110] else if c =? 13 then [92; 114]
  else if c =? 9 then [92; 116] else if c =? 8 then [92; 98]
  else if c =? 12 then [92; 102]
  else if c <? 32 then [92; 117; 48; 48; hex_digit (c / 16); hex_digit (c mod 16)]
  else [c].

Definition encode_string (s : str) : str := [34] ++ concat (encode_char <$> s) ++ [34].

Definition encode_int (z : Z) : str :=
  match z with
  | Zneg p => 45 :: decimal (Pos.to_nat p)
  | _ => decimal (Z.to_nat z)
  end.

Fixpoint example_dumps (v : json) : str :=
  match v with
  | JNull => u "null"
  | JBool true => u "true"
  | JBool false => u "false"
  | JInt z => encode_int z
  | JFloat repr => repr
  | JStr s => encode_string s
  | JArr items => [91] ++ join [44] (example_dumps <$> items) ++ [93]
  | JObj fields =>
      [123] ++ join [44] ((fun kv : str * json =>
                             encode_string kv.1 ++ [58] ++ example_dumps kv.2) <$> fields)
      ++ [125]
  end.

(** [str(v)] of the values the examples pass to it. *)
Definition example_repr (v : json) : str :=
  match v with
  | JNull => u "None"
  | JBool true => u "True"
  | JBool false => u "False"
  | JInt z => encode_int z
  | _ => example_dumps v
  end.

(** The replacement template of [re.sub] for a pattern without groups: a
    piece is a character or, for [None], the whole match ([\g<0>]).  An
    escape [re] does not know, a group reference and a backslash at the end
    are errors. *)
(** The one-character escapes of a template: [Some (Some c)] for an escape
    that stands for [c], [Some None] for a backslash kept with its character,
    [None] for an ASCII letter that is no escape. *)
Definition escape_char (e : N) : option (option N) :=
  if e =? 92 then Some (Some 92) else if e =? 110 then Some (Some 10)
  else if e =? 116 then Some (Some 9) else if e =? 114 then Some (Some 13)
  else if e =? 97 then Some (Some 7) else if e =? 98 then Some (Some 8)
  else if e =? 102 then Some (Some 12) else if e =? 118 then Some (Some 11)
  else if is_letter e then None
  else Some None.

Definition is_octal (c : N) : bool := in_range 48 55 c.

Fixpoint parse_template (t : str) : option (list (option N)) :=
  match t with
  | [] => Some []
  | 92 :: rest =>
      match rest with
      | [] => None
      | 103 :: 60 :: 48 :: 62 :: rest' => cons None <$> parse_template rest'
      | 48 :: r1 =>
          match r1 with
          | d1 :: r2 =>
              if is_octal d1 then
                match r2 with
                | d2 :: r3 =>
                    if is_octal d2
                    then cons (Some ((d1 - 48) * 8 + (d2 - 48))) <$> parse_template r3
                    else cons (Some (d1 - 48)) <$> parse_template r2
                | [] => Some [Some (d1 - 48)]
                end
              else cons (Some 0) <$> parse_template r1
          | [] => Some [Some 0]
          end
      | d0 :: r1 =>
          if is_digit d0 then
            match r1 with
            | d1 :: d2 :: r3 =>
                if is_octal d0 && is_octal d1 && is_octal d2
                   && ((d0 - 48) * 64 + (d1 - 48) * 8 + (d2 - 48) <=? 255)
                then cons (Some ((d0 - 48) * 64 + (d1 - 48) * 8 + (d2 - 48)))
                       <$> parse_template r3
                else None
            | _ => None
            end
          else
            match escape_char d0 with
            | Some (Some c) => cons (Some c) <$> parse_template r1
            | Some None => (fun l => Some 92 :: Some d0 :: l) <$> parse_template r1
            | None => None
            end
      end
  | c :: rest => cons (Some c) <$> parse_template rest
  end.

Definition example_template (t : str) : option (str -> str) :=
  pieces ← parse_template t;
  Some (fun matched =>
          concat ((fun piece : option N => match piece with
                                           | Some c => [c]
                                           | None => matched
                                           end) <$> pieces)).

(** A runtime for the examples: exact on ASCII, on the CJK ideographs
    U+4E00..U+9FFF (alphanumeric, without case) and on the mask delimiters
    U+27EA and U+27EB (neither alphanumeric nor cased).  Its [json_loads]
    decodes the JSON texts of the examples and raises [JSONDecodeError] on
    the rest; its standard output is a UTF-8 stream. *)
Definition example_runtime : PyRuntime :=
  {| uni_alnum := fun c => in_range 19968 40959 c;
     uni_lower := fun s => s;
     uni_ci_eq := fun _ _ => false;
     re_template := example_template;
     json_loads := fun s =>
       match example_loads s with
       | Some v => Return v
       | None => Raise JSONDecodeError
       end;
     json_dumps := example_dumps;
     py_repr := example_repr;
     stdout_encodes := forallb (fun c => negb (in_range 55296 57343 c)) |}.

(** [q "{'a': 'b'}"] is the text of the literal with every single quote
    replaced by a double quote. *)
Definition q (s : string) : str := (fun c => if c =? 39 then 34 else c) <$> u s.
(** * Vocabulary of the properties *)

(** ** Masks *)

(** A mask is [PH_OPEN] followed by its tail. *)
Definition mask_tail (i : nat) : str := 35 :: decimal i ++ [PH_CLOSE].

(** The text [s] holds none of the masks numbered from [lo] to [hi - 1]. *)
Definition masks_absent (lo hi : nat) (s : str) : Prop :=
  forall j, (lo <= j < hi)%nat -> contains (placeholder j) s = false.

(** The characters a mask is made of. *)
Definition MASK_CHARS : str := PH_OPEN :: PH_CLOSE :: 35 :: u "0123456789".

(** The characters of an inline code span: any but the backtick and the
    newline. *)
Definition is_code_char (c : N) : bool := negb (c =? BACKTICK) && negb (c =? 10).

(** A character that starts no protected span and is part of no path head
    and no URL scheme separator: any but the backtick, the slash, the
    backslash, the hyphen, the underscore and the capital letters. *)
Definition is_plain_char (c : N) : bool :=
  negb ((c =? BACKTICK) || (c =? 47) || (c =? 92) || (c =? 45) || (c =? 95) || is_upper c).

(** ** Tokens *)

(** The spans [toks] moved [d] characters to the right. *)
Definition shift (d : nat) (toks : list (nat * nat)) : list (nat * nat) :=
  (fun t : nat * nat => (d + t.1, d + t.2)%nat) <$> toks.

(** A match moved [off] characters and [n] tokens to the right. *)
Definition offset_match (off n : nat) (m : best_match) : best_match :=
  match m with
  | Match start end_ replacement next_index =>
      Match (off + start) (off + end_) replacement (n + next_index)
  | other => other
  end.

(** A text that the dictionary pass neither rewrites nor looks across: it
    starts with no letter, digit, hyphen or quote, holds no ASCII letter,
    and is not made of white space only. *)
Definition is_barrier (s : str) : bool :=
  match s with
  | [] => false
  | h :: _ =>
      negb (is_alnum h) && negb (is_token_sep h)
      && forallb (fun c => negb (is_letter c)) s
      && negb (forallb is_space s)
  end.

(** ** Texts *)

(** White space in [s] is the space character only, and never two in a row;
    [after_space] tells that a space comes just before [s]. *)
Fixpoint tidy (after_space : bool) (s : str) : bool :=
  match s with
  | [] => true
  | c :: r =>
      if is_space c then (c =? 32) && negb after_space && tidy true r
      else tidy false r
  end.

(** Words separated by single spaces, with no white space at either end. *)
Definition single_spaced (s : str) : bool := tidy true s && tidy true (reverse s).

(** The state of [tidy] after the text [a]. *)
Definition ends_in_space (b : bool) (a : str) : bool :=
  match reverse a with
  | [] => b
  | c :: _ => is_space c
  end.

(** A text that starts with a letter and holds only letters, digits, the
    hyphen and the quote. *)
Definition is_token (w : str) : bool :=
  match w with
  | [] => false
  | c :: r => is_letter c && forallb (fun x => is_alnum x || is_token_sep x) r
  end.

(** ** The override patterns *)



(** [q] comes no earlier than [p] in the order of the override patterns. *)
Definition no_longer (p q : str * str) : Prop := (length q.1 <= length p.1)%nat.

(** No replacement holds a backslash: each stands for itself in [re.sub]. *)
Definition literal_replacements (items : list (str * str)) : Prop :=
  Forall (fun item : str * str => existsb (N.eqb 92) item.2 = false) items.

(** ** The dictionary *)

Definition keys_bounded (m : gmap str str) : Prop :=
  forall key target, m !! key = Some target -> (length key <= 128)%nat.

(** ** Lines *)

Definition is_object (v : json) : bool :=
  match v with
  | JObj _ => true
  | _ => false
  end.

(** The test [process_line] makes before it tries [json.loads]. *)
Definition looks_like_json (content : str) : bool :=
  starts_with [123] (strip content) || starts_with [91] (strip content).

(** The counters after a line that was passed through. *)
Definition count_line (stats : TranslationStats) : TranslationStats :=
  {| lines := S (lines stats);
     translated_strings := translated_strings stats;
     json_records := json_records stats |}.

Definition stats0 : TranslationStats :=
  {| lines := 0; translated_strings := 0; json_records := 0 |}.

(** What one line may add to the counters. *)
Definition counted_once (stats stats' : TranslationStats) : Prop :=
  lines stats' = S (lines stats)
  /\ (translated_strings stats <= translated_strings stats' <= S (translated_strings stats))%nat
  /\ (json_records stats <= json_records stats' <= S (json_records stats))%nat.

(** The runtime [RT] with another [json.loads]. *)
Definition with_json_loads (loads : str -> outcome json) (RT : PyRuntime) : PyRuntime :=
  {| uni_alnum := uni_alnum; uni_lower := uni_lower; uni_ci_eq := uni_ci_eq;
     re_template := re_template; json_loads := loads; json_dumps := json_dumps;
     py_repr := py_repr; stdout_encodes := stdout_encodes |}.

(** ** JSON records *)

(** The keys whose string values may be translated. *)
Definition TRANSLATED_KEYS : list str := TARGET_STATUS_KEYS ++ TARGET_REASONING_KEYS.

Definition is_string (v : json) : Prop := exists s, v = JStr s.

(** [same_shape a b]: [b] is [a] but for string values of objects under
    one of the translated keys. *)
Inductive same_shape : json -> json -> Prop :=
| same_value v : same_shape v v
| same_arr xs ys : Forall2 same_shape xs ys -> same_shape (JArr xs) (JArr ys)
| same_obj fs gs :
    Forall2 (fun f g : str * json =>
               f.1 = g.1
               /\ (same_shape f.2 g.2
                   \/ (mem f.1 TRANSLATED_KEYS = true /\ is_string f.2 /\ is_string g.2)))
            fs gs ->
    same_shape (JObj fs) (JObj gs).

Definition is_json_string (v : json) : bool :=
  match v with
  | JStr _ => true
  | _ => false
  end.

(** The value holds, at some depth, a dict with a string under the key
    [delta]. *)
Fixpoint has_delta (v : json) : bool :=
  match v with
  | JArr items => existsb has_delta items
  | JObj fields =>
      existsb (fun '(key, value) =>
                 (bool_decide (key = u "delta") && is_json_string value) || has_delta value)
              fields
  | _ => false
  end.

(** The buffer of key [k] is out of reach of a record with id [record_id]
    processed in mode [delta_mode]. *)
Definition untouched (delta_mode : DeltaMode) (record_id : option str) (k : str) : Prop :=
  match delta_mode, record_id with
  | full_buffer, Some rid => starts_with (rid ++ [124]) k = false
  | _, _ => True
  end.

Section Vocabulary.
Context {RT : PyRuntime}.

(** What the window of [window] tokens at token [index] is replaced by. *)
Definition window_hit (tr : ControlledTranslator) (text : str) (toks : list (nat * nat))
    (index window : nat) : option str :=
  if _tokens_are_space_separated text toks index (index + window - 1)
  then lookup_phrase tr (normalize_key (window_phrase text toks index window))
  else None.

(** One round of the loop of [_protect]. *)
Definition protect_step (acc : str * list str) (pattern : matcher) : str * list str :=
  let '(protected, out) := re_sub pattern replacer acc.2 acc.1 in (out, protected).

(** An override source that cannot match inside a mask or across one: its
    first character matches no character of a mask and none of its
    characters matches the opening delimiter. *)
Definition mask_safe (source : str) : bool :=
  match source with
  | [] => false
  | c :: _ =>
      forallb (fun m => negb (ci_eq c m)) MASK_CHARS
      && forallb (fun c' => negb (ci_eq c' PH_OPEN)) source
  end.

(** An entry as [load_dictionary] stores it. *)
Definition entry_ok (key target : str) : Prop :=
  is_plain_english_term key = true /\ normalize_key key = key
  /\ target <> [] /\ normalize_spaces target = target.

(** The record id of a line that parses. *)
Definition line_record_id (line : str) : option str :=
  match json_loads (rstrip_newlines line) with
  | Return parsed => extract_record_id parsed
  | Raise _ => None
  end.

(** What [translate_json_node] does with the value of one key of a dict. *)
Definition translate_field (tr : ControlledTranslator) (dm : DeltaMode) (rid net : option str)
    (path : list str) (key : str) (value : json) (bufs : buffers) : outcome (json * buffers) :=
  match value with
  | JStr s =>
      if should_translate_field key net path then
        if should_expand_delta dm key net rid then
          '(out, bufs1) ←
            rewrite_to_full_buffer tr
              (stream_key_of (default [] rid) (default [] net) path key) s bufs;
          Return (JStr out, bufs1)
        else out ← translate_text tr s; Return (JStr out, bufs)
      else Return (value, bufs)
  | _ => translate_json_node tr dm rid value net (path ++ [key]) bufs
  end.

(** The fragments [deltas] passed one after the other to
    [rewrite_to_full_buffer] for the same stream key: the values returned
    and the buffers after the last call. *)
Fixpoint feed (tr : ControlledTranslator) (stream_key : str) (deltas : list str)
    (bufs : buffers) : outcome (list str * buffers) :=
  match deltas with
  | [] => Return ([], bufs)
  | delta :: rest =>
      '(out, bufs1) ← rewrite_to_full_buffer tr stream_key delta bufs;
      '(outs, bufs2) ← feed tr stream_key rest bufs1;
      Return (out :: outs, bufs2)
  end.

End Vocabulary.

(** * Properties *)

(** ** The outcome monad *)

Lemma bind_return {A B} (x : A) (f : A -> outcome B) : (Return x ≫= f) = f x.
Proof. done. Qed.

Lemma bind_raise {A B} (e : exn) (f : A -> outcome B) : (Raise e ≫= f) = Raise e.
Proof. done. Qed.

(** ** Basic facts about strings *)

Lemma drop_while_length p s : (length (drop_while p s) <= length s)%nat.
Proof. induction s as [|c s IH]; simpl; [lia|]. destruct (p c); simpl; lia. Qed.

Lemma strip_length s : (length (strip s) <= length s)%nat.
Proof.
  unfold strip, rstrip, lstrip. rewrite length_reverse.
  etrans; [apply drop_while_length|]. rewrite length_reverse. apply drop_while_length.
Qed.

Lemma collapse_spaces_length b s : (length (collapse_spaces b s) <= length s)%nat.
Proof.
  revert b. induction s as [|c s IH]; intros b; simpl; [lia|].
  destruct (is_space c); [destruct b|]; simpl; specialize (IH true) as IH1;
    specialize (IH false) as IH2; lia.
Qed.

Lemma normalize_spaces_length s : (length (normalize_spaces s) <= length s)%nat.
Proof.
  unfold normalize_spaces. etrans; [apply strip_length|]. apply collapse_spaces_length.
Qed.

Lemma drop_while_forallb (q p : N -> bool) s :
  forallb q s = true -> forallb q (drop_while p s) = true.
Proof.
  induction s as [|c s IH]; simpl; [done|]. intros [Hc Hs]%andb_true_iff.
  destruct (p c); [auto|]. simpl. by rewrite Hc, Hs.
Qed.

Lemma forallb_reverse (q : N -> bool) s : forallb q (reverse s) = forallb q s.
Proof.
  induction s as [|c s IH]; [done|]. rewrite reverse_cons, forallb_app, IH. simpl.
  rewrite andb_true_r. apply andb_comm.
Qed.

Lemma strip_forallb (q : N -> bool) s : forallb q s = true -> forallb q (strip s) = true.
Proof.
  intros H. unfold strip, rstrip, lstrip. rewrite forallb_reverse.
  apply drop_while_forallb. rewrite forallb_reverse. by apply drop_while_forallb.
Qed.

Lemma collapse_spaces_ascii b s :
  forallb is_ascii s = true -> forallb is_ascii (collapse_spaces b s) = true.
Proof.
  revert b. induction s as [|c s IH]; intros b; simpl; [done|].
  intros [Hc Hs]%andb_true_iff.
  destruct (is_space c); [destruct b|]; simpl; rewrite ?Hc; simpl; auto.
Qed.

Lemma normalize_spaces_ascii s :
  forallb is_ascii s = true -> forallb is_ascii (normalize_spaces s) = true.
Proof. intros H. apply strip_forallb. by apply collapse_spaces_ascii. Qed.

Lemma is_alnum_ascii c : is_alnum c = true -> is_ascii c = true.
Proof.
  unfold is_alnum, is_letter, is_upper, is_lower, is_digit, in_range, is_ascii.
  rewrite !orb_true_iff, !andb_true_iff, !N.leb_le, N.ltb_lt. lia.
Qed.

Lemma is_term_char_ascii c : is_term_char c = true -> is_ascii c = true.
Proof.
  unfold is_term_char. rewrite !orb_true_iff, !N.eqb_eq.
  intros H. decompose [or] H; subst; try done. by apply is_alnum_ascii.
Qed.

Section Facts.
Context {RT : PyRuntime}.

Lemma lower_ascii_length s : forallb is_ascii s = true -> length (lower s) = length s.
Proof. intros H. unfold lower. rewrite H. apply length_map. Qed.

Lemma plain_term_ascii s : is_plain_english_term s = true -> forallb is_ascii s = true.
Proof.
  destruct s as [|c r]; [done|]. simpl.
  intros [[Hc Hr]%andb_true_iff _]%andb_true_iff.
  rewrite (is_alnum_ascii _ Hc). simpl.
  apply forallb_forall. intros x Hx. apply is_term_char_ascii.
  by apply (proj1 (forallb_forall _ _) Hr).
Qed.

Lemma plain_term_length s : is_plain_english_term s = true -> (length s <= 128)%nat.
Proof.
  destruct s as [|c r]; [done|]. simpl.
  intros [_ H]%andb_true_iff. apply Nat.leb_le in H. lia.
Qed.

(** The key under which a plain English term is stored is no longer than
    the term. *)
Lemma plain_term_key_length s :
  is_plain_english_term s = true -> (length (normalize_key s) <= 128)%nat.
Proof.
  intros H. unfold normalize_key.
  rewrite lower_ascii_length by (apply normalize_spaces_ascii; by apply plain_term_ascii).
  etrans; [apply normalize_spaces_length|]. by apply plain_term_length.
Qed.

End Facts.
(** ** The bounds of the translator and of the dictionary keys *)

Section Bounds.
Context {RT : PyRuntime}.

Lemma range_down_nil hi lo : range_down hi lo = [] <-> (hi < lo)%Z.
Proof.
  unfold range_down.
  destruct (Z.to_nat (hi - lo + 1)) eqn:E; simpl; split; intros; try done; lia.
Qed.

Lemma range_down_head hi lo : (lo <= hi)%Z -> exists rest, range_down hi lo = hi :: rest.
Proof.
  intros H. unfold range_down.
  destruct (Z.to_nat (hi - lo + 1)) eqn:E; [lia|]. simpl. eexists. f_equal. lia.
Qed.

(** C9: the translator that [main] builds has
    [min_phrase_words = max(1, --min-phrase-words)] and
    [max_phrase_words = max(min_phrase_words, --max-phrase-words)], so
    [1 <= min_phrase_words <= max_phrase_words] and the range of window
    sizes from [max_phrase_words] down to [min_phrase_words] is not empty.
    The range tried at a token is cut to the tokens left: it is not empty
    exactly when at least [min_phrase_words] tokens are left. *)
Theorem main_bounds (dictionary : gmap str str) (overrides : list (str * str))
    (arg_min arg_max : Z) (n_tokens index : nat) :
  let tr := main_translator dictionary overrides arg_min arg_max in
  min_phrase_words tr = Z.max 1 arg_min
  /\ max_phrase_words tr = Z.max (min_phrase_words tr) arg_max
  /\ (1 <= min_phrase_words tr <= max_phrase_words tr)%Z
  /\ range_down (max_phrase_words tr) (min_phrase_words tr) <> []
  /\ (window_range tr n_tokens index <> []
      <-> (min_phrase_words tr <= Z.of_nat (n_tokens - index))%Z).
Proof.
  simpl. repeat split; try lia.
  - intros H%range_down_nil. lia.
  - intros H. unfold window_range in H. simpl in H.
    destruct (Z_lt_le_dec (Z.of_nat (n_tokens - index)) (Z.max 1 arg_min)) as [Hlt|]; [|done].
    exfalso. apply H. apply range_down_nil. lia.
  - intros H Hnil. unfold window_range in Hnil. simpl in Hnil.
    apply range_down_nil in Hnil. lia.
Qed.

Lemma load_dictionary_line_bounded mapping line mapping' :
  keys_bounded mapping ->
  load_dictionary_line mapping line = Return mapping' ->
  keys_bounded mapping'.
Proof.
  intros Hm. unfold load_dictionary_line.
  repeat (case_match; simplify_eq/=; try done); intros; simplify_eq/=; try done.
  all: try (destruct (in_target_langs _); simplify_eq/=; repeat case_match; simplify_eq/=; try done).
  intros k v. rewrite lookup_insert_Some. intros [[<- <-]|[_ ?]]; [|by eapply Hm].
  apply plain_term_key_length. by apply negb_false_iff.
Qed.

Lemma load_dictionary_from_bounded file_lines : forall mapping mapping',
  keys_bounded mapping ->
  load_dictionary_from mapping file_lines = Return mapping' ->
  keys_bounded mapping'.
Proof.
  induction file_lines as [|line rest IH]; intros m m' Hm; simpl.
  - by intros [= <-].
  - destruct (load_dictionary_line m line) as [m1|] eqn:E; [|done]. simpl.
    eapply IH, load_dictionary_line_bounded; eauto.
Qed.

(** C10: a source phrase longer than 128 characters is not a plain English
    term, so [load_dictionary] skips its record, and every key of the
    dictionary it returns has at most 128 characters. *)
Theorem dictionary_keys_at_most_128 (file_lines : list str) (mapping : gmap str str)
    (key target : str) :
  load_dictionary file_lines = Return mapping ->
  mapping !! key = Some target ->
  (length key <= 128)%nat
  /\ (forall source, (128 < length source)%nat -> is_plain_english_term source = false).
Proof.
  intros Hload Hkey. split.
  - revert key target Hkey. change (keys_bounded mapping).
    eapply load_dictionary_from_bounded; [|exact Hload]. intros k v. by rewrite lookup_empty.
  - intros source Hlen. destruct (is_plain_english_term source) eqn:E; [|done].
    apply plain_term_length in E. lia.
Qed.

End Bounds.

Section BoundsExamples.
Existing Instance example_runtime.

(** With the default bounds 2 and 8, no window is tried at the only token
    of a text of one word. *)
Lemma no_window_at_single_token :
  window_range (main_translator ∅ [] 2 8) (length (tokens (u "hello"))) 0 = [].
Proof. vm_compute. reflexivity. Qed.

Lemma dictionary_keys_witness :
  (length (u "machine learning") <= 128)%nat.
Proof.
  refine (proj1 (dictionary_keys_at_most_128
    [q "{'lang_src':'en','lang_tgt':'zh','term_src':'Machine  Learning','term_tgt':'机器学习'}"]
    {[ u "machine learning" := u "机器学习" ]}
    (u "machine learning") (u "机器学习") _ _)); vm_compute; reflexivity.
Defined.

End BoundsExamples.

(** ** The windows of the dictionary pass *)

Section Windows.
Context {RT : PyRuntime}.

Lemma range_down_lookup hi lo (k : nat) w :
  range_down hi lo !! k = Some w <-> (w = hi - Z.of_nat k /\ lo <= w)%Z.
Proof.
  unfold range_down. rewrite list_lookup_fmap.
  destruct (seq 0 (Z.to_nat (hi - lo + 1)) !! k) as [j|] eqn:E; simpl.
  - apply lookup_seq in E as [-> Hk]. simpl. split; [intros [= <-]; lia|]. intros [-> _]. done.
  - split; [done|]. intros [-> ?]. apply lookup_ge_None in E. rewrite length_seq in E. lia.
Qed.

Lemma range_down_elem hi lo w : w ∈ range_down hi lo <-> (lo <= w <= hi)%Z.
Proof.
  rewrite list_elem_of_lookup. split.
  - intros [k Hk]. apply range_down_lookup in Hk. lia.
  - intros H. exists (Z.to_nat (hi - w)). apply range_down_lookup. lia.
Qed.

Lemma range_down_split hi lo pre w post :
  range_down hi lo = pre ++ w :: post ->
  (lo <= w <= hi)%Z /\ forall w', (w < w' <= hi)%Z -> w' ∈ pre.
Proof.
  intros E.
  assert (Hw : range_down hi lo !! length pre = Some w).
  { rewrite E. by rewrite list_lookup_middle. }
  apply range_down_lookup in Hw as [Hw Hlo]. split; [lia|].
  intros w' Hw'. apply list_elem_of_lookup. exists (Z.to_nat (hi - w')).
  assert (Hk : (Z.to_nat (hi - w') < length pre)%nat) by lia.
  assert (H' : range_down hi lo !! Z.to_nat (hi - w') = Some w').
  { apply range_down_lookup. lia. }
  rewrite E, lookup_app_l in H' by done. done.
Qed.

Lemma find_best_match_spec tr text toks index ws :
  Forall (fun w => 0 < w)%Z ws ->
  match find_best_match tr text toks index ws with
  | Match start end_ replacement next_index =>
      exists pre w post,
        ws = pre ++ w :: post
        /\ Forall (fun w' => window_hit tr text toks index (Z.to_nat w') = None) pre
        /\ window_hit tr text toks index (Z.to_nat w) = Some replacement
        /\ start = (token_at toks index).1
        /\ end_ = (token_at toks (index + Z.to_nat w - 1)).2
        /\ next_index = (index + Z.to_nat w)%nat
  | NoMatch => Forall (fun w => window_hit tr text toks index (Z.to_nat w) = None) ws
  | Stuck => False
  end.
Proof.
  induction 1 as [|w ws Hw Hws IH]; simpl; [done|].
  destruct (Z.leb_spec w 0) as [?|_]; [lia|].
  unfold window_hit at 1 3.
  destruct (_tokens_are_space_separated text toks index (index + Z.to_nat w - 1)) eqn:Hsep.
  - destruct (lookup_phrase tr _) as [r|] eqn:Hl.
    + exists [], w, ws. rewrite Hsep, Hl. repeat split; try done. lia.
    + destruct (find_best_match tr text toks index ws) as [|s e r n|]; [| |done].
      * constructor; [|done]. unfold window_hit. by rewrite Hsep.
      * destruct IH as (pre & w0 & post & -> & Hpre & Hhit & -> & -> & ->).
        exists (w :: pre), w0, post. repeat split; try done.
        constructor; [|done]. unfold window_hit. by rewrite Hsep.
  - destruct (find_best_match tr text toks index ws) as [|s e r n|]; [| |done].
    + constructor; [|done]. unfold window_hit. by rewrite Hsep.
    + destruct IH as (pre & w0 & post & -> & Hpre & Hhit & -> & -> & ->).
      exists (w :: pre), w0, post. repeat split; try done.
      constructor; [|done]. unfold window_hit. by rewrite Hsep.
Qed.

Lemma find_best_match_longest tr text index :
  (1 <= min_phrase_words tr)%Z ->
  let toks := tokens text in
  let hi := Z.min (max_phrase_words tr) (Z.of_nat (length toks - index)) in
  match find_best_match tr text toks index (window_range tr (length toks) index) with
  | Match start end_ replacement next_index =>
      exists w : nat,
        (min_phrase_words tr <= Z.of_nat w <= hi)%Z
        /\ window_hit tr text toks index w = Some replacement
        /\ (forall w' : nat, (w < w')%nat -> (Z.of_nat w' <= hi)%Z ->
              window_hit tr text toks index w' = None)
        /\ start = (token_at toks index).1
        /\ end_ = (token_at toks (index + w - 1)).2
        /\ next_index = (index + w)%nat
  | NoMatch =>
      forall w : nat, (min_phrase_words tr <= Z.of_nat w <= hi)%Z ->
        window_hit tr text toks index w = None
  | Stuck => False
  end.
Proof.
  intros Hmin toks hi.
  pose proof (find_best_match_spec tr text toks index (window_range tr (length toks) index)) as H.
  assert (Hpos : Forall (fun w => 0 < w)%Z (window_range tr (length toks) index)).
  { apply Forall_forall. intros w Hw. apply range_down_elem in Hw. lia. }
  specialize (H Hpos).
  destruct (find_best_match _ _ _ _ _) as [|s e r n|]; [| |done].
  - intros w Hw. rewrite Forall_forall in H.
    rewrite <- (Nat2Z.id w). apply H. apply range_down_elem. fold hi. lia.
  - destruct H as (pre & w & post & E & Hpre & Hhit & -> & -> & ->).
    apply range_down_split in E as [Hw Hall]. fold hi in Hw, Hall.
    exists (Z.to_nat w). repeat split; try done; try lia.
    intros w' Hlt Hle. rewrite Forall_forall in Hpre.
    rewrite <- (Nat2Z.id w'). apply Hpre, Hall. lia.
Qed.

(** The loop of the pass: after a hit the text before the phrase is kept, the
    phrase is replaced, and the loop goes on behind the window; without a
    hit it goes on at the next token. *)
Lemma dictionary_loop_step tr text toks fuel index cursor :
  (index < length toks)%nat ->
  dictionary_loop tr text toks (S fuel) index cursor
  = match find_best_match tr text toks index (window_range tr (length toks) index) with
    | NoMatch => dictionary_loop tr text toks fuel (S index) cursor
    | Match start end_ replacement next_index =>
        rest ← dictionary_loop tr text toks fuel next_index end_;
        Return (slice cursor start text ++ replacement ++ rest)
    | Stuck => Raise NoReturn
    end.
Proof.
  intros Hi. cbn [dictionary_loop].
  by destruct (Nat.ltb_spec index (length toks)); [|lia].
Qed.

Lemma machine_learning_model (X Y Z : str) :
  X <> [] -> Z <> [] ->
  _apply_dictionary (new_translator {[ u "machine learning" := X; u "machine" := Y ]} [] 1 8)
    (u "machine learning model") = Return (X ++ u " model")
  /\ _apply_dictionary
       (new_translator {[ u "machine learning" := X; u "machine" := Y; u "model" := Z ]} [] 1 8)
       (u "machine learning model") = Return (X ++ u " " ++ Z).
Proof.
  intros HX HZ. destruct X as [|c X]; [done|]. destruct Z as [|d Z]; [done|].
  split; [vm_compute; reflexivity|].
  transitivity (Return ((c :: X) ++ u " " ++ (d :: Z) ++ [])).
  - vm_compute. reflexivity.
  - by rewrite app_nil_r.
Qed.

(** C4: the dictionary pass is greedy longest-match.  At a token [index] of
    a translator with [1 <= min_phrase_words], the window that wins is the
    largest one, from [min(max_phrase_words, tokens left)] down to
    [min_phrase_words], whose tokens are separated by white space and whose
    normalized phrase the dictionary maps to a non-empty string; it is
    replaced from the start of its first token to the end of its last one,
    the text before it is kept and the loop goes on behind it.  With entries
    for [machine learning] and [machine] and [min_phrase_words = 1], the
    text [machine learning model] becomes the translation of
    [machine learning] followed by [ model]; with an entry for [model] too,
    that word is replaced on its own. *)
Theorem greedy_longest_match (tr : ControlledTranslator) (text : str) (index : nat)
    (X Y Z : str) :
  (1 <= min_phrase_words tr)%Z -> X <> [] -> Z <> [] ->
  let toks := tokens text in
  let hi := Z.min (max_phrase_words tr) (Z.of_nat (length toks - index)) in
  match find_best_match tr text toks index (window_range tr (length toks) index) with
  | Match start end_ replacement next_index =>
      (exists w : nat,
        (min_phrase_words tr <= Z.of_nat w <= hi)%Z
        /\ window_hit tr text toks index w = Some replacement
        /\ (forall w' : nat, (w < w')%nat -> (Z.of_nat w' <= hi)%Z ->
              window_hit tr text toks index w' = None)
        /\ start = (token_at toks index).1
        /\ end_ = (token_at toks (index + w - 1)).2
        /\ next_index = (index + w)%nat)
      /\ (forall fuel cursor, (index < length toks)%nat ->
            dictionary_loop tr text toks (S fuel) index cursor
            = (rest ← dictionary_loop tr text toks fuel next_index end_;
               Return (slice cursor start text ++ replacement ++ rest)))
  | NoMatch =>
      (forall w : nat, (min_phrase_words tr <= Z.of_nat w <= hi)%Z ->
         window_hit tr text toks index w = None)
      /\ (forall fuel cursor, (index < length toks)%nat ->
            dictionary_loop tr text toks (S fuel) index cursor
            = dictionary_loop tr text toks fuel (S index) cursor)
  | Stuck => False
  end
  /\ _apply_dictionary (new_translator {[ u "machine learning" := X; u "machine" := Y ]} [] 1 8)
       (u "machine learning model") = Return (X ++ u " model")
  /\ _apply_dictionary
       (new_translator {[ u "machine learning" := X; u "machine" := Y; u "model" := Z ]} [] 1 8)
       (u "machine learning model") = Return (X ++ u " " ++ Z).
Proof.
  intros Hmin HX HZ toks hi. split; [|by apply machine_learning_model].
  pose proof (find_best_match_longest tr text index Hmin) as Hbest.
  pose proof (fun fuel cursor => dictionary_loop_step tr text toks fuel index cursor) as Hstep.
  cbv beta in Hstep.
  fold toks in Hbest. cbv zeta in Hbest.
  destruct (find_best_match tr text toks index _) as [|s e r n|]; [| |done].
  - split; [exact Hbest|]. intros fuel cursor Hi. by apply Hstep.
  - split; [exact Hbest|]. intros fuel cursor Hi. by apply Hstep.
Qed.

End Windows.

Section WindowExamples.
Existing Instance example_runtime.

Lemma greedy_longest_match_witness :
  _apply_dictionary
    (new_translator {[ u "machine learning" := u "机器学习"; u "machine" := u "机器" ]} [] 1 8)
    (u "machine learning model")
  = Return (u "机器学习 model").
Proof.
  refine (proj1 (proj2 (greedy_longest_match
           (new_translator {[ u "machine learning" := u "机器学习"; u "machine" := u "机器" ]} [] 1 8)
           (u "machine learning model") 0 (u "机器学习") (u "机器") (u "模型") _ _ _)));
    by vm_compute.
Defined.

(** A window whose normalized phrase is in the dictionary does not win when
    its tokens are separated by more than white space: in
    [machine, learning model] the two tokens [machine] and [learning] give
    the phrase [machine learning], and only [machine] is replaced. *)
Lemma window_in_dictionary_skipped :
  let tr :=
    new_translator {[ u "machine learning" := u "机器学习"; u "machine" := u "机器" ]} [] 1 8 in
  let text := u "machine, learning model" in
  lookup_phrase tr (normalize_key (window_phrase text (tokens text) 0 2)) = Some (u "机器学习")
  /\ _apply_dictionary tr text = Return (u "机器, learning model").
Proof. vm_compute. split; reflexivity. Qed.

End WindowExamples.

(** ** Occurrences of a substring *)

Lemma starts_with_app p r : starts_with p (p ++ r) = true.
Proof. induction p as [|a p IH]; simpl; [done|]. by rewrite N.eqb_refl. Qed.

Lemma starts_with_prefix p s : starts_with p s = true <-> exists r, s = p ++ r.
Proof.
  split.
  - revert s. induction p as [|a p IH]; intros s; simpl; [by exists s|].
    destruct s as [|b s]; [done|]. intros [->%N.eqb_eq H]%andb_true_iff.
    destruct (IH _ H) as [r ->]. by exists r.
  - intros [r ->]. apply starts_with_app.
Qed.

(** A pattern found at the start of [a ++ h :: r] lies within [a], or has
    [h] at offset [length a]. *)
Lemma starts_with_app_cases p a h r :
  starts_with p (a ++ h :: r) = true ->
  starts_with p a = true \/ p !! length a = Some h.
Proof.
  revert p. induction a as [|c a IH]; intros p; simpl.
  - destruct p as [|x p]; [by left|]. simpl. intros [->%N.eqb_eq _]%andb_true_iff. by right.
  - destruct p as [|x p]; [by left|]. simpl. intros [-> %N.eqb_eq H]%andb_true_iff.
    rewrite N.eqb_refl. simpl. by apply IH.
Qed.

Lemma contains_cons p c s :
  contains p (c :: s) = starts_with p (c :: s) || contains p s.
Proof. done. Qed.

Lemma contains_app_l p a b : contains p (a ++ b) = false -> contains p a = false.
Proof.
  induction a as [|c a IH].
  - simpl. destruct p; [by destruct b|]. done.
  - rewrite <- app_comm_cons, !contains_cons. intros [H1 H2]%orb_false_iff.
    rewrite (IH H2), orb_false_r.
    destruct (starts_with p (c :: a)) eqn:E; [|done].
    apply starts_with_prefix in E as [r Hr].
    rewrite <- H1. symmetry. apply starts_with_prefix. exists (r ++ b).
    by rewrite app_comm_cons, Hr, <- app_assoc.
Qed.

Lemma contains_app_r p a b : contains p (a ++ b) = false -> contains p b = false.
Proof.
  induction a as [|c a IH]; [done|].
  rewrite <- app_comm_cons, contains_cons. intros [_ H]%orb_false_iff. auto.
Qed.

(** A pattern whose first character occurs nowhere else in it cannot
    straddle a position that holds that character. *)
Lemma contains_app_head h t a r :
  h ∉ t ->
  contains (h :: t) a = false ->
  contains (h :: t) (h :: r) = false ->
  contains (h :: t) (a ++ h :: r) = false.
Proof.
  intros Hh. induction a as [|c a IH]; intros Ha Hr; [done|].
  rewrite contains_cons in Ha. apply orb_false_iff in Ha as [Ha1 Ha2].
  rewrite <- app_comm_cons, contains_cons, (IH Ha2 Hr), orb_false_r.
  destruct (starts_with (h :: t) (c :: a ++ h :: r)) eqn:E; [|done].
  apply (starts_with_app_cases _ (c :: a)) in E as [E|E]; [congruence|].
  simpl in E. exfalso. apply Hh. by eapply list_elem_of_lookup_2.
Qed.

Lemma contains_skip h t a b :
  Forall (fun c => c <> h) a -> contains (h :: t) (a ++ b) = contains (h :: t) b.
Proof.
  induction 1 as [|c a Hc Ha IH]; [done|].
  rewrite <- app_comm_cons, contains_cons, IH. simpl.
  apply N.eqb_neq in Hc. rewrite N.eqb_sym in Hc. by rewrite Hc.
Qed.

(** ** [str.replace] *)

Lemma replace_from_skip old new k a b :
  length a = k -> replace_from old new k (a ++ b) = replace_from old new 0 b.
Proof.
  revert k. induction a as [|c a IH]; intros k <-; [done|]. simpl. by apply IH.
Qed.

Lemma replace_absent old new s : contains old s = false -> replace old new s = s.
Proof.
  unfold replace. induction s as [|c s IH]; [done|].
  rewrite contains_cons. intros [H1 H2]%orb_false_iff.
  cbn [replace_from]. rewrite H1. f_equal. auto.
Qed.

(** Replacing the one occurrence of [h :: t]. *)
Lemma replace_unique h t new a b :
  h ∉ t ->
  contains (h :: t) a = false ->
  contains (h :: t) b = false ->
  replace (h :: t) new (a ++ h :: t ++ b) = a ++ new ++ b.
Proof.
  intros Hh Ha Hb. unfold replace. induction a as [|c a IH].
  - pose proof (starts_with_app (h :: t) b) as E.
    rewrite !app_nil_l. rewrite <- app_comm_cons in E.
    cbn [replace_from]. rewrite E. f_equal.
    rewrite replace_from_skip by (simpl; lia). by apply replace_absent.
  - rewrite contains_cons in Ha. apply orb_false_iff in Ha as [Ha1 Ha2].
    rewrite <- !app_comm_cons. cbn [replace_from].
    destruct (starts_with (h :: t) (c :: a ++ h :: t ++ b)) eqn:E.
    + apply (starts_with_app_cases _ (c :: a)) in E as [E|E]; [congruence|].
      simpl in E. exfalso. apply Hh. by eapply list_elem_of_lookup_2.
    + f_equal. by apply IH.
Qed.

(** ** Masks *)

Lemma digits_of_uint_digits d : Forall (fun c => 48 <= c <= 57) (digits_of_uint d).
Proof. induction d; simpl; constructor; try done; lia. Qed.

Lemma digits_of_uint_inj d1 d2 : digits_of_uint d1 = digits_of_uint d2 -> d1 = d2.
Proof.
  revert d2. induction d1; intros d2; destruct d2; simpl; intros H; try done;
    injection H as H; f_equal; auto.
Qed.

Lemma decimal_inj i j : decimal i = decimal j -> i = j.
Proof.
  intros H%digits_of_uint_inj.
  rewrite <- (Unsigned.of_to i), <- (Unsigned.of_to j). by rewrite H.
Qed.

Lemma decimal_digits i : Forall (fun c => 48 <= c <= 57) (decimal i).
Proof. apply digits_of_uint_digits. Qed.

Lemma starts_with_terminated (P : N -> Prop) a b x r :
  Forall P a -> Forall P b -> ~ P x ->
  starts_with (a ++ [x]) (b ++ x :: r) = true -> a = b.
Proof.
  intros Ha. revert b. induction Ha as [|c a Hc Ha IH]; intros b Hb Hx.
  - destruct Hb as [|d b Hd Hb]; [done|]. simpl.
    intros [->%N.eqb_eq _]%andb_true_iff. done.
  - destruct Hb as [|d b Hd Hb]; simpl.
    + intros [->%N.eqb_eq _]%andb_true_iff. done.
    + intros [->%N.eqb_eq H]%andb_true_iff. f_equal. by apply IH.
Qed.

Lemma placeholder_unfold i : placeholder i = PH_OPEN :: mask_tail i.
Proof. done. Qed.

Lemma placeholder_head i : PH_OPEN ∉ mask_tail i.
Proof.
  unfold mask_tail. rewrite not_elem_of_cons, not_elem_of_app. split; [done|]. split.
  - intros H. pose proof (decimal_digits i) as Hd. rewrite Forall_forall in Hd.
    specialize (Hd _ H). unfold PH_OPEN in *. lia.
  - intros H%list_elem_of_singleton. discriminate H.
Qed.

Lemma placeholder_at_placeholder i j r :
  starts_with (placeholder i) (placeholder j ++ r) = true -> i = j.
Proof.
  unfold placeholder. simpl. rewrite <- app_assoc. simpl.
  intros H. apply decimal_inj.
  eapply (starts_with_terminated (fun c => 48 <= c <= 57)); [apply decimal_digits.. | | exact H].
  unfold PH_CLOSE in *. lia.
Qed.

(** Masking [matched] by the mask [lo], in a text that holds no mask from
    [lo] to [hi], can be undone, and leaves a text that holds no mask from
    [lo + 1] to [hi]. *)
Lemma masks_absent_step lo hi a matched b :
  masks_absent lo hi (a ++ matched ++ b) ->
  masks_absent (S lo) hi (a ++ placeholder lo ++ b).
Proof.
  intros H j Hj.
  assert (Hj' : contains (placeholder j) (a ++ matched ++ b) = false) by (apply H; lia).
  pose proof (contains_app_l _ _ _ Hj') as Ha.
  pose proof (contains_app_r _ _ _ (contains_app_r _ _ _ Hj')) as Hb.
  assert (Hne : forall r, starts_with (placeholder j) (placeholder lo ++ r) = false).
  { intros r. destruct (starts_with _ _) eqn:E; [|done].
    apply placeholder_at_placeholder in E. lia. }
  specialize (Hne b).
  rewrite !placeholder_unfold in *. rewrite <- app_comm_cons in *.
  apply contains_app_head; [apply placeholder_head|done|].
  rewrite contains_cons, Hne. simpl orb.
  rewrite contains_skip; [done|].
  pose proof (placeholder_head lo) as Hh. apply Forall_forall. intros c Hc ->.
  apply Hh. unfold mask_tail. rewrite elem_of_cons. auto.
Qed.

Lemma unmask_step lo hi a matched b :
  (lo < hi)%nat ->
  masks_absent lo hi (a ++ matched ++ b) ->
  replace (placeholder lo) matched (a ++ placeholder lo ++ b) = a ++ matched ++ b.
Proof.
  intros Hlt H.
  assert (Hj : contains (placeholder lo) (a ++ matched ++ b) = false) by (apply H; lia).
  pose proof (contains_app_l _ _ _ Hj) as Ha.
  pose proof (contains_app_r _ _ _ (contains_app_r _ _ _ Hj)) as Hb.
  rewrite !placeholder_unfold in *. rewrite <- app_comm_cons.
  apply replace_unique; [apply placeholder_head|done|done].
Qed.

Section Protect.
Context {RT : PyRuntime}.

Lemma restore_from_S i out protected :
  restore_from (S i) out protected
  = restore_from i (replace (placeholder i) (nth i protected []) out) protected.
Proof. done. Qed.

Lemma re_sub_from_replacer m prev protected c s :
  re_sub_from m replacer prev 0 protected (c :: s)
  = match m prev (c :: s) with
    | Some O =>
        let '(st2, out) := re_sub_from m replacer (Some c) 0 (protected ++ [[]]) s in
        (st2, placeholder (length protected) ++ c :: out)
    | Some (S k) =>
        let '(st2, out) :=
          re_sub_from m replacer (Some c) k (protected ++ [take (S k) (c :: s)]) s in
        (st2, placeholder (length protected) ++ out)
    | None =>
        let '(st2, out) := re_sub_from m replacer (Some c) 0 protected s in
        (st2, c :: out)
    end.
Proof. done. Qed.

(** One [pattern.sub(replacer, out)] pass can be undone by the restore
    loop, whatever the pattern matches. *)
Lemma sub_pass_restore (m : matcher) (hi : nat) (final : list str) (s : str) :
  forall prev skip protected a protected' out,
    re_sub_from m replacer prev skip protected s = (protected', out) ->
    masks_absent (length protected) hi (a ++ drop skip s) ->
    protected' `prefix_of` final ->
    (length protected' <= hi)%nat ->
    (exists new, protected' = protected ++ new)
    /\ restore_from (length protected') (a ++ out) final
       = restore_from (length protected) (a ++ drop skip s) final
    /\ masks_absent (length protected') hi (a ++ out).
Proof.
  induction s as [|c s IH]; intros prev skip protected a protected' out Hsub Habs Hpre Hlen.
  - (* end of the subject *)
    simpl in Hsub. unfold replacer in Hsub. rewrite drop_nil in Habs |- *.
    destruct skip as [|k]; [destruct (m prev []) as [len|]|]; simplify_eq;
      try (split; [by exists []; rewrite app_nil_r|done]).
    rewrite length_app, Nat.add_1_r in *. cbn [length] in *.
    split; [by eexists|]. rewrite restore_from_S.
    assert (Hnth : nth (length protected) final [] = []).
    { destruct Hpre as [rest ->]. rewrite <- app_assoc. apply nth_middle. }
    rewrite Hnth.
    pose proof (unmask_step (length protected) hi a [] []) as Hu.
    pose proof (masks_absent_step (length protected) hi a [] []) as Hs.
    rewrite !app_nil_r in *. rewrite Hu by (done || lia). split; [done|]. by apply Hs.
  - destruct skip as [|k]; [|cbn [re_sub_from] in Hsub].
    + rewrite re_sub_from_replacer in Hsub. rewrite drop_0 in Habs |- *.
      destruct (m prev (c :: s)) as [[|k]|] eqn:Hm.
      * (* an empty match before [c] *)
        destruct (re_sub_from m replacer (Some c) 0 (protected ++ [[]]) s)
          as [st2 out'] eqn:Hrec. simplify_eq.
        pose proof (masks_absent_step (length protected) hi a [] (c :: s) Habs) as Hs.
        specialize (IH (Some c) O (protected ++ [[]]) (a ++ placeholder (length protected) ++ [c])
                      protected' out' Hrec).
        rewrite length_app, Nat.add_1_r, drop_0 in IH. cbn [length] in IH.
        rewrite <- !app_assoc in IH. cbn [app] in IH.
        destruct (IH Hs Hpre Hlen) as ([new ->] & Hres & Hinv).
        split; [exists ([] :: new); by rewrite <- app_assoc|].
        split; [|done].
        rewrite Hres, restore_from_S.
        assert (Hnth : nth (length protected) final [] = []).
        { destruct Hpre as [rest ->]. rewrite <- !app_assoc. apply nth_middle. }
        rewrite Hnth. rewrite !length_app in Hlen. cbn [length] in Hlen.
        by rewrite (unmask_step (length protected) hi a [] (c :: s)) by (done || lia).
      * (* a match of [S k] characters *)
        destruct (re_sub_from m replacer (Some c) k (protected ++ [take (S k) (c :: s)]) s)
          as [st2 out'] eqn:Hrec. simplify_eq.
        assert (Habs' : masks_absent (length protected) hi
                          (a ++ take (S k) (c :: s) ++ drop (S k) (c :: s))).
        { by rewrite take_drop. }
        pose proof (masks_absent_step (length protected) hi a _ _ Habs') as Hs.
        specialize (IH (Some c) k (protected ++ [take (S k) (c :: s)])
                      (a ++ placeholder (length protected)) protected' out' Hrec).
        rewrite length_app, Nat.add_1_r in IH. cbn [length] in IH.
        rewrite <- !app_assoc in IH.
        destruct (IH Hs Hpre Hlen) as ([new ->] & Hres & Hinv).
        split; [exists (take (S k) (c :: s) :: new); by rewrite <- app_assoc|].
        split; [|done].
        rewrite Hres, restore_from_S.
        assert (Hnth : nth (length protected) final [] = take (S k) (c :: s)).
        { destruct Hpre as [rest ->]. rewrite <- !app_assoc. apply nth_middle. }
        rewrite Hnth. rewrite !length_app in Hlen. cbn [length] in Hlen.
        change (drop k s) with (drop (S k) (c :: s)).
        rewrite (unmask_step (length protected) hi a _ _) by (done || lia).
        by rewrite take_drop.
      * (* no match at [c] *)
        destruct (re_sub_from m replacer (Some c) 0 protected s) as [st2 out'] eqn:Hrec.
        simplify_eq.
        specialize (IH (Some c) O protected (a ++ [c]) protected' out' Hrec).
        rewrite drop_0, <- !app_assoc in IH. cbn [app] in IH. by apply IH.
    + (* inside a match *)
      change (drop (S k) (c :: s)) with (drop k s) in *. by eapply IH.
Qed.

Lemma re_sub_from_extends (m : matcher) (s : str) :
  forall prev skip protected protected' out,
    re_sub_from m replacer prev skip protected s = (protected', out) ->
    exists new, protected' = protected ++ new.
Proof.
  induction s as [|c s IH]; intros prev skip protected protected' out Hsub.
  - simpl in Hsub. unfold replacer in Hsub.
    destruct skip; [destruct (m prev [])|]; simplify_eq; eauto;
      exists []; by rewrite app_nil_r.
  - destruct skip as [|k]; [|by eapply IH].
    rewrite re_sub_from_replacer in Hsub.
    destruct (m prev (c :: s)) as [[|k]|];
      destruct (re_sub_from _ _ _ _ _ s) as [st2 out'] eqn:Hrec; simplify_eq;
      destruct (IH _ _ _ _ _ Hrec) as [new ->]; rewrite <- ?app_assoc; eauto.
Qed.

(** The loop of [_protect] over any list of patterns. *)
Lemma protect_fold_extends (patterns : list matcher) :
  forall text protected out protected',
    foldl protect_step (text, protected) patterns = (out, protected') ->
    exists new, protected' = protected ++ new.
Proof.
  induction patterns as [|m ps IH]; intros text protected out protected' Hfold.
  - simplify_eq/=. exists []. by rewrite app_nil_r.
  - cbn [foldl] in Hfold. unfold protect_step at 2 in Hfold. cbn [fst snd] in Hfold.
    destruct (re_sub m replacer protected text) as [protected1 out1] eqn:Hsub.
    apply re_sub_from_extends in Hsub as [new1 ->].
    apply IH in Hfold as [new ->]. exists (new1 ++ new). by rewrite app_assoc.
Qed.

Lemma protect_fold_restore (hi : nat) (final : list str) (patterns : list matcher) :
  forall text protected out protected',
    foldl protect_step (text, protected) patterns = (out, protected') ->
    masks_absent (length protected) hi text ->
    protected' `prefix_of` final ->
    (length protected' <= hi)%nat ->
    restore_from (length protected') out final = restore_from (length protected) text final
    /\ masks_absent (length protected') hi out.
Proof.
  induction patterns as [|m ps IH]; intros text protected out protected' Hfold Habs Hpre Hlen.
  - by simplify_eq/=.
  - cbn [foldl] in Hfold. unfold protect_step at 2 in Hfold. cbn [fst snd] in Hfold.
    destruct (re_sub m replacer protected text) as [protected1 out1] eqn:Hsub.
    destruct (protect_fold_extends _ _ _ _ _ Hfold) as [new Hnew].
    assert (Hpre1 : protected1 `prefix_of` final).
    { etrans; [|exact Hpre]. rewrite Hnew. by apply prefix_app_r. }
    assert (Hlen1 : (length protected1 <= hi)%nat).
    { rewrite Hnew, length_app in Hlen. lia. }
    destruct (sub_pass_restore m hi final text None O protected [] protected1 out1 Hsub)
      as (_ & Hres1 & Habs1); [by rewrite drop_0|done|done|].
    rewrite drop_0 in Hres1. cbn [app] in Hres1, Habs1.
    destruct (IH _ _ _ _ Hfold Habs1 Hpre Hlen) as [Hres Habs']. split; [|done].
    by rewrite Hres.
Qed.

Lemma protect_fold text : _protect text = foldl protect_step (text, []) PROTECT_PATTERNS.
Proof. done. Qed.

(** C1: restoring the masked text of [x] with the spans that [_protect]
    took out of it gives [x] back, for every text [x] that holds none of
    the masks [_protect] hands out for it, the masks numbered below the
    number of spans. *)
Theorem restore_protect_identity (x : str) :
  (forall index, (index < length (_protect x).2)%nat ->
     contains (placeholder index) x = false) ->
  _restore (_protect x).1 (_protect x).2 = x.
Proof.
  intros Hx. destruct (_protect x) as [out protected] eqn:Hp. cbn [fst snd] in *.
  rewrite protect_fold in Hp. unfold _restore.
  destruct (protect_fold_restore (length protected) protected _ _ _ _ _ Hp) as [Hres _];
    [|done|done|done].
  intros j [_ Hj]. by apply Hx.
Qed.

End Protect.

Section ProtectExamples.
Existing Instance example_runtime.

(** A text that holds the mask of its own first span is not given back. *)
Lemma restore_protect_counterexample :
  _restore (_protect (u "⟪#0⟫ `a`")).1 (_protect (u "⟪#0⟫ `a`")).2 <> u "⟪#0⟫ `a`".
Proof. vm_compute. discriminate. Qed.

Lemma restore_protect_witness :
  let x := u "see `a b` at https://x.y/z) and ./foo/bar --flag API_KEY ```code``` " in
  _restore (_protect x).1 (_protect x).2 = x.
Proof.
  apply restore_protect_identity. intros index Hlt.
  assert (Hn : (index < 6)%nat) by exact Hlt.
  do 6 (destruct index as [|index]; [vm_compute; reflexivity|]). lia.
Defined.

End ProtectExamples.

(** ** Tokens of a text cut by a character that belongs to no token *)

Lemma span_len_le p s : (span_len p s <= length s)%nat.
Proof. induction s as [|c s IH]; simpl; [lia|]. destruct (p c); simpl; lia. Qed.

Lemma span_len_app_stop p a h r :
  p h = false -> span_len p (a ++ h :: r) = span_len p a.
Proof.
  intros Hh. induction a as [|c a IH]; simpl; [by rewrite Hh|].
  destruct (p c); [by rewrite IH|done].
Qed.

Lemma group_len_le g s : (group_len g s <= length s)%nat.
Proof.
  revert g. induction s as [|c s IH]; intros g; cbn [group_len length]; [lia|].
  specialize (IH true).
  destruct (g && is_alnum c); [lia|].
  destruct (is_token_sep c && _); lia.
Qed.

Lemma group_len_app_stop g a h r :
  is_alnum h = false -> is_token_sep h = false ->
  group_len g (a ++ h :: r) = group_len g a.
Proof.
  intros Hh1 Hh2. revert g. induction a as [|c a IH]; intros g.
  - simpl. rewrite Hh1, Hh2, andb_false_r. done.
  - rewrite <- app_comm_cons. cbn [group_len]. rewrite !IH.
    destruct a as [|d a]; [|done]. simpl. by rewrite Hh1.
Qed.

Lemma is_letter_alnum c : is_letter c = true -> is_alnum c = true.
Proof. unfold is_alnum. by intros ->. Qed.

Lemma token_len_le s n : token_len s = Some n -> (n <= length s)%nat.
Proof.
  unfold token_len. destruct s as [|c s]; [done|].
  remember (c :: s) as t eqn:Ht. clear Ht.
  destruct (is_letter c); [|done]. intros [= <-].
  pose proof (span_len_le is_letter t) as H1.
  pose proof (group_len_le false (drop (span_len is_letter t) t)) as H2.
  rewrite length_drop in H2. lia.
Qed.

Lemma token_len_app_stop a h r :
  is_alnum h = false -> is_token_sep h = false ->
  token_len (a ++ h :: r) = token_len a.
Proof.
  intros Hh1 Hh2.
  assert (Hl : is_letter h = false).
  { destruct (is_letter h) eqn:E; [|done]. apply is_letter_alnum in E. congruence. }
  destruct a as [|c a]; [simpl; by rewrite Hl|].
  unfold token_len. rewrite <- app_comm_cons.
  destruct (is_letter c) eqn:Hc; [|done].
  rewrite app_comm_cons, span_len_app_stop by done.
  rewrite drop_app_le by apply span_len_le.
  by rewrite group_len_app_stop.
Qed.

Lemma tokens_from_shift pos skip s :
  tokens_from pos skip s = shift pos (tokens_from 0 skip s).
Proof.
  revert pos skip. induction s as [|c s IH]; intros pos skip; [done|].
  cbn [tokens_from]. destruct skip as [|k].
  - destruct (token_len (c :: s)) as [[|k]|].
    + rewrite (IH (S pos)), (IH 1%nat). unfold shift. rewrite <- list_fmap_compose.
      apply list_fmap_ext. intros _ [x y] _. simpl. f_equal; lia.
    + unfold shift. rewrite fmap_cons. simpl. f_equal; [f_equal; lia|].
      rewrite (IH (S pos)), (IH 1%nat). unfold shift. rewrite <- list_fmap_compose.
      apply list_fmap_ext. intros _ [x y] _. simpl. f_equal; lia.
    + rewrite (IH (S pos)), (IH 1%nat). unfold shift. rewrite <- list_fmap_compose.
      apply list_fmap_ext. intros _ [x y] _. simpl. f_equal; lia.
  - rewrite (IH (S pos)), (IH 1%nat). unfold shift. rewrite <- list_fmap_compose.
    apply list_fmap_ext. intros _ [x y] _. simpl. f_equal; lia.
Qed.

Lemma tokens_from_app a h r :
  is_alnum h = false -> is_token_sep h = false ->
  forall pos skip, (skip <= length a)%nat ->
    tokens_from pos skip (a ++ h :: r)
    = tokens_from pos skip a ++ tokens_from (pos + length a) 0 (h :: r).
Proof.
  intros Hh1 Hh2. induction a as [|c a IH]; intros pos skip Hskip.
  - simpl in Hskip. assert (skip = O) as -> by lia.
    rewrite app_nil_l, Nat.add_0_r. done.
  - rewrite <- app_comm_cons. cbn [tokens_from length].
    replace (pos + S (length a))%nat with (S pos + length a)%nat by lia.
    destruct skip as [|k].
    + rewrite app_comm_cons, token_len_app_stop by done.
      destruct (token_len (c :: a)) as [[|k]|] eqn:Ht.
      * by rewrite IH by lia.
      * apply token_len_le in Ht. simpl in Ht. by rewrite IH by lia.
      * by rewrite IH by lia.
    + simpl in Hskip. by rewrite IH by lia.
Qed.

Lemma tokens_from_no_letter p r pos :
  Forall (fun c => is_letter c = false) p ->
  tokens_from pos 0 (p ++ r) = tokens_from (pos + length p) 0 r.
Proof.
  intros Hp. revert pos. induction Hp as [|c p Hc Hp IH]; intros pos.
  - by rewrite Nat.add_0_r.
  - rewrite <- app_comm_cons. cbn [tokens_from length]. unfold token_len. rewrite Hc.
    rewrite IH. f_equal. lia.
Qed.

Lemma tokens_from_bounds s : forall pos skip,
  Forall (fun t : nat * nat => (t.1 <= t.2 <= pos + length s)%nat) (tokens_from pos skip s).
Proof.
  induction s as [|c s IH]; intros pos skip; [constructor|].
  cbn [tokens_from]. destruct skip as [|k].
  - destruct (token_len (c :: s)) as [[|k]|] eqn:Ht.
    + eapply Forall_impl; [apply IH|]. simpl. intros; lia.
    + apply token_len_le in Ht. constructor; [simpl in *; lia|].
      eapply Forall_impl; [apply IH|]. simpl. intros; lia.
    + eapply Forall_impl; [apply IH|]. simpl. intros; lia.
  - eapply Forall_impl; [apply IH|]. simpl. intros; lia.
Qed.

Lemma tokens_barrier (a P b : str) :
  is_barrier P = true ->
  tokens (a ++ P ++ b) = tokens a ++ shift (length a + length P) (tokens b).
Proof.
  intros Hbar. destruct P as [|h r]; [done|]. unfold is_barrier in Hbar.
  apply andb_true_iff in Hbar as [[[H1 H2]%andb_true_iff Hl]%andb_true_iff _].
  apply negb_true_iff in H1, H2. unfold tokens. rewrite <- app_comm_cons.
  rewrite tokens_from_app by (try done; lia). f_equal. cbn [plus].
  rewrite app_comm_cons, tokens_from_no_letter.
  - apply tokens_from_shift.
  - apply Forall_forall. intros c Hc. rewrite forallb_forall in Hl.
    by apply negb_true_iff, Hl, list_elem_of_In.
Qed.

Lemma mask_no_letter i : Forall (fun c => is_letter c = false) (placeholder i).
Proof.
  unfold placeholder. constructor; [done|]. constructor; [done|].
  apply Forall_app. split; [|by constructor].
  eapply Forall_impl; [apply decimal_digits|]. simpl. intros c Hc.
  unfold is_letter, is_upper, is_lower, in_range.
  rewrite orb_false_iff, !andb_false_iff, !N.leb_gt. lia.
Qed.

(** ** Slices *)

Lemma slice_app_l x y (a r : str) : (y <= length a)%nat -> slice x y (a ++ r) = slice x y a.
Proof.
  intros Hy. unfold slice. destruct (le_lt_dec x (length a)) as [Hx|Hx].
  - rewrite drop_app_le by done. rewrite take_app_le; [done|]. rewrite length_drop. lia.
  - replace (y - x)%nat with O by lia. done.
Qed.

Lemma slice_shift (p b : str) x y :
  slice (length p + x) (length p + y) (p ++ b) = slice x y b.
Proof.
  unfold slice. rewrite drop_app_add'; [|done].
  f_equal. lia.
Qed.

Lemma drop_shift (p b : str) x : drop (length p + x) (p ++ b) = drop x b.
Proof. by rewrite drop_app_add'. Qed.

Lemma slice_cross x y (a : str) h r :
  (x <= length a < y)%nat ->
  slice x y (a ++ h :: r) = drop x a ++ h :: take (y - length a - 1) r.
Proof.
  intros [Hx Hy]. unfold slice. rewrite drop_app_le by done.
  rewrite take_app_ge by (rewrite length_drop; lia). f_equal.
  rewrite length_drop.
  replace (y - x - (length a - x))%nat with (S (y - length a - 1)) by lia. done.
Qed.

Lemma slice_prefix x y (a r : str) :
  (x <= length a)%nat -> (length a <= y)%nat ->
  slice x y (a ++ r) = drop x a ++ take (y - length a) r.
Proof.
  intros Hx Hy. unfold slice. rewrite drop_app_le by done.
  rewrite take_app_ge by (rewrite length_drop; lia). f_equal.
  rewrite length_drop. f_equal. lia.
Qed.

Lemma isspace_with h (x y : str) : is_space h = false -> isspace (x ++ h :: y) = false.
Proof.
  intros Hh. unfold isspace. destruct (x ++ h :: y) eqn:E; [done|]. rewrite <- E.
  rewrite forallb_app. simpl. rewrite Hh. by rewrite andb_false_r.
Qed.

Lemma isspace_barrier (x P y : str) : is_barrier P = true -> isspace (x ++ P ++ y) = false.
Proof.
  intros Hbar. destruct P as [|h r]; [done|]. unfold is_barrier in Hbar.
  apply andb_true_iff in Hbar as [_ Hs%negb_true_iff].
  unfold isspace. destruct (x ++ (h :: r) ++ y) eqn:E; [done|]. rewrite <- E.
  by rewrite !forallb_app, Hs, andb_false_r.
Qed.

Lemma forallb_ext_in {A} (f g : A -> bool) l :
  (forall x, x ∈ l -> f x = g x) -> forallb f l = forallb g l.
Proof.
  induction l as [|x l IH]; intros H; [done|]. simpl.
  rewrite (H x) by (by left). rewrite IH; [done|]. intros y Hy. apply H. by right.
Qed.

Lemma forallb_fmap {A B} (f : B -> bool) (g : A -> B) l :
  forallb f (g <$> l) = forallb (fun x => f (g x)) l.
Proof. induction l as [|x l IH]; [done|]. rewrite fmap_cons. simpl. by rewrite IH. Qed.

Lemma forallb_false_in {A} (f : A -> bool) l x : x ∈ l -> f x = false -> forallb f l = false.
Proof.
  induction 1 as [y l|y z l Hin IH]; intros Hf; simpl.
  - by rewrite Hf.
  - rewrite IH by done. apply andb_false_r.
Qed.

(** ** The windows tried at a token *)

Lemma range_down_unfold hi lo :
  range_down hi lo = if (lo <=? hi)%Z then hi :: range_down (hi - 1) lo else [].
Proof.
  unfold range_down. destruct (Z.leb_spec lo hi) as [H|H].
  - replace (Z.to_nat (hi - lo + 1)) with (S (Z.to_nat (hi - 1 - lo + 1))) by lia.
    cbn [seq fmap list_fmap]. f_equal; [lia|].
    rewrite <- fmap_S_seq, <- list_fmap_compose.
    apply list_fmap_ext. intros _ k _. simpl. lia.
  - replace (Z.to_nat (hi - lo + 1)) with O by lia. done.
Qed.

Lemma filter_range_down (h hi lo : Z) :
  filter (fun w => (w <= h)%Z) (range_down hi lo) = range_down (Z.min hi h) lo.
Proof.
  remember (Z.to_nat (hi - lo + 1)) as n eqn:Hn. revert hi Hn.
  induction n as [|n IH]; intros hi Hn.
  - rewrite (range_down_unfold hi), (range_down_unfold (Z.min hi h)).
    destruct (Z.leb_spec lo hi); [lia|]. destruct (Z.leb_spec lo (Z.min hi h)); [lia|]. done.
  - rewrite (range_down_unfold hi). destruct (Z.leb_spec lo hi); [|lia].
    rewrite filter_cons. destruct (decide (hi <= h)%Z) as [Hle|Hgt].
    + rewrite Z.min_l by done. rewrite (range_down_unfold hi).
      destruct (Z.leb_spec lo hi); [|lia]. f_equal.
      rewrite IH by lia. f_equal. lia.
    + rewrite IH by lia. f_equal. lia.
Qed.

Section Loop.
Context {RT : PyRuntime}.

Lemma find_best_match_in_range tr text toks index ws start end_ replacement next_index :
  find_best_match tr text toks index ws = Match start end_ replacement next_index ->
  exists w, w ∈ ws /\ (0 < w)%Z
    /\ start = (token_at toks index).1
    /\ end_ = (token_at toks (index + Z.to_nat w - 1)).2
    /\ next_index = (index + Z.to_nat w)%nat.
Proof.
  induction ws as [|w ws IH]; [done|]. cbn [find_best_match].
  destruct (Z.leb_spec w 0) as [Hw|Hw].
  - destruct (lookup_phrase tr (normalize_key [])); [done|].
    intros H. destruct (IH H) as (w' & ? & ?). exists w'. split; [by right|done].
  - destruct (_tokens_are_space_separated _ _ _ _);
      [destruct (lookup_phrase tr _)|].
    + intros [= <- <- <- <-]. exists w. repeat split; [by left|done|lia].
    + intros H. destruct (IH H) as (w' & ? & ?). exists w'. split; [by right|done].
    + intros H. destruct (IH H) as (w' & ? & ?). exists w'. split; [by right|done].
Qed.

(** Once [fuel] covers the tokens that remain, more fuel changes nothing. *)
Lemma dictionary_loop_fuel tr text toks fuel1 : forall fuel2 index cursor,
  (length toks - index <= fuel1)%nat -> (length toks - index <= fuel2)%nat ->
  dictionary_loop tr text toks fuel1 index cursor
  = dictionary_loop tr text toks fuel2 index cursor.
Proof.
  induction fuel1 as [|f1 IH]; intros fuel2 index cursor H1 H2.
  - destruct fuel2 as [|f2]; [done|]. cbn [dictionary_loop].
    destruct (Nat.ltb_spec index (length toks)); [lia|done].
  - destruct fuel2 as [|f2]; cbn [dictionary_loop];
      destruct (Nat.ltb_spec index (length toks)); try done; try lia.
    destruct (find_best_match _ _ _ _ _) as [|s e r n|] eqn:Hf; [|  |done].
    + apply IH; lia.
    + apply find_best_match_in_range in Hf as (w & _ & Hw & _ & _ & ->).
      rewrite (IH f2) by lia. done.
Qed.

Lemma apply_dictionary_loop tr s :
  _apply_dictionary tr s = dictionary_loop tr s (tokens s) (length (tokens s)) 0 0.
Proof. unfold _apply_dictionary. by destruct (tokens s). Qed.

End Loop.

(** ** The dictionary pass on a text that holds a mask *)

Section DictionaryFrame.
Context {RT : PyRuntime}.
Variables (tr : ControlledTranslator) (a b P : str).
Hypothesis Hbar : is_barrier P = true.

Let text := a ++ P ++ b.
Let off := (length a + length P)%nat.
Let ta := tokens a.
Let tb := tokens b.
Let toks := ta ++ shift off tb.

Lemma tokens_cut : tokens text = toks.
Proof using Hbar. by apply tokens_barrier. Qed.

Lemma ta_bounds idx :
  (idx < length ta)%nat ->
  ((token_at ta idx).1 <= (token_at ta idx).2 <= length a)%nat.
Proof.
  intros Hidx. pose proof (tokens_from_bounds a 0 0) as H. fold (tokens a) in H. fold ta in H.
  rewrite Forall_forall in H. apply H. unfold token_at.
  apply list_elem_of_In, nth_In. done.
Qed.

Lemma token_at_l idx : (idx < length ta)%nat -> token_at toks idx = token_at ta idx.
Proof. intros H. unfold token_at, toks. by rewrite app_nth1. Qed.

Lemma token_at_r j :
  (j < length tb)%nat ->
  token_at toks (length ta + j)
  = ((off + (token_at tb j).1)%nat, (off + (token_at tb j).2)%nat).
Proof.
  intros H. unfold token_at, toks, shift. rewrite !nth_lookup.
  rewrite lookup_app_r by lia.
  replace (length ta + j - length ta)%nat with j by lia.
  rewrite list_lookup_fmap.
  destruct (tb !! j) as [t|] eqn:E; [done|].
  apply lookup_ge_None in E. lia.
Qed.

Lemma length_toks : length toks = (length ta + length tb)%nat.
Proof. unfold toks, shift. by rewrite length_app, length_fmap. Qed.

Lemma text_shift x y : slice (off + x) (off + y) text = slice x y b.
Proof.
  unfold text, off. rewrite app_assoc, <- length_app. apply slice_shift.
Qed.

Lemma text_drop_shift x : drop (off + x) text = drop x b.
Proof. unfold text, off. rewrite app_assoc, <- length_app. apply drop_shift. Qed.

Lemma sep_l index end_index :
  (end_index < length ta)%nat ->
  _tokens_are_space_separated text toks index end_index
  = _tokens_are_space_separated a ta index end_index.
Proof.
  intros He. unfold _tokens_are_space_separated. apply forallb_ext_in.
  intros idx Hidx. apply elem_of_seq in Hidx.
  rewrite !token_at_l by lia. unfold text. f_equal. apply slice_app_l.
  pose proof (ta_bounds (S idx)). lia.
Qed.

Lemma phrase_l index w :
  (index + w <= length ta)%nat ->
  window_phrase text toks index w = window_phrase a ta index w.
Proof.
  intros Hw. unfold window_phrase. f_equal. apply list_fmap_ext.
  intros _ idx Hidx%list_elem_of_lookup_2%elem_of_seq.
  rewrite !token_at_l by lia. unfold text. apply slice_app_l.
  pose proof (ta_bounds idx). lia.
Qed.

Lemma text_slice_cross cursor s :
  (cursor <= length a)%nat ->
  slice cursor (off + s) text = drop cursor a ++ P ++ take s b.
Proof.
  intros Hc. unfold text. rewrite app_assoc.
  rewrite slice_prefix; [|rewrite length_app; lia|rewrite length_app; unfold off; lia].
  rewrite drop_app_le by done. rewrite length_app. fold off.
  replace (off + s - off)%nat with s by lia. by rewrite <- app_assoc.
Qed.

Lemma sep_cross index end_index :
  (index < length ta <= end_index)%nat -> (end_index < length toks)%nat ->
  _tokens_are_space_separated text toks index end_index = false.
Proof.
  intros [Hi He] Hlen. rewrite length_toks in Hlen.
  unfold _tokens_are_space_separated.
  apply (forallb_false_in _ _ (length ta - 1)%nat); [apply elem_of_seq; lia|].
  replace (S (length ta - 1)) with (length ta + 0)%nat by lia.
  rewrite token_at_l, token_at_r by lia. cbn [fst snd].
  pose proof (ta_bounds (length ta - 1)) as Hb.
  rewrite text_slice_cross by lia. by apply isspace_barrier.
Qed.

Lemma sep_r j e :
  (e < length tb)%nat ->
  _tokens_are_space_separated text toks (length ta + j) (length ta + e)
  = _tokens_are_space_separated b tb j e.
Proof.
  intros He. unfold _tokens_are_space_separated.
  replace (length ta + e - (length ta + j))%nat with (e - j)%nat by lia.
  rewrite <- fmap_add_seq, forallb_fmap. apply forallb_ext_in.
  intros idx Hidx%elem_of_seq. simpl.
  replace (S (length ta + idx)) with (length ta + S idx)%nat by lia.
  rewrite !token_at_r by lia. cbn [fst snd]. by rewrite text_shift.
Qed.

Lemma phrase_r j w :
  (j + w <= length tb)%nat ->
  window_phrase text toks (length ta + j) w = window_phrase b tb j w.
Proof.
  intros Hw. unfold window_phrase. f_equal.
  rewrite <- fmap_add_seq, <- list_fmap_compose. apply list_fmap_ext.
  intros _ idx Hidx%list_elem_of_lookup_2%elem_of_seq. simpl.
  rewrite !token_at_r by lia. cbn [fst snd]. by rewrite text_shift.
Qed.

(** At a token of [a], the windows that reach past [a] are skipped and
    the others are judged as in [a] alone. *)
Lemma find_l index ws :
  (index < length ta)%nat ->
  Forall (fun w => (w <= Z.of_nat (length toks - index))%Z) ws ->
  find_best_match tr text toks index ws
  = find_best_match tr a ta index
      (filter (fun w => (w <= Z.of_nat (length ta - index))%Z) ws).
Proof.
  intros Hi. induction 1 as [|w ws Hw Hws IH]; [done|].
  rewrite filter_cons. cbn [find_best_match].
  destruct (Z.leb_spec w 0) as [Hw0|Hw0].
  - rewrite decide_True by lia. cbn [find_best_match].
    destruct (Z.leb_spec w 0); [|lia]. by rewrite IH.
  - destruct (decide (w <= Z.of_nat (length ta - index))%Z) as [Hin|Hout].
    + cbn [find_best_match]. destruct (Z.leb_spec w 0); [lia|].
      rewrite sep_l, phrase_l, !token_at_l by lia. by rewrite IH.
    + rewrite sep_cross by lia. done.
Qed.

(** At a token of [b], the windows are judged as in [b] alone. *)
Lemma find_r j ws :
  Forall (fun w => (w <= Z.of_nat (length tb - j))%Z) ws ->
  find_best_match tr text toks (length ta + j) ws
  = offset_match off (length ta) (find_best_match tr b tb j ws).
Proof.
  induction 1 as [|w ws Hw Hws IH]; [done|]. cbn [find_best_match].
  destruct (Z.leb_spec w 0) as [Hw0|Hw0].
  - destruct (lookup_phrase tr (normalize_key [])); [done|]. apply IH.
  - replace (length ta + j + Z.to_nat w - 1)%nat with (length ta + (j + Z.to_nat w - 1))%nat by lia.
    rewrite sep_r, phrase_r, !token_at_r by lia. cbn [fst snd].
    destruct (_tokens_are_space_separated b tb j _); [|done].
    destruct (lookup_phrase tr _); [|done]. simpl. f_equal. lia.
Qed.

Lemma window_range_bound n index :
  Forall (fun w => (w <= Z.of_nat (n - index))%Z) (window_range tr n index).
Proof.
  apply Forall_forall. intros w Hw. unfold window_range in Hw.
  apply range_down_elem in Hw. lia.
Qed.

Lemma window_range_l index :
  (index < length ta)%nat ->
  filter (fun w => (w <= Z.of_nat (length ta - index))%Z)
         (window_range tr (length toks) index)
  = window_range tr (length ta) index.
Proof.
  intros Hi. unfold window_range. rewrite filter_range_down. f_equal.
  rewrite length_toks. lia.
Qed.

Lemma window_range_r j :
  window_range tr (length toks) (length ta + j) = window_range tr (length tb) j.
Proof.
  unfold window_range. rewrite length_toks. do 3 f_equal. lia.
Qed.

(** The loop among the tokens of [b], once the cursor is in [b]. *)
Lemma loop_r fuel : forall j cursor,
  dictionary_loop tr text toks fuel (length ta + j) (off + cursor)
  = dictionary_loop tr b tb fuel j cursor.
Proof.
  induction fuel as [|fuel IH]; intros j cursor; cbn [dictionary_loop].
  - by rewrite text_drop_shift.
  - rewrite length_toks.
    replace (length ta + j <? length ta + length tb)%nat with (j <? length tb)%nat
      by (destruct (Nat.ltb_spec j (length tb)), (Nat.ltb_spec (length ta + j) (length ta + length tb)); lia || done).
    destruct (Nat.ltb_spec j (length tb)); [|by rewrite text_drop_shift].
    rewrite <- length_toks, window_range_r, find_r by apply window_range_bound.
    destruct (find_best_match tr b tb j _) as [|s e r n|]; cbn [offset_match]; [| |done].
    + replace (S (length ta + j)) with (length ta + S j)%nat by lia. apply IH.
    + by rewrite IH, text_shift.
Qed.

(** The loop among the tokens of [b], while the cursor is still in [a]. *)
Lemma loop_r0 fuel : forall j cursor,
  (cursor <= length a)%nat ->
  dictionary_loop tr text toks fuel (length ta + j) cursor
  = (rb ← dictionary_loop tr b tb fuel j 0; Return (drop cursor a ++ P ++ rb)).
Proof.
  assert (Hdrop : forall cursor, (cursor <= length a)%nat ->
            drop cursor text = drop cursor a ++ P ++ b).
  { intros c Hc. unfold text. by rewrite drop_app_le. }
  induction fuel as [|fuel IH]; intros j cursor Hc; cbn [dictionary_loop].
  - by rewrite Hdrop.
  - rewrite length_toks.
    replace (length ta + j <? length ta + length tb)%nat with (j <? length tb)%nat
      by (destruct (Nat.ltb_spec j (length tb)), (Nat.ltb_spec (length ta + j) (length ta + length tb)); lia || done).
    destruct (Nat.ltb_spec j (length tb)); [|by rewrite Hdrop].
    rewrite <- length_toks, window_range_r, find_r by apply window_range_bound.
    destruct (find_best_match tr b tb j _) as [|s e r n|]; cbn [offset_match]; [| |done].
    + replace (S (length ta + j)) with (length ta + S j)%nat by lia. by apply IH.
    + rewrite loop_r, text_slice_cross by done.
      destruct (dictionary_loop tr b tb fuel n e) as [rest|]; [|done].
      rewrite !bind_return. f_equal. unfold slice. rewrite drop_0, Nat.sub_0_r.
      by rewrite <- !app_assoc.
Qed.

(** The loop among the tokens of [a]. *)
Lemma loop_l fuel : forall index cursor,
  (index <= length ta)%nat -> (cursor <= length a)%nat ->
  (length toks - index <= fuel)%nat ->
  dictionary_loop tr text toks fuel index cursor
  = (ra ← dictionary_loop tr a ta fuel index cursor;
     rb ← dictionary_loop tr b tb (length tb) 0 0;
     Return (ra ++ P ++ rb)).
Proof.
  induction fuel as [|fuel IH]; intros index cursor Hi Hc Hfuel.
  - rewrite length_toks in Hfuel.
    assert (index = length ta + 0)%nat as -> by lia.
    rewrite loop_r0 by done. cbn [dictionary_loop]. simpl.
    replace (length tb) with O by lia. done.
  - destruct (decide (index < length ta)%nat) as [Hlt|Hge].
    + cbn [dictionary_loop]. rewrite length_toks.
      destruct (Nat.ltb_spec index (length ta + length tb)); [|lia].
      destruct (Nat.ltb_spec index (length ta)); [|lia].
      rewrite <- length_toks.
      rewrite find_l, window_range_l by (done || apply window_range_bound).
      destruct (find_best_match tr a ta index _) as [|s e r n|] eqn:Hf; [| |done].
      * apply IH; lia.
      * apply find_best_match_in_range in Hf as (w & Hw & Hpos & -> & -> & ->).
        pose proof (window_range_bound (length ta) index) as Hb.
        rewrite Forall_forall in Hb. apply Hb in Hw.
        pose proof (ta_bounds index Hlt).
        pose proof (ta_bounds (index + Z.to_nat w - 1)).
        rewrite IH by lia.
        destruct (dictionary_loop tr a ta fuel _ _) as [rest|]; [|done].
        rewrite !bind_return.
        destruct (dictionary_loop tr b tb (length tb) 0 0) as [rb|]; [|done].
        rewrite !bind_return.
        f_equal. unfold text. rewrite slice_app_l by lia. by rewrite <- !app_assoc.
    + assert (index = length ta + 0)%nat as -> by lia.
      rewrite loop_r0 by done.
      rewrite (dictionary_loop_fuel tr b tb (S fuel) (length tb)) by (rewrite length_toks in Hfuel; lia).
      cbn [dictionary_loop]. destruct (Nat.ltb_spec (length ta + 0) (length ta)); [lia|].
      done.
Qed.

End DictionaryFrame.

Section DictionaryFrameTheorem.
Context {RT : PyRuntime}.

(** The dictionary pass rewrites the text on both sides of a barrier and
    keeps the barrier. *)
Lemma dictionary_pass_barrier (tr : ControlledTranslator) (a b P : str) :
  is_barrier P = true ->
  _apply_dictionary tr (a ++ P ++ b)
  = (ra ← _apply_dictionary tr a;
     rb ← _apply_dictionary tr b;
     Return (ra ++ P ++ rb)).
Proof.
  intros Hbar. rewrite !apply_dictionary_loop, tokens_cut by done.
  rewrite loop_l by (done || lia).
  rewrite (dictionary_loop_fuel tr a (tokens a) _ (length (tokens a))); [done| |lia].
  rewrite length_app. lia.
Qed.

Lemma mask_is_barrier i : is_barrier (placeholder i) = true.
Proof.
  rewrite placeholder_unfold. cbn [is_barrier]. rewrite <- placeholder_unfold.
  change (negb (is_alnum PH_OPEN) && negb (is_token_sep PH_OPEN)) with true.
  cbn [andb]. apply andb_true_iff. split.
  - apply forallb_forall. intros c Hc%list_elem_of_In.
    pose proof (mask_no_letter i) as H. rewrite Forall_forall in H.
    by rewrite (H c Hc).
  - by rewrite placeholder_unfold.
Qed.

(** The dictionary pass rewrites the text on both sides of a mask and keeps
    the mask. *)
Lemma dictionary_pass_frame (tr : ControlledTranslator) (a b : str) (i : nat) :
  _apply_dictionary tr (a ++ placeholder i ++ b)
  = (ra ← _apply_dictionary tr a;
     rb ← _apply_dictionary tr b;
     Return (ra ++ placeholder i ++ rb)).
Proof. apply dictionary_pass_barrier, mask_is_barrier. Qed.

End DictionaryFrameTheorem.
(** ** Loading the overrides, and lines that do not parse *)

Section Lines.
Context {RT : PyRuntime}.


Lemma text_mode_ignores_json (loads : str -> outcome json) line tr bufs dm stats :
  process_line (RT := with_json_loads loads RT) line tr bufs text dm stats
  = process_line (RT := RT) line tr bufs text dm stats.
Proof. reflexivity. Qed.


End Lines.

Section LineExamples.
Existing Instance example_runtime.




End LineExamples.

(** ** The JSON walker and the buffers *)

Lemma json_nested_ind (P : json -> Prop) :
  P JNull -> (forall b, P (JBool b)) -> (forall z, P (JInt z)) ->
  (forall r, P (JFloat r)) -> (forall s, P (JStr s)) ->
  (forall items, Forall P items -> P (JArr items)) ->
  (forall fields, Forall (fun kv : str * json => P kv.2) fields -> P (JObj fields)) ->
  forall v, P v.
Proof.
  intros Hnull Hbool Hint Hfloat Hstr Harr Hobj.
  fix IH 1.
  intros [|b|z|r|s|items|fields];
    [exact Hnull|exact (Hbool b)|exact (Hint z)|exact (Hfloat r)|exact (Hstr s)| |].
  - apply Harr. induction items as [|x xs IHxs]; constructor; [apply IH|apply IHxs].
  - apply Hobj. induction fields as [|[k x] xs IHxs]; constructor; [apply IH|apply IHxs].
Qed.

Section WalkerWrites.
Context {RT : PyRuntime}.

Lemma translate_field_no_delta tr dm rid net path key value bufs v' bufs1 :
  (bool_decide (key = u "delta") && is_json_string value) || has_delta value = false ->
  (forall inherited path bufs r bufs',
     translate_json_node tr dm rid value inherited path bufs = Return (r, bufs') ->
     bufs' = bufs) ->
  translate_field tr dm rid net path key value bufs = Return (v', bufs1) ->
  bufs1 = bufs.
Proof.
  intros Hd Hvalue. unfold translate_field.
  destruct value as [| | | |s| |]; try (intros Hv; by apply Hvalue in Hv).
  destruct (should_translate_field key net path); [|by intros [= <- <-]].
  destruct (should_expand_delta dm key net rid) eqn:Hx.
  - unfold should_expand_delta in Hx. destruct dm; [|done].
    destruct net; [|done]. destruct rid; [|done].
    apply andb_true_iff in Hx as [Hkey _]. rewrite Hkey in Hd. done.
  - destruct (translate_text tr s) as [out|]; [|done]. rewrite bind_return.
    by intros [= <- <-].
Qed.

(** The walker writes no buffer for a value that holds no string under the
    key [delta]. *)
Lemma translate_json_node_no_delta tr dm rid node :
  has_delta node = false ->
  forall inherited path bufs res bufs',
    translate_json_node tr dm rid node inherited path bufs = Return (res, bufs') ->
    bufs' = bufs.
Proof.
  induction node as [|b0|z0|fl0|s0|items IH|fields IH] using json_nested_ind;
    intros Hd inherited path bufs res bufs'; cbn [translate_json_node];
    try (by intros [= <- <-]).
  - (* a list *)
    set (net := event_type_or (JArr items) inherited). clearbody net.
    match goal with |- context [ ?f items bufs ] => set (each := f) end.
    assert (Hnil : forall b, each [] b = Return ([], b)) by reflexivity.
    assert (Hcons : forall item rest b,
      each (item :: rest) b
      = ('(item', bufs1) ← translate_json_node tr dm rid item net path b;
         '(rs, bufs2) ← each rest bufs1;
         Return (item' :: rs, bufs2))) by reflexivity.
    clearbody each.
    assert (Heach : forall bufs rs bufs', each items bufs = Return (rs, bufs') -> bufs' = bufs).
    { clear bufs res bufs'. cbn [has_delta] in Hd.
      induction IH as [|item rest Hitem _ IHrest]; intros bufs rs bufs'.
      - rewrite Hnil. by intros [= <- <-].
      - rewrite Hcons. cbn [existsb] in Hd. apply orb_false_iff in Hd as [Hd1 Hd2].
        destruct (translate_json_node tr dm rid item net path bufs) as [[item' bufs1]|] eqn:E;
          [|done].
        rewrite bind_return.
        destruct (each rest bufs1) as [[rs' bufs2]|] eqn:E2; [|done].
        rewrite bind_return. intros [= <- <-].
        apply (Hitem Hd1) in E as ->. by apply (IHrest Hd2) in E2. }
    destruct (each items bufs) as [[rs bufs1]|] eqn:E; [|done].
    rewrite bind_return. intros [= <- <-]. by apply Heach in E.
  - (* a dict *)
    set (net := event_type_or (JObj fields) inherited). clearbody net.
    match goal with |- context [ ?f fields bufs ] => set (loop := f) end.
    assert (Hnil : forall b, loop [] b = Return ([], b)) by reflexivity.
    assert (Hcons : forall key value rest b,
      loop ((key, value) :: rest) b
      = ('(value', bufs1) ← translate_field tr dm rid net path key value b;
         '(rs, bufs2) ← loop rest bufs1;
         Return ((key, value') :: rs, bufs2))) by reflexivity.
    clearbody loop.
    assert (Hloop : forall bufs rs bufs', loop fields bufs = Return (rs, bufs') -> bufs' = bufs).
    { clear bufs res bufs'. cbn [has_delta] in Hd.
      induction IH as [|[key value] rest Hvalue _ IHrest]; intros bufs rs bufs'.
      - rewrite Hnil. by intros [= <- <-].
      - rewrite Hcons. cbn [snd] in Hvalue. cbn [existsb] in Hd.
        apply orb_false_iff in Hd as [Hd1 Hd2].
        destruct (translate_field tr dm rid net path key value bufs) as [[v' bufs1]|] eqn:E;
          [|done].
        rewrite bind_return.
        destruct (loop rest bufs1) as [[rs' bufs2]|] eqn:E2; [|done].
        rewrite bind_return. intros [= <- <-].
        apply (translate_field_no_delta _ _ _ _ _ _ _ _ _ _ Hd1) in E as ->.
        + by apply (IHrest Hd2) in E2.
        + apply Hvalue. by apply orb_false_iff in Hd1 as [_ ?]. }
    destruct (loop fields bufs) as [[rs bufs1]|] eqn:E; [|done].
    rewrite bind_return. intros [= <- <-]. by apply Hloop in E.
Qed.

End WalkerWrites.

(** ** The delta accumulator *)

Lemma lookup_foldl_delete (keys : list str) : forall (m : buffers) (k : str),
  foldl (fun m key => delete key m) m keys !! k
  = if decide (k ∈ keys) then None else m !! k.
Proof.
  induction keys as [|key keys IH]; intros m k; [done|].
  cbn [foldl]. rewrite IH. destruct (decide (k ∈ keys)) as [Hin|Hout].
  - rewrite decide_True; [done|by right].
  - destruct (decide (k = key)) as [->|Hne].
    + rewrite decide_True by (by left). apply lookup_delete_eq.
    + rewrite decide_False by (rewrite elem_of_cons; tauto). by apply lookup_delete_ne.
Qed.

Lemma clear_by_record_id_lookup (record_id : str) (bufs : buffers) (k : str) :
  clear_by_record_id record_id bufs !! k
  = if starts_with (record_id ++ [124]) k then None else bufs !! k.
Proof.
  unfold clear_by_record_id. rewrite lookup_foldl_delete.
  destruct (starts_with (record_id ++ [124]) k) eqn:Hs.
  - destruct (decide _) as [|Hout]; [done|].
    destruct (bufs !! k) as [v|] eqn:Hk; [|done]. exfalso. apply Hout.
    apply list_elem_of_filter. split; [done|].
    apply list_elem_of_fmap. exists (k, v). split; [done|]. by apply elem_of_map_to_list.
  - rewrite decide_False; [done|]. intros [Hk _]%list_elem_of_filter. congruence.
Qed.

Lemma clear_by_record_id_idem (record_id : str) (bufs : buffers) :
  clear_by_record_id record_id (clear_by_record_id record_id bufs)
  = clear_by_record_id record_id bufs.
Proof.
  apply map_eq. intros k. rewrite !clear_by_record_id_lookup.
  by destruct (starts_with _ _).
Qed.

Lemma stream_key_prefix record_id event_type path key :
  starts_with (record_id ++ [124]) (stream_key_of record_id event_type path key) = true.
Proof.
  unfold stream_key_of. apply starts_with_prefix.
  exists (event_type ++ [124] ++ join [46] (path ++ [key])). by rewrite <- app_assoc.
Qed.

Lemma app_sep_inj (c : N) (r r' x y : str) :
  c ∉ r -> c ∉ r' -> r ++ c :: x = r' ++ c :: y -> r = r'.
Proof.
  revert r'. induction r as [|d r IH]; intros r' Hr Hr' E.
  - destruct r' as [|d' r']; [done|]. simplify_eq/=. exfalso. apply Hr'. by left.
  - destruct r' as [|d' r']; simplify_eq/=.
    + exfalso. apply Hr. by left.
    + f_equal. apply (IH r'); [| |done].
      * intros H. apply Hr. by right.
      * intros H. apply Hr'. by right.
Qed.

Lemma other_record_key record_id other event_type path key :
  124 ∉ record_id -> 124 ∉ other -> other <> record_id ->
  starts_with (record_id ++ [124]) (stream_key_of other event_type path key) = false.
Proof.
  intros Hr Ho Hne. destruct (starts_with _ _) eqn:E; [|done].
  apply starts_with_prefix in E as [rest E]. unfold stream_key_of in E.
  rewrite <- app_assoc in E. simpl in E. symmetry in E.
  apply app_sep_inj in E; done.
Qed.

Section Reset.
Context {RT : PyRuntime}.

(** C6: a line of a reset event that has a record id is processed, in
    full-buffer mode, on the buffers left by [clear_by_record_id].  That
    call deletes exactly the keys that start with the record id followed by
    a bar: every buffer of the record, and no buffer of another record as
    long as neither record id holds a bar.  So the result of the line does
    not depend on what the buffers of the record held.  When the line holds
    no string under a key [delta], the buffers after the line are the
    cleared ones, and the next delta of the record is translated from an
    empty buffer. *)
Theorem reset_clears_by_prefix (line : str) (tr : ControlledTranslator) (bufs : buffers)
    (mode : Mode) (stats : TranslationStats) (parsed : json) (record_id event_type : str) :
  mode <> text ->
  looks_like_json (rstrip_newlines line) = true ->
  json_loads (rstrip_newlines line) = Return parsed ->
  extract_record_id parsed = Some record_id ->
  detect_event_type parsed = Some event_type ->
  mem event_type RESET_EVENT_TYPES = true ->
  let cleared := clear_by_record_id record_id bufs in
  (* the line is processed on the cleared buffers *)
  process_line line tr bufs mode full_buffer stats
  = process_line line tr cleared mode full_buffer stats
  (* exactly the keys that start with the record id and a bar are deleted *)
  /\ (forall k, cleared !! k
                = if starts_with (record_id ++ [124]) k then None else bufs !! k)
  (* so every buffer of the record is deleted *)
  /\ (forall node_type path key,
        cleared !! stream_key_of record_id node_type path key = None)
  (* and the buffers of a record whose id has no bar are kept, when the
     reset record's id has none either *)
  /\ (forall other node_type path key,
        124 ∉ record_id -> 124 ∉ other -> other <> record_id ->
        cleared !! stream_key_of other node_type path key
        = bufs !! stream_key_of other node_type path key)
  (* the result is the same whatever the buffers of the record held *)
  /\ (forall bufs2 : buffers,
        (forall k, starts_with (record_id ++ [124]) k = false -> bufs2 !! k = bufs !! k) ->
        process_line line tr bufs2 mode full_buffer stats
        = process_line line tr bufs mode full_buffer stats)
  (* after a line with no delta of its own, a delta fed next for the record
     starts from an empty buffer *)
  /\ (has_delta parsed = false ->
      forall out bufs' stats',
        process_line line tr bufs mode full_buffer stats = Return (out, bufs', stats') ->
        bufs' = cleared
        /\ forall node_type path key delta,
             rewrite_to_full_buffer tr (stream_key_of record_id node_type path key) delta bufs'
             = (translated ← translate_text tr delta;
                Return (translated,
                        <[stream_key_of record_id node_type path key := delta]> bufs'))).
Proof.
  intros Hmode Hlooks Hloads Hid Htype Hreset cleared. unfold looks_like_json in Hlooks.
  assert (Hkeys : forall node_type path key,
            cleared !! stream_key_of record_id node_type path key = None).
  { intros. unfold cleared. by rewrite clear_by_record_id_lookup, stream_key_prefix. }
  assert (Hline : forall b : buffers,
            process_line line tr b mode full_buffer stats
            = process_line line tr (clear_by_record_id record_id b) mode full_buffer stats).
  { intros b. unfold process_line. rewrite Hlooks, Hloads, Hid, Htype, Hreset.
    rewrite clear_by_record_id_idem. by destruct mode. }
  split; [apply Hline|]. split; [apply clear_by_record_id_lookup|].
  split; [done|]. split; [|split].
  - intros other node_type path key Hr Ho Hne. unfold cleared.
    by rewrite clear_by_record_id_lookup, other_record_key.
  - intros bufs2 Hsame. rewrite (Hline bufs2), (Hline bufs). f_equal.
    apply map_eq. intros k. rewrite !clear_by_record_id_lookup.
    destruct (starts_with _ k) eqn:Hk; [done|]. by apply Hsame.
  - intros Hd out bufs' stats'. unfold process_line.
    rewrite Hlooks, Hloads, Hid, Htype, Hreset.
    assert (Hmode' : (match mode with text => false | _ => true end) = true)
      by (by destruct mode).
    rewrite Hmode'. fold cleared.
    destruct (translate_json_node tr full_buffer (Some record_id) parsed None [] cleared)
      as [[translated bufs1]|] eqn:E; [|done].
    rewrite bind_return. intros [= <- <- <-].
    apply (translate_json_node_no_delta _ _ _ _ Hd) in E as ->.
    split; [done|]. intros node_type path key delta. unfold rewrite_to_full_buffer.
    by rewrite Hkeys.
Qed.

End Reset.

Section AccumulatorExamples.
Existing Instance example_runtime.

(** A reset line that carries a delta of its own leaves that fragment in
    the buffer of its record. *)
Lemma reset_line_keeps_own_delta :
  process_line (q "{'type':'agent_reasoning','id':'a','delta':'machine'}")
               (new_translator ∅ [] 2 8)
               {[ stream_key_of (u "a") (u "agent_reasoning") [] (u "delta") := u "old text " ]}
               auto full_buffer stats0
  = Return (q "{'type':'agent_reasoning','id':'a','delta':'machine'}",
            {[ stream_key_of (u "a") (u "agent_reasoning") [] (u "delta") := u "machine" ]},
            {| lines := 1; translated_strings := 0; json_records := 1 |}).
Proof. vm_compute. reflexivity. Qed.

(** A reset for the record [a] deletes the buffer of the record [a|b]. *)
Lemma reset_deletes_other_record :
  let bufs : buffers :=
    {[ stream_key_of (u "a|b") (u "agent_reasoning_delta") [] (u "delta") := u "kept text" ]} in
  (process_line (q "{'type':'task_complete','id':'a'}") (new_translator ∅ [] 2 8) bufs
                auto full_buffer stats0)
  = Return (q "{'type':'task_complete','id':'a'}", ∅,
            {| lines := 1; translated_strings := 0; json_records := 1 |}).
Proof. vm_compute. reflexivity. Qed.

(** C5: for every stream key with no buffer yet and every non-empty
    translation of [machine learning], the first fragment is returned as it
    is, and the second call returns the translation of the two fragments
    joined, which holds the translated phrase. *)
Theorem split_phrase_translated_from_buffer (stream_key : str) (bufs : buffers) (X : str) :
  X <> [] ->
  bufs !! stream_key = None ->
  let tr := new_translator {[ u "machine learning" := X ]} [] 2 8 in
  let first := u "Thinking about the " in
  let second := u "machine learning problem" in
  rewrite_to_full_buffer tr stream_key first bufs
    = Return (first, <[stream_key := first]> bufs)
  /\ rewrite_to_full_buffer tr stream_key second (<[stream_key := first]> bufs)
    = (out ← translate_text tr (first ++ second);
       Return (out, <[stream_key := first ++ second]> bufs))
  /\ translate_text tr (first ++ second) = Return (u "Thinking about the " ++ X ++ u " problem")
  /\ contains X (u "Thinking about the " ++ X ++ u " problem") = true.
Proof.
  intros HX Hk tr first second. destruct X as [|c X]; [done|].
  assert (Ht1 : translate_text tr first = Return first) by (vm_compute; reflexivity).
  assert (Ht2 : translate_text tr (first ++ second)
                = Return (u "Thinking about the " ++ (c :: X) ++ u " problem")).
  { vm_compute. reflexivity. }
  split; [|split; [|split]].
  - unfold rewrite_to_full_buffer. rewrite Hk. cbn [default]. rewrite app_nil_l, Ht1. done.
  - unfold rewrite_to_full_buffer. rewrite lookup_insert_eq. cbn [default].
    by rewrite insert_insert_eq.
  - exact Ht2.
  - set (pre := u "Thinking about the "). set (post := u " problem").
    clearbody pre post. clear. induction pre as [|d pre IH].
    + simpl. rewrite N.eqb_refl. rewrite (starts_with_app X post). done.
    + rewrite <- app_comm_cons. cbn [contains]. rewrite IH. apply orb_true_r.
Qed.

(** The second fragment holds the whole phrase, and is translated on its
    own as well. *)
Lemma second_fragment_alone :
  contains (u "machine learning") (u "machine learning problem") = true
  /\ translate_text (new_translator {[ u "machine learning" := u "机器学习" ]} [] 2 8)
                    (u "machine learning problem")
     = Return (u "机器学习 problem").
Proof. vm_compute. split; reflexivity. Qed.

Lemma split_phrase_witness :
  translate_text (new_translator {[ u "machine learning" := u "机器学习" ]} [] 2 8)
                 (u "Thinking about the " ++ u "machine learning problem")
  = Return (u "Thinking about the " ++ u "机器学习" ++ u " problem").
Proof.
  refine (proj1 (proj2 (proj2 (split_phrase_translated_from_buffer
            (u "r1|agent_message_delta|delta") ∅ (u "机器学习") _ _)))); by vm_compute.
Defined.

Lemma reset_clears_witness :
  let bufs : buffers :=
    {[ stream_key_of (u "a") (u "agent_message_delta") [] (u "delta") := u "old text" ]} in
  clear_by_record_id (u "a") bufs
    !! stream_key_of (u "a") (u "agent_message_delta") [] (u "delta") = None.
Proof.
  intros bufs.
  refine (proj1 (proj2 (proj2 (reset_clears_by_prefix
            (q "{'type':'task_complete','id':'a'}") (new_translator ∅ [] 2 8) bufs auto stats0
            (JObj [(u "type", JStr (u "task_complete")); (u "id", JStr (u "a"))])
            (u "a") (u "task_complete") _ _ _ _ _ _))) _ _ _); by vm_compute.
Defined.

End AccumulatorExamples.

(** ** The override pass *)

Lemma existsb_drop_while (q p : N -> bool) s :
  (forall c, q c = true -> p c = false) ->
  existsb q (drop_while p s) = existsb q s.
Proof.
  intros Hqp. induction s as [|c s IH]; [done|]. simpl.
  destruct (p c) eqn:Hp; [|done]. rewrite IH.
  destruct (q c) eqn:Hq; [|done]. apply Hqp in Hq. congruence.
Qed.

Lemma existsb_reverse (q : N -> bool) s : existsb q (reverse s) = existsb q s.
Proof.
  induction s as [|c s IH]; [done|]. rewrite reverse_cons, existsb_app, IH. simpl.
  rewrite orb_false_r. apply orb_comm.
Qed.

Lemma is_letter_not_space c : is_letter c = true -> is_space c = false.
Proof.
  unfold is_letter, is_upper, is_lower, is_space, in_range.
  rewrite !orb_true_iff, !andb_true_iff, !N.leb_le. intros H.
  repeat (apply orb_false_iff; split);
    rewrite ?andb_false_iff, ?N.leb_gt, ?N.eqb_neq; lia.
Qed.

Lemma existsb_nonempty (q : N -> bool) s : existsb q s = true -> nonempty s = true.
Proof. by destruct s. Qed.

Section Overrides.
Context {RT : PyRuntime}.

Lemma has_english_strip text : has_english text = true -> nonempty (strip text) = true.
Proof.
  unfold has_english, strip, rstrip, lstrip. intros H.
  apply (existsb_nonempty is_letter).
  rewrite existsb_reverse, existsb_drop_while, existsb_reverse, existsb_drop_while;
    auto using is_letter_not_space.
Qed.

Lemma ci_eq_refl c : ci_eq c c = true.
Proof.
  unfold ci_eq. destruct (is_ascii c && is_ascii c); [apply N.eqb_refl|].
  by rewrite N.eqb_refl.
Qed.

Lemma starts_with_ci_refl p r : starts_with_ci p (p ++ r) = true.
Proof. induction p as [|c p IH]; [done|]. simpl. by rewrite ci_eq_refl, IH. Qed.

Lemma m_override_whole p : m_override p None p = Some (length p).
Proof.
  unfold m_override. rewrite <- (app_nil_r p) at 2. rewrite starts_with_ci_refl.
  by rewrite drop_all.
Qed.

Lemma m_override_end p prev : p <> [] -> m_override p prev [] = None.
Proof.
  intros Hp. unfold m_override. destruct p as [|c p]; [done|]. simpl.
  by rewrite andb_false_r.
Qed.

Lemma re_sub_from_skip_all {St} (m : matcher) (repl : St -> str -> St * str) s :
  (forall prev, m prev [] = None) ->
  forall prev st, re_sub_from m repl prev (length s) st s = (st, []).
Proof.
  intros Hend. induction s as [|c s IH]; intros prev st; simpl.
  - by rewrite Hend.
  - apply IH.
Qed.

(** A pattern that matches the whole subject at its start. *)
Lemma re_sub_whole {St} (m : matcher) (repl : St -> str -> St * str) st s :
  s <> [] ->
  m None s = Some (length s) ->
  (forall prev, m prev [] = None) ->
  re_sub m repl st s = ((repl st s).1, (repl st s).2 ++ []).
Proof.
  intros Hs Hm Hend. unfold re_sub. destruct s as [|c s]; [done|].
  cbn [re_sub_from]. rewrite Hm. cbn [length].
  replace (take (S (length s)) (c :: s)) with (c :: s)
    by (cbn [take]; by rewrite firstn_all).
  destruct (repl st (c :: s)) as [st1 r].
  by rewrite re_sub_from_skip_all.
Qed.

Lemma restore_nil text : _restore text [] = text.
Proof. done. Qed.

Lemma apply_dictionary_no_token tr text : tokens text = [] -> _apply_dictionary tr text = Return text.
Proof. unfold _apply_dictionary. by intros ->. Qed.








End Overrides.

(** ** The override pass on a text that holds a mask *)

Section OverrideFrame.
Context {RT : PyRuntime}.

Lemma mask_chars i : Forall (fun c => c ∈ MASK_CHARS) (placeholder i).
Proof.
  unfold placeholder. constructor; [by left|]. constructor; [do 2 right; by left|].
  apply Forall_app. split; [|constructor; [right; by left|done]].
  eapply Forall_impl; [apply decimal_digits|]. simpl. intros c Hc.
  do 3 right. unfold u. simpl.
  assert (c = 48 \/ c = 49 \/ c = 50 \/ c = 51 \/ c = 52 \/ c = 53 \/ c = 54
          \/ c = 55 \/ c = 56 \/ c = 57) as H by lia.
  rewrite !elem_of_cons. tauto.
Qed.

Lemma starts_with_ci_app_stop p a h r :
  forallb (fun c => negb (ci_eq c h)) p = true ->
  starts_with_ci p (a ++ h :: r) = starts_with_ci p a.
Proof.
  revert a. induction p as [|c p IH]; intros a Hp; [by destruct a|].
  simpl in Hp. apply andb_true_iff in Hp as [Hc Hp]. apply negb_true_iff in Hc.
  destruct a as [|d a]; simpl; [by rewrite Hc|]. by rewrite IH.
Qed.

Lemma starts_with_ci_length p s : starts_with_ci p s = true -> (length p <= length s)%nat.
Proof.
  revert s. induction p as [|c p IH]; intros s; simpl; [lia|].
  destruct s as [|d s]; [done|]. intros [_ H]%andb_true_iff. apply IH in H. simpl. lia.
Qed.

Section Pattern.
Variables (source : str).
Hypothesis Hsafe : mask_safe source = true.
Hypothesis Hopen : ci_ident PH_OPEN = false.
Hypothesis Hclose : ci_ident PH_CLOSE = false.

Let m := m_override source.

Lemma source_nonempty : source <> [].
Proof using Hsafe. by destruct source. Qed.

Lemma m_at_end prev : m prev [] = None.
Proof using Hsafe. apply m_override_end, source_nonempty. Qed.

Lemma m_at_mask_char prev c r : c ∈ MASK_CHARS -> m prev (c :: r) = None.
Proof using Hsafe.
  intros Hc. unfold m, m_override. destruct source as [|c0 p]; [done|].
  unfold mask_safe in Hsafe. apply andb_true_iff in Hsafe as [H0 _].
  rewrite forallb_forall in H0. apply list_elem_of_In, H0, negb_true_iff in Hc.
  simpl. rewrite Hc. by rewrite andb_false_r.
Qed.

Lemma m_before_mask prev a r :
  a <> [] -> m prev (a ++ PH_OPEN :: r) = m prev a.
Proof using Hsafe Hopen.
  intros Ha. unfold m, m_override.
  assert (Hp : forallb (fun c => negb (ci_eq c PH_OPEN)) source = true).
  { unfold mask_safe in Hsafe. destruct source; [done|].
    by apply andb_true_iff in Hsafe as [_ ?]. }
  rewrite starts_with_ci_app_stop by done.
  destruct (starts_with_ci source a) eqn:Hs; [|by rewrite !andb_false_r].
  apply starts_with_ci_length in Hs.
  rewrite drop_app_le by done.
  destruct (drop (length source) a) as [|d rest]; [|done].
  simpl. by rewrite Hopen.
Qed.

Lemma m_after_mask s : m (Some PH_CLOSE) s = m None s.
Proof using Hclose. unfold m, m_override. by rewrite Hclose. Qed.

Lemma m_length prev s n : m prev s = Some n -> (n <= length s)%nat /\ n <> O.
Proof using Hsafe.
  unfold m, m_override. destruct (_ && starts_with_ci source s && _) eqn:E; [|done].
  intros [= <-]. apply andb_true_iff in E as [[_ E]%andb_true_iff _].
  split; [by apply starts_with_ci_length|].
  pose proof source_nonempty. by destruct source.
Qed.

Variable (St : Type) (repl : St -> str -> St * str).

(** Through a mask nothing matches. *)
Lemma sub_through_mask (p : str) : forall prev st r,
  Forall (fun c => c ∈ MASK_CHARS) p -> p <> [] ->
  (forall s, m (Some (List.last p 0)) s = m None s) ->
  re_sub_from m repl prev 0 st (p ++ r)
  = let '(st', out) := re_sub m repl st r in (st', p ++ out).
Proof using Hsafe.
  induction p as [|c p IH]; intros prev st r Hp Hne Hlast; [done|].
  apply Forall_cons in Hp as [Hc Hp].
  rewrite <- app_comm_cons. cbn [re_sub_from]. rewrite m_at_mask_char by done.
  destruct p as [|c' p].
  - rewrite app_nil_l. unfold re_sub.
    assert (E : re_sub_from m repl (Some c) 0 st r = re_sub_from m repl None 0 st r).
    { destruct r as [|d r]; cbn [re_sub_from].
      - by rewrite !m_at_end.
      - simpl in Hlast. by rewrite Hlast. }
    rewrite E. by destruct (re_sub_from m repl None 0 st r).
  - rewrite IH; [|done|done|exact Hlast].
    by destruct (re_sub m repl st r).
Qed.

Lemma sub_at_end prev st : re_sub_from m repl prev 0 st [] = (st, []).
Proof using Hsafe. cbn [re_sub_from]. by rewrite m_at_end. Qed.

(** Before a mask the matches are those of the text before it. *)
Lemma sub_before (tl : str) (a : str) : forall prev skip st,
  (forall prev' a', a' <> [] -> m prev' (a' ++ tl) = m prev' a') ->
  (skip <= length a)%nat ->
  re_sub_from m repl prev skip st (a ++ tl)
  = let '(st1, out1) := re_sub_from m repl prev skip st a in
    let '(st2, out2) :=
      re_sub_from m repl (if a is [] then prev else Some (List.last a 0)) 0 st1 tl in
    (st2, out1 ++ out2).
Proof using Hsafe.
  induction a as [|c a IH]; intros prev skip st Htl Hskip.
  - simpl in Hskip. assert (skip = O) as -> by lia.
    rewrite app_nil_l, sub_at_end. cbn iota beta.
    by destruct (re_sub_from m repl prev 0 st tl).
  - assert (Hlast : (if a is [] then Some c else Some (List.last a 0))
                    = Some (List.last (c :: a) 0)).
    { by destruct a. }
    rewrite <- Hlast. clear Hlast.
    rewrite <- app_comm_cons. cbn [re_sub_from]. destruct skip as [|k].
    + rewrite app_comm_cons, Htl by done.
      destruct (m prev (c :: a)) as [[|k]|] eqn:Hm.
      * apply m_length in Hm as [_ ?]. done.
      * apply m_length in Hm as [Hk _]. simpl in Hk.
        rewrite firstn_app.
        replace (S k - length (c :: a))%nat with O by (simpl; lia).
        rewrite take_0, app_nil_r.
        destruct (repl st (take (S k) (c :: a))) as [st1 rp].
        rewrite IH by (done || lia).
        destruct (re_sub_from m repl (Some c) k st1 a) as [st2 out1].
        destruct a; destruct (re_sub_from m repl _ 0 st2 tl); by rewrite <- app_assoc.
      * rewrite IH by (done || lia).
        destruct (re_sub_from m repl (Some c) 0 st a) as [st2 out1].
        by destruct a; destruct (re_sub_from m repl _ 0 st2 tl).
    + simpl in Hskip. rewrite IH by (done || lia).
      destruct (re_sub_from m repl (Some c) k st a) as [st2 out1].
      by destruct a; destruct (re_sub_from m repl _ 0 st2 tl).
Qed.

Lemma placeholder_last i : List.last (placeholder i) 0 = PH_CLOSE.
Proof.
  unfold placeholder. rewrite !app_comm_cons. apply last_last.
Qed.

(** One override pattern rewrites both sides of a mask and keeps the mask. *)
Lemma re_sub_keeps_mask a i b st :
  re_sub m repl st (a ++ placeholder i ++ b)
  = let '(st1, out1) := re_sub m repl st a in
    let '(st2, out2) := re_sub m repl st1 b in
    (st2, out1 ++ placeholder i ++ out2).
Proof using Hsafe Hopen Hclose.
  unfold re_sub at 1. rewrite placeholder_unfold, <- app_comm_cons.
  rewrite sub_before; [|intros; by apply m_before_mask|lia]. fold (re_sub m repl st a).
  destruct (re_sub m repl st a) as [st1 out1].
  rewrite app_comm_cons, <- placeholder_unfold.
  rewrite sub_through_mask.
  - by destruct (re_sub m repl st1 b).
  - apply mask_chars.
  - done.
  - intros s. rewrite placeholder_last. apply m_after_mask.
Qed.

End Pattern.

(** The override pass rewrites both sides of a mask and keeps the mask, when
    every override source is safe for masks. *)
Lemma override_pass_frame (patterns : list (str * str)) : forall a i b,
  Forall (fun item : str * str => mask_safe item.1 = true) patterns ->
  ci_ident PH_OPEN = false -> ci_ident PH_CLOSE = false ->
  apply_patterns patterns (a ++ placeholder i ++ b)
  = (ra ← apply_patterns patterns a;
     rb ← apply_patterns patterns b;
     Return (ra ++ placeholder i ++ rb)).
Proof.
  induction patterns as [|[source replacement] ps IH]; intros a i b Hsafe Hopen Hclose.
  - done.
  - apply Forall_cons in Hsafe as [Hs Hps]. cbn [apply_patterns].
    destruct (compile_template replacement) as [expand|e]; [|done].
    rewrite !bind_return.
    rewrite (re_sub_keeps_mask source Hs Hopen Hclose).
    destruct (re_sub (m_override source) _ tt a) as [[] out1].
    destruct (re_sub (m_override source) _ tt b) as [[] out2]. cbn [snd].
    rewrite IH by done.
    destruct (apply_patterns ps out1) as [ra|e]; [|done]. rewrite !bind_return.
    done.
Qed.

(** C2: the dictionary pass keeps a mask where it is and rewrites the text
    before it and the text behind it as it would rewrite them alone, for
    every translator.  The override pass does the same when no override
    source can match inside a mask or across its opening delimiter: each
    source starts with a character that, letter case ignored, is none of
    the characters of a mask, and holds no character that is the opening
    delimiter. *)
Theorem passes_keep_mask (tr : ControlledTranslator) (a b : str) (i : nat) :
  _apply_dictionary tr (a ++ placeholder i ++ b)
  = (ra ← _apply_dictionary tr a;
     rb ← _apply_dictionary tr b;
     Return (ra ++ placeholder i ++ rb))
  /\ (Forall (fun item : str * str => mask_safe item.1 = true) (override_patterns tr) ->
      ci_ident PH_OPEN = false -> ci_ident PH_CLOSE = false ->
      _apply_overrides tr (a ++ placeholder i ++ b)
      = (ra ← _apply_overrides tr a;
         rb ← _apply_overrides tr b;
         Return (ra ++ placeholder i ++ rb))).
Proof.
  split; [apply dictionary_pass_frame|]. intros. by apply override_pass_frame.
Qed.

End OverrideFrame.

Section OverrideExamples.
Existing Instance example_runtime.



(** The same text with that translator: the override's target, not the
    dictionary's entry for the phrase, is in the output. *)
Lemma override_wins_in_context :
  translate_text
    (new_translator {[ u "machine learning" := u "dictionary text"; u "a lot" := u "很多" ]}
                    [(u "Machine  Learning", u "机器学习"); (u "deep learning", u "深度学习")]
                    2 8)
    (u "I like machine learning a lot, see `ml.py`")
  = Return (u "I like 机器学习 很多, see `ml.py`").
Proof. vm_compute. reflexivity. Qed.

(** The dictionary pass joins the words of a phrase that are separated by
    more white space than the override pattern allows: there the
    dictionary's entry is used although the phrase is an override source. *)
Lemma override_misses_wide_space :
  translate_text
    (new_translator {[ u "machine learning" := u "dictionary text" ]}
                    [(u "machine learning", u "机器学习")] 2 8)
    (u "machine  learning")
  = Return (u "dictionary text").
Proof. vm_compute. reflexivity. Qed.

(** An override for the text [0] rewrites the mask of the first span, which
    is then not restored. *)
Lemma override_rewrites_mask :
  let tr := new_translator ∅ [(u "0", u "zero")] 2 8 in
  _apply_overrides tr (placeholder 0) = Return (u "⟪#zero⟫")
  /\ translate_text tr (u "`a`") = Return (u "⟪#zero⟫").
Proof. vm_compute. split; reflexivity. Qed.

Lemma passes_keep_mask_witness :
  let tr := new_translator {[ u "machine learning" := u "机器学习" ]}
                           [(u "deep learning", u "深度学习")] 2 8 in
  _apply_overrides tr (u "deep learning " ++ placeholder 0 ++ u " machine learning")
  = (ra ← _apply_overrides tr (u "deep learning ");
     rb ← _apply_overrides tr (u " machine learning");
     Return (ra ++ placeholder 0 ++ rb)).
Proof.
  intros tr.
  refine (proj2 (passes_keep_mask tr (u "deep learning ") (u " machine learning") 0) _ _ _);
    [|by vm_compute..].
  constructor; [by vm_compute|constructor].
Defined.

End OverrideExamples.

(** * Further properties *)

(** ** [normalize_spaces] *)

Lemma tidy_weaken s : tidy true s = true -> tidy false s = true.
Proof.
  destruct s as [|c r]; [done|]. simpl. destruct (is_space c); [|done].
  by rewrite andb_false_r.
Qed.

Lemma tidy_collapse b s : tidy b (collapse_spaces b s) = true.
Proof.
  revert b. induction s as [|c s IH]; intros b; [done|]. simpl.
  destruct (is_space c) eqn:Hc.
  - destruct b; [apply IH|]. simpl. by rewrite IH.
  - simpl. rewrite Hc. apply IH.
Qed.

Lemma tidy_lstrip b s : tidy b s = true -> tidy true (drop_while is_space s) = true.
Proof.
  revert b. induction s as [|c s IH]; intros b; [done|]. simpl.
  destruct (is_space c) eqn:Hc.
  - intros [_ H]%andb_true_iff. by eapply IH.
  - simpl. by rewrite Hc.
Qed.

Lemma ends_in_space_cons b c a :
  ends_in_space b (c :: a) = ends_in_space (is_space c) a.
Proof.
  unfold ends_in_space. rewrite reverse_cons.
  destruct (reverse a) as [|d r] eqn:E; [done|done].
Qed.

Lemma tidy_app b a s : tidy b (a ++ s) = tidy b a && tidy (ends_in_space b a) s.
Proof.
  revert b. induction a as [|c a IH]; intros b; [done|].
  rewrite <- app_comm_cons. cbn [tidy]. rewrite ends_in_space_cons.
  destruct (is_space c) eqn:Hc; rewrite IH.
  - by rewrite <- !andb_assoc.
  - done.
Qed.

Lemma tidy_reverse s : tidy false s = true -> tidy false (reverse s) = true.
Proof.
  induction s as [|c s IH]; [done|]. rewrite reverse_cons, tidy_app. cbn [tidy].
  unfold ends_in_space. rewrite reverse_involutive.
  destruct (is_space c) eqn:Hc.
  - intros [[-> _]%andb_true_iff H]%andb_true_iff.
    rewrite IH by by apply tidy_weaken. rewrite andb_true_r. cbn [andb].
    destruct s as [|d s]; [done|]. simpl in H.
    destruct (is_space d); [by rewrite andb_false_r in H|done].
  - intros H. by rewrite IH.
Qed.

Lemma drop_while_suffix (p : N -> bool) s : exists a, s = a ++ drop_while p s.
Proof.
  induction s as [|c s [a IH]]; [by exists []|]. simpl. destruct (p c).
  - exists (c :: a). by rewrite <- app_comm_cons, <- IH.
  - by exists [].
Qed.

Lemma tidy_rstrip s : tidy true s = true -> tidy true (rstrip s) = true.
Proof.
  intros H. unfold rstrip.
  destruct (drop_while_suffix is_space (reverse s)) as [a Ha].
  apply (f_equal reverse) in Ha. rewrite reverse_involutive, reverse_app in Ha.
  rewrite Ha, tidy_app in H. by apply andb_true_iff in H as [H _].
Qed.

Lemma single_spaced_normalize text : single_spaced (normalize_spaces text) = true.
Proof.
  unfold single_spaced, normalize_spaces, strip.
  pose proof (tidy_lstrip _ _ (tidy_collapse false text)) as H. fold (lstrip (collapse_spaces false text)) in H.
  rewrite (tidy_rstrip _ H). unfold rstrip. rewrite reverse_involutive.
  apply (tidy_lstrip false), tidy_reverse, tidy_weaken, H.
Qed.

Lemma collapse_tidy b s : tidy b s = true -> collapse_spaces b s = s.
Proof.
  revert b. induction s as [|c s IH]; intros b; [done|]. simpl.
  destruct (is_space c) eqn:Hc.
  - intros [[->%N.eqb_eq Hb%negb_true_iff]%andb_true_iff H]%andb_true_iff.
    rewrite Hb. by rewrite IH.
  - intros H. by rewrite IH.
Qed.

Lemma drop_while_tidy s : tidy true s = true -> drop_while is_space s = s.
Proof.
  destruct s as [|c s]; [done|]. simpl. destruct (is_space c); [|done].
  by rewrite andb_false_r.
Qed.

Lemma normalize_single_spaced s : single_spaced s = true -> normalize_spaces s = s.
Proof.
  intros [H1 H2]%andb_true_iff. unfold normalize_spaces, strip, lstrip, rstrip.
  rewrite collapse_tidy by by apply tidy_weaken.
  rewrite (drop_while_tidy s H1), (drop_while_tidy _ H2). apply reverse_involutive.
Qed.

(** X1: [normalize_spaces] returns words separated by single spaces, with no
    white space at either end; it leaves such a text as it is, so it is
    idempotent. *)
Theorem normalize_spaces_canonical (text : str) :
  single_spaced (normalize_spaces text) = true
  /\ (single_spaced text = true -> normalize_spaces text = text)
  /\ normalize_spaces (normalize_spaces text) = normalize_spaces text.
Proof.
  split; [apply single_spaced_normalize|]. split; [apply normalize_single_spaced|].
  apply normalize_single_spaced, single_spaced_normalize.
Qed.

(** ** The tokens of a text *)

Lemma span_len_forallb (p : N -> bool) s : forallb p (take (span_len p s) s) = true.
Proof.
  induction s as [|c s IH]; [done|]. simpl. destruct (p c) eqn:Hc; [|done].
  simpl. by rewrite Hc, IH.
Qed.

Lemma group_len_forallb g s :
  forallb (fun x => is_alnum x || is_token_sep x) (take (group_len g s) s) = true.
Proof.
  revert g. induction s as [|c s IH]; intros g; [done|]. cbn [group_len].
  destruct (g && is_alnum c) eqn:E1.
  - apply andb_true_iff in E1 as [_ E1]. cbn [take forallb]. by rewrite E1, IH.
  - destruct (is_token_sep c && _) eqn:E2; [|done].
    apply andb_true_iff in E2 as [E2 _]. cbn [take forallb].
    by rewrite E2, orb_true_r, IH.
Qed.

Lemma token_len_token s n :
  token_len s = Some n -> (0 < n <= length s)%nat /\ is_token (take n s) = true.
Proof.
  intros Hn. pose proof (token_len_le _ _ Hn) as Hle. revert Hn.
  unfold token_len. destruct s as [|c s]; [done|].
  destruct (is_letter c) eqn:Hc; [|done]. intros [= <-].
  cbn [span_len] in *. rewrite Hc in *. cbn [drop Nat.add take length] in *. split; [lia|].
  cbn [is_token]. rewrite Hc. cbn [andb].
  rewrite <- take_take_drop.
  rewrite forallb_app, group_len_forallb, andb_true_r.
  pose proof (span_len_forallb is_letter s) as H.
  rewrite forallb_forall in H. apply forallb_forall. intros x Hx.
  apply H in Hx. by rewrite (is_letter_alnum _ Hx).
Qed.

Lemma slice_cons x y c (r : str) : slice (S x) (S y) (c :: r) = slice x y r.
Proof. done. Qed.

Lemma tokens_from_tokens s : forall pos skip,
  Forall (fun t : nat * nat =>
            (pos + skip <= t.1)%nat /\ (t.1 < t.2 <= pos + length s)%nat
            /\ is_token (slice (t.1 - pos) (t.2 - pos) s) = true)
         (tokens_from pos skip s).
Proof.
  induction s as [|c s IH]; intros pos skip; [constructor|].
  assert (Hrest : forall k,
    Forall (fun t : nat * nat =>
              (pos + S k <= t.1)%nat /\ (t.1 < t.2 <= pos + length (c :: s))%nat
              /\ is_token (slice (t.1 - pos) (t.2 - pos) (c :: s)) = true)
           (tokens_from (S pos) k s)).
  { intros k. eapply Forall_impl; [apply (IH (S pos) k)|].
    intros [a b]. cbn [fst snd length]. intros (H1 & H2 & H3). repeat split; try lia.
    replace (a - pos)%nat with (S (a - S pos)) by lia.
    replace (b - pos)%nat with (S (b - S pos)) by lia. by rewrite slice_cons. }
  assert (Hskip : forall k,
    Forall (fun t : nat * nat =>
              (pos + 0 <= t.1)%nat /\ (t.1 < t.2 <= pos + length (c :: s))%nat
              /\ is_token (slice (t.1 - pos) (t.2 - pos) (c :: s)) = true)
           (tokens_from (S pos) k s)).
  { intros k. eapply Forall_impl; [apply (Hrest k)|]. simpl. intros t ?. intuition lia. }
  cbn [tokens_from]. destruct skip as [|k]; [|apply Hrest].
  destruct (token_len (c :: s)) as [[|k]|] eqn:Ht; [apply Hskip| |apply Hskip].
  constructor; [|apply Hskip].
  apply token_len_token in Ht as [Hk Htok]. cbn [fst snd]. repeat split; try lia.
  replace (pos - pos)%nat with O by lia.
  replace (pos + S k - pos)%nat with (S k) by lia.
  unfold slice. by rewrite drop_0, Nat.sub_0_r.
Qed.

Lemma tokens_from_sorted s : forall pos skip,
  StronglySorted (fun t1 t2 : nat * nat => (t1.2 <= t2.1)%nat) (tokens_from pos skip s).
Proof.
  induction s as [|c s IH]; intros pos skip; [constructor|].
  cbn [tokens_from]. destruct skip as [|k]; [|apply IH].
  destruct (token_len (c :: s)) as [[|k]|] eqn:Ht; [apply IH| |apply IH].
  constructor; [apply IH|].
  eapply Forall_impl; [apply (tokens_from_tokens s (S pos) k)|].
  cbn [fst snd]. intros t (H1 & _). lia.
Qed.

(** X2: the matches of [TOKEN_RE] in a text: each is a non-empty span of the
    text that starts with a letter and holds only letters, digits, hyphens
    and quotes, and the matches come in order and do not overlap. *)
Theorem tokens_spans (text : str) :
  Forall (fun t : nat * nat =>
            (t.1 < t.2 <= length text)%nat /\ is_token (slice t.1 t.2 text) = true)
         (tokens text)
  /\ StronglySorted (fun t1 t2 : nat * nat => (t1.2 <= t2.1)%nat) (tokens text).
Proof.
  split; [|apply tokens_from_sorted].
  eapply Forall_impl; [apply (tokens_from_tokens text 0 0)|].
  intros t (_ & H2 & H3). by rewrite !Nat.sub_0_r in H3.
Qed.

(** ** The dictionary pass as a whole *)

Section DictionaryPass.
Context {RT : PyRuntime}.

Lemma window_range_positive tr n index :
  (1 <= min_phrase_words tr)%Z -> Forall (fun w => 0 < w)%Z (window_range tr n index).
Proof.
  intros Hmin. apply Forall_forall. intros w Hw%range_down_elem. lia.
Qed.

Lemma dictionary_loop_returns tr text toks fuel : forall index cursor,
  (1 <= min_phrase_words tr)%Z ->
  exists out, dictionary_loop tr text toks fuel index cursor = Return out.
Proof.
  induction fuel as [|fuel IH]; intros index cursor Hmin; cbn [dictionary_loop]; [eauto|].
  destruct (index <? length toks)%nat; [|eauto].
  pose proof (find_best_match_spec tr text toks index _
                (window_range_positive tr (length toks) index Hmin)) as Hspec.
  destruct (find_best_match _ _ _ _ _) as [|s e r n|]; [by apply IH| |done].
  destruct (IH n e Hmin) as [rest ->]. rewrite bind_return. eauto.
Qed.

(** X3: the dictionary pass of a translator with [1 <= min_phrase_words]
    returns, and its loop has ended after [len(tokens)] rounds: more rounds
    change nothing. *)
Theorem apply_dictionary_returns (tr : ControlledTranslator) (text : str) :
  (1 <= min_phrase_words tr)%Z ->
  (exists out, _apply_dictionary tr text = Return out)
  /\ (forall fuel, (length (tokens text) <= fuel)%nat ->
        dictionary_loop tr text (tokens text) fuel 0 0 = _apply_dictionary tr text).
Proof.
  intros Hmin. rewrite apply_dictionary_loop. split.
  - by apply dictionary_loop_returns.
  - intros fuel Hfuel. apply dictionary_loop_fuel; lia.
Qed.

Lemma find_best_match_empty tr text toks index ws :
  dictionary_map tr = ∅ -> find_best_match tr text toks index ws = NoMatch.
Proof.
  intros Hd. induction ws as [|w ws IH]; [done|]. cbn [find_best_match].
  unfold lookup_phrase. rewrite Hd, !lookup_empty.
  destruct (w <=? 0)%Z; [done|]. by destruct (_tokens_are_space_separated _ _ _ _).
Qed.

Lemma dictionary_loop_empty tr text toks fuel : forall index cursor,
  dictionary_map tr = ∅ ->
  dictionary_loop tr text toks fuel index cursor = Return (drop cursor text).
Proof.
  induction fuel as [|fuel IH]; intros index cursor Hd; cbn [dictionary_loop]; [done|].
  destruct (index <? length toks)%nat; [|done].
  rewrite find_best_match_empty by done. by apply IH.
Qed.

Lemma apply_dictionary_empty tr text :
  dictionary_map tr = ∅ -> _apply_dictionary tr text = Return text.
Proof. intros Hd. rewrite apply_dictionary_loop. by rewrite dictionary_loop_empty. Qed.

Lemma restore_protect x :
  (forall index, (index < length (_protect x).2)%nat ->
     contains (placeholder index) x = false) ->
  _restore (_protect x).1 (_protect x).2 = x.
Proof.
  intros Hx. destruct (_protect x) as [out protected] eqn:Hp. cbn [fst snd] in *.
  rewrite protect_fold in Hp. unfold _restore.
  destruct (protect_fold_restore (length protected) protected _ _ _ _ _ Hp) as [Hres _];
    [|done|done|done].
  intros j [_ Hj]. by apply Hx.
Qed.

(** X4: a translator with no dictionary entry and no override returns every
    text as it is, provided the text holds none of the masks that
    [_protect] hands out for it. *)
Theorem translate_text_without_entries (tr : ControlledTranslator) (text : str) :
  dictionary_map tr = ∅ ->
  override_patterns tr = [] ->
  (forall index, (index < length (_protect text).2)%nat ->
     contains (placeholder index) text = false) ->
  translate_text tr text = Return text.
Proof.
  intros Hd Ho Hmask. unfold translate_text.
  destruct (negb _ || negb _); [done|].
  pose proof (restore_protect text Hmask) as Hr.
  destruct (_protect text) as [masked protected]. cbn [fst snd] in Hr.
  unfold _apply_overrides. rewrite Ho. cbn [apply_patterns]. rewrite bind_return.
  rewrite apply_dictionary_empty by done. by rewrite bind_return, Hr.
Qed.

End DictionaryPass.

(** ** The order of the override patterns *)

Section PatternOrder.
Context {RT : PyRuntime}.

Lemma insert_by_length_perm x l : insert_by_length x l ≡ₚ x :: l.
Proof.
  induction l as [|y l IH]; [done|]. cbn [insert_by_length].
  destruct (length y.1 <=? length x.1)%nat; [done|].
  rewrite IH. apply Permutation_swap.
Qed.

Lemma sorted_by_length_desc_perm l : sorted_by_length_desc l ≡ₚ l.
Proof.
  induction l as [|x l IH]; [done|]. cbn [sorted_by_length_desc foldr].
  rewrite insert_by_length_perm. by constructor.
Qed.

Lemma insert_by_length_sorted x l :
  StronglySorted no_longer l -> StronglySorted no_longer (insert_by_length x l).
Proof.
  induction 1 as [|y l Hl IH Hy]; cbn [insert_by_length].
  - by repeat constructor.
  - destruct (Nat.leb_spec (length y.1) (length x.1)) as [Hle|Hgt].
    + constructor; [by constructor|]. constructor; [done|].
      eapply Forall_impl; [exact Hy|]. unfold no_longer. intros z ?. lia.
    + constructor; [done|].
      rewrite insert_by_length_perm. constructor; [unfold no_longer; lia|done].
Qed.

Lemma sorted_by_length_desc_sorted l : StronglySorted no_longer (sorted_by_length_desc l).
Proof.
  induction l as [|x l IH]; [constructor|]. by apply insert_by_length_sorted.
Qed.

Lemma insert_by_length_stable n x l :
  filter (fun p : str * str => length p.1 = n) (insert_by_length x l)
  = filter (fun p : str * str => length p.1 = n) (x :: l).
Proof.
  induction l as [|y l IH]; [done|]. cbn [insert_by_length].
  destruct (Nat.leb_spec (length y.1) (length x.1)) as [Hle|Hgt]; [done|].
  rewrite filter_cons, IH, !filter_cons.
  destruct (decide (length y.1 = n)), (decide (length x.1 = n)); try done. lia.
Qed.

Lemma sorted_by_length_desc_stable n l :
  filter (fun p : str * str => length p.1 = n) (sorted_by_length_desc l)
  = filter (fun p : str * str => length p.1 = n) l.
Proof.
  induction l as [|x l IH]; [done|]. cbn [sorted_by_length_desc foldr].
  rewrite insert_by_length_stable, !filter_cons. fold (sorted_by_length_desc l).
  by rewrite IH.
Qed.

(** X5: the override patterns of a translator are the overrides with a
    non-blank source and a non-blank target, each source normalized, longest
    source first, and overrides whose sources are equally long in the order
    of the overrides map. *)
Theorem override_patterns_order (dictionary : gmap str str) (overrides : list (str * str))
    (min_words max_words : Z) :
  let kept := (fun item : str * str => (normalize_key item.1, item.2)) <$>
              filter (fun item : str * str =>
                        nonempty (strip item.1) && nonempty (strip item.2) = true)
                     overrides in
  let patterns := override_patterns (new_translator dictionary overrides min_words max_words) in
  patterns ≡ₚ kept
  /\ StronglySorted no_longer patterns
  /\ (forall n, filter (fun p : str * str => length p.1 = n) patterns
                = filter (fun p : str * str => length p.1 = n) kept).
Proof.
  intros kept patterns. split; [apply sorted_by_length_desc_perm|].
  split; [apply sorted_by_length_desc_sorted|].
  intros n. apply sorted_by_length_desc_stable.
Qed.

End PatternOrder.

(** ** Loading the dictionary *)

Lemma is_upper_range c : is_upper c = true -> 65 <= c <= 90.
Proof.
  unfold is_upper, in_range. intros [?%N.leb_le ?%N.leb_le]%andb_true_iff. lia.
Qed.

Lemma lower_of_upper c :
  is_upper c = true -> is_lower (c + 32) = true /\ is_upper (c + 32) = false.
Proof.
  intros Hc%is_upper_range. unfold is_lower, is_upper, in_range. split.
  - apply andb_true_iff. rewrite !N.leb_le. lia.
  - apply andb_false_iff. rewrite !N.leb_gt. lia.
Qed.

Lemma is_space_ascii_lower c : is_space (ascii_lower c) = is_space c.
Proof.
  unfold ascii_lower. destruct (is_upper c) eqn:Hc; [|done].
  destruct (lower_of_upper c Hc) as [Hl _].
  rewrite !is_letter_not_space; [done| |]; unfold is_letter.
  - by rewrite Hc.
  - by rewrite Hl, orb_true_r.
Qed.

Lemma space_ascii_lower c : (ascii_lower c =? 32) = (c =? 32).
Proof.
  unfold ascii_lower. destruct (is_upper c) eqn:Hc; [|done].
  apply is_upper_range in Hc.
  transitivity false; [|symmetry]; apply N.eqb_neq; lia.
Qed.

Lemma tidy_ascii_lower b s : tidy b (map ascii_lower s) = tidy b s.
Proof.
  revert b. induction s as [|c s IH]; intros b; [done|]. cbn [map tidy].
  by rewrite is_space_ascii_lower, space_ascii_lower, !IH.
Qed.

Lemma single_spaced_ascii_lower s : single_spaced (map ascii_lower s) = single_spaced s.
Proof.
  unfold single_spaced. change (map ascii_lower s) with (ascii_lower <$> s).
  rewrite <- fmap_reverse. change (ascii_lower <$> ?x) with (map ascii_lower x).
  by rewrite !tidy_ascii_lower.
Qed.

Lemma ascii_lower_idem c : ascii_lower (ascii_lower c) = ascii_lower c.
Proof.
  unfold ascii_lower at 2 3. destruct (is_upper c) eqn:Hc.
  - destruct (lower_of_upper c Hc) as [_ Hu]. unfold ascii_lower. by rewrite Hu.
  - unfold ascii_lower. by rewrite Hc.
Qed.

Lemma is_ascii_lower c : is_ascii c = true -> is_ascii (ascii_lower c) = true.
Proof.
  unfold ascii_lower. destruct (is_upper c) eqn:Hc; [|done].
  apply is_upper_range in Hc. intros _. unfold is_ascii. apply N.ltb_lt. lia.
Qed.

Lemma is_alnum_ascii_lower c : is_alnum c = true -> is_alnum (ascii_lower c) = true.
Proof.
  unfold ascii_lower. destruct (is_upper c) eqn:Hc; [|done]. intros _.
  destruct (lower_of_upper c Hc) as [Hl _].
  unfold is_alnum, is_letter. by rewrite Hl, orb_true_r.
Qed.

Lemma is_term_char_ascii_lower c : is_term_char c = true -> is_term_char (ascii_lower c) = true.
Proof.
  intros Hc. destruct (is_upper c) eqn:Hu.
  - unfold is_term_char. rewrite is_alnum_ascii_lower; [done|].
    unfold is_alnum, is_letter. by rewrite Hu.
  - unfold ascii_lower. by rewrite Hu.
Qed.

Section Loading.
Context {RT : PyRuntime}.

Lemma lower_ascii s : forallb is_ascii s = true -> lower s = map ascii_lower s.
Proof. intros H. unfold lower. by rewrite H. Qed.

Lemma plain_term_lower s :
  is_plain_english_term s = true -> is_plain_english_term (map ascii_lower s) = true.
Proof.
  destruct s as [|c r]; [done|]. cbn [is_plain_english_term map].
  intros [[Hc Hr]%andb_true_iff Hn]%andb_true_iff.
  rewrite is_alnum_ascii_lower by done. rewrite length_map, Hn, andb_true_r. cbn [andb].
  rewrite forallb_forall in Hr. apply forallb_forall. intros x [y [<- Hy]]%in_map_iff.
  by apply is_term_char_ascii_lower, Hr.
Qed.

(** The key of a source phrase that is normalized and a plain English term. *)
Lemma plain_term_key source target :
  single_spaced source = true ->
  is_plain_english_term source = true ->
  single_spaced target = true -> target <> [] ->
  entry_ok (normalize_key source) target.
Proof.
  intros Hs Hp Ht Hne.
  pose proof (plain_term_ascii _ Hp) as Ha.
  assert (Hkey : normalize_key source = map ascii_lower source).
  { unfold normalize_key. rewrite (normalize_single_spaced _ Hs). by apply lower_ascii. }
  rewrite Hkey. repeat split; [by apply plain_term_lower| |done|by apply normalize_single_spaced].
  unfold normalize_key.
  rewrite normalize_single_spaced by by rewrite single_spaced_ascii_lower.
  rewrite lower_ascii.
  - rewrite map_map. apply map_ext. intros c. apply ascii_lower_idem.
  - rewrite forallb_forall in Ha. apply forallb_forall.
    intros x [y [<- Hy]]%in_map_iff. by apply is_ascii_lower, Ha.
Qed.

Lemma nonempty_true s : nonempty s = true <-> s <> [].
Proof. by destruct s. Qed.

Lemma load_dictionary_line_cases mapping line mapping' :
  load_dictionary_line mapping line = Return mapping' ->
  mapping' = mapping
  \/ exists key target, mapping !! key = None /\ entry_ok key target
                        /\ mapping' = <[key := target]> mapping.
Proof.
  unfold load_dictionary_line.
  destruct (negb (nonempty (strip line))); [intros [= <-]; by left|].
  destruct (json_loads (strip line)) as [[| | | | | |record]|]; try done.
  destruct (negb (is_str _ _)); [intros [= <-]; by left|].
  destruct (in_target_langs _) as [wanted|]; [|done]. rewrite bind_return.
  destruct (negb wanted); [intros [= <-]; by left|].
  set (source := normalize_spaces _). set (target := normalize_spaces _).
  destruct (negb (nonempty source) || negb (nonempty target)) eqn:Hne; [intros [= <-]; by left|].
  destruct (negb (is_plain_english_term source)) eqn:Hp; [intros [= <-]; by left|].
  destruct (mapping !! normalize_key source) eqn:Hk; intros [= <-]; [by left|].
  right. exists (normalize_key source), target. split; [done|]. split; [|done].
  apply orb_false_iff in Hne as [_ Hne%negb_false_iff].
  apply negb_false_iff in Hp.
  apply plain_term_key; [apply single_spaced_normalize|done|apply single_spaced_normalize|].
  by apply nonempty_true.
Qed.

Lemma load_dictionary_from_entries file_lines : forall mapping mapping',
  load_dictionary_from mapping file_lines = Return mapping' ->
  mapping ⊆ mapping'
  /\ (map_Forall (fun key target => entry_ok key target) mapping ->
      map_Forall (fun key target => entry_ok key target) mapping').
Proof.
  induction file_lines as [|line rest IH]; intros m m'; cbn [load_dictionary_from].
  - by intros [= <-].
  - destruct (load_dictionary_line m line) as [m1|] eqn:E; [|done]. rewrite bind_return.
    intros [Hsub Hok]%IH.
    apply load_dictionary_line_cases in E as [->|(key & target & Hnone & Hentry & ->)]; [done|].
    split.
    + etrans; [|exact Hsub]. by apply insert_subseteq.
    + intros Hm. apply Hok. by apply map_Forall_insert_2.
Qed.

Lemma load_dictionary_from_app l1 l2 mapping :
  load_dictionary_from mapping (l1 ++ l2)
  = (m ← load_dictionary_from mapping l1; load_dictionary_from m l2).
Proof.
  revert mapping. induction l1 as [|line l1 IH]; intros mapping; [done|].
  cbn [app load_dictionary_from].
  destruct (load_dictionary_line mapping line) as [m1|]; [|done].
  rewrite !bind_return. apply IH.
Qed.

(** X6: every entry of the dictionary that [load_dictionary] returns has a key
    that is a plain English term in the form [normalize_key] gives, and a
    target that is not empty and has its white space normalized. *)
Theorem load_dictionary_entries (file_lines : list str) (mapping : gmap str str)
    (key target : str) :
  load_dictionary file_lines = Return mapping ->
  mapping !! key = Some target ->
  is_plain_english_term key = true /\ normalize_key key = key
  /\ target <> [] /\ normalize_spaces target = target.
Proof.
  intros Hload Hkey. apply load_dictionary_from_entries in Hload as [_ Hok].
  apply (Hok (map_Forall_empty _) key target Hkey).
Qed.

(** X7: the first record of a key wins: the entries loaded from the first lines
    of a file are entries of the dictionary loaded from the whole file. *)
Theorem load_dictionary_first_wins (earlier later : list str) (first whole : gmap str str) :
  load_dictionary earlier = Return first ->
  load_dictionary (earlier ++ later) = Return whole ->
  first ⊆ whole.
Proof.
  unfold load_dictionary. intros H1 H2. rewrite load_dictionary_from_app, H1 in H2.
  rewrite bind_return in H2. by apply load_dictionary_from_entries in H2 as [? _].
Qed.

(** X8: loading stops at the first line that is not blank and not a JSON
    object: with [json.JSONDecodeError] when the line does not parse (and
    with whatever else [json.loads] raises on it), with [AttributeError]
    when it parses to another value. *)
Theorem load_dictionary_malformed_line (earlier later : list str) (line : str)
    (first : gmap str str) :
  load_dictionary earlier = Return first ->
  strip line <> [] ->
  (json_loads (strip line) = Raise JSONDecodeError ->
   load_dictionary (earlier ++ line :: later) = Raise JSONDecodeError)
  /\ (forall e, json_loads (strip line) = Raise e ->
      load_dictionary (earlier ++ line :: later) = Raise e)
  /\ (forall v, json_loads (strip line) = Return v -> is_object v = false ->
      load_dictionary (earlier ++ line :: later) = Raise AttributeError).
Proof.
  unfold load_dictionary. intros H1 Hne%nonempty_true.
  rewrite load_dictionary_from_app, H1, bind_return. cbn [load_dictionary_from].
  unfold load_dictionary_line. rewrite Hne. cbn [negb]. repeat split.
  - by intros ->.
  - by intros e ->.
  - intros v -> Hv. by destruct v.
Qed.

End Loading.

(** ** Lines and the main loop *)

Lemma ends_with_newline_app (s : str) : ends_with [10] (s ++ [10]) = true.
Proof. unfold ends_with. by rewrite reverse_app. Qed.

Lemma existsb_drop_while_false (q p : N -> bool) s :
  existsb q s = false -> existsb q (drop_while p s) = false.
Proof.
  induction s as [|c s IH]; [done|]. simpl. destruct (p c); [|done].
  intros [_ H]%orb_false_iff. by apply IH.
Qed.

Lemma rstrip_newlines_body (body : str) :
  last body <> Some 10 ->
  rstrip_newlines body = body /\ rstrip_newlines (body ++ [10]) = body.
Proof.
  intros Hlast. unfold rstrip_newlines.
  assert (E : drop_while (N.eqb 10) (reverse body) = reverse body).
  { rewrite <- (reverse_involutive body) in Hlast.
    destruct (reverse body) as [|c r]; [done|]. rewrite reverse_cons, last_snoc in Hlast.
    cbn [drop_while]. destruct (N.eqb_spec 10 c) as [<-|]; [done|done]. }
  split.
  - rewrite E. apply reverse_involutive.
  - rewrite reverse_app.
    change (drop_while (N.eqb 10) (reverse [10] ++ reverse body))
      with (drop_while (N.eqb 10) (reverse body)).
    rewrite E. apply reverse_involutive.
Qed.

Lemma ends_with_newline_body (body : str) :
  last body <> Some 10 -> ends_with [10] body = false.
Proof.
  intros Hlast. unfold ends_with. rewrite <- (reverse_involutive body) in Hlast.
  destruct (reverse body) as [|c r]; [done|]. rewrite reverse_cons, last_snoc in Hlast.
  change (starts_with (reverse [10]) (c :: r)) with ((10 =? c) && true).
  destruct (N.eqb_spec 10 c) as [<-|]; [done|done].
Qed.

Section LineAccounting.
Context {RT : PyRuntime}.

Lemma has_english_rstrip_newlines line :
  has_english line = false -> has_english (rstrip_newlines line) = false.
Proof.
  unfold has_english, rstrip_newlines. intros H.
  rewrite existsb_reverse. apply existsb_drop_while_false. by rewrite existsb_reverse.
Qed.


Lemma process_line_counted line tr bufs mode dm stats out bufs' stats' :
  process_line line tr bufs mode dm stats = Return (out, bufs', stats') ->
  counted_once stats stats'
  /\ (ends_with [10] line = true -> ends_with [10] out = true).
Proof.
  unfold process_line, counted_once.
  set (newline := if ends_with [10] line then [10] else []).
  assert (Hnl : forall s : str, ends_with [10] line = true -> ends_with [10] (s ++ newline) = true).
  { intros s Hl. unfold newline. rewrite Hl. apply ends_with_newline_app. }
  assert (Htext : forall r,
    match mode with
    | jsonl => Return (line, bufs,
                       {| lines := S (lines stats);
                          translated_strings := translated_strings stats;
                          json_records := json_records stats |})
    | _ => translated_text ← translate_text tr (rstrip_newlines line);
           Return (translated_text ++ newline, bufs,
                   {| lines := S (lines stats);
                      translated_strings :=
                        if bool_decide (translated_text = rstrip_newlines line)
                        then translated_strings stats else S (translated_strings stats);
                      json_records := json_records stats |})
    end = Return r ->
    (lines r.2 = S (lines stats)
     /\ (translated_strings stats <= translated_strings r.2 <= S (translated_strings stats))%nat
     /\ (json_records stats <= json_records r.2 <= S (json_records stats))%nat)
    /\ (ends_with [10] line = true -> ends_with [10] r.1.1 = true)).
  { intros r. destruct mode.
    - destruct (translate_text tr _) as [t|]; [|done]. rewrite bind_return. intros [= <-].
      cbn [fst snd lines translated_strings json_records].
      split; [|by apply Hnl]. destruct (bool_decide _); lia.
    - intros [= <-]. cbn. split; [lia|done].
    - destruct (translate_text tr _) as [t|]; [|done]. rewrite bind_return. intros [= <-].
      cbn [fst snd lines translated_strings json_records].
      split; [|by apply Hnl]. destruct (bool_decide _); lia. }
  cbv zeta. fold newline.
  destruct (match mode with text => false | _ => _ end).
  - destruct (json_loads _) as [parsed|e];
      [|destruct e; try done; intros H; apply (Htext _ H)].
    destruct (translate_json_node _ _ _ _ _ _ _) as [[translated bufs1]|]; [|done].
    rewrite bind_return. intros [= <- <- <-].
    cbn [lines translated_strings json_records].
    split; [|by apply Hnl]. destruct (bool_decide _); lia.
  - intros H. apply (Htext _ H).
Qed.

(** X9: a call of [process_line] that returns has counted the line once,
    as at most one translated line and at most one JSON record, and its
    text ends with a newline when the line does. *)
Theorem process_line_accounting (line : str) (tr : ControlledTranslator) (bufs : buffers)
    (mode : Mode) (dm : DeltaMode) (stats : TranslationStats)
    (out : str) (bufs' : buffers) (stats' : TranslationStats) :
  process_line line tr bufs mode dm stats = Return (out, bufs', stats') ->
  lines stats' = S (lines stats)
  /\ (translated_strings stats <= translated_strings stats' <= S (translated_strings stats))%nat
  /\ (json_records stats <= json_records stats' <= S (json_records stats))%nat
  /\ (ends_with [10] line = true -> ends_with [10] out = true).
Proof.
  intros H. apply process_line_counted in H as [(H1 & H2 & H3) H4]. done.
Qed.

Lemma translate_text_no_english tr text :
  has_english text = false -> translate_text tr text = Return text.
Proof. intros H. unfold translate_text. by rewrite H, orb_true_r. Qed.

(** X10: a line with no ASCII letter is not translated as text: in text
    mode, and in auto mode when it does not look like JSON, [process_line]
    returns it without the newlines at its end but one, with the buffers as
    they were; that is the line itself when it ends with at most one
    newline. *)
Theorem process_line_passes_through (line : str) (tr : ControlledTranslator) (bufs : buffers)
    (mode : Mode) (dm : DeltaMode) (stats : TranslationStats) :
  has_english line = false ->
  mode = text \/ (mode = auto /\ looks_like_json (rstrip_newlines line) = false) ->
  process_line line tr bufs mode dm stats
  = Return (rstrip_newlines line ++ (if ends_with [10] line then [10] else []), bufs,
            count_line stats)
  /\ (forall body, last body <> Some 10 -> line = body \/ line = body ++ [10] ->
      process_line line tr bufs mode dm stats = Return (line, bufs, count_line stats)).
Proof.
  intros Heng Hmode.
  assert (E : process_line line tr bufs mode dm stats
    = Return (rstrip_newlines line ++ (if ends_with [10] line then [10] else []), bufs,
              count_line stats)).
  { unfold process_line, looks_like_json in *.
    rewrite (translate_text_no_english tr _ (has_english_rstrip_newlines _ Heng)).
    destruct Hmode as [->|[-> ->]]; rewrite bind_return, bool_decide_eq_true_2 by done; done. }
  split; [exact E|]. intros body Hlast Hline. rewrite E.
  destruct (rstrip_newlines_body body Hlast) as [E1 E2].
  destruct Hline as [->| ->].
  - by rewrite E1, ends_with_newline_body, app_nil_r.
  - by rewrite E2, ends_with_newline_app.
Qed.

Lemma process_lines_counted tr mode dm input : forall bufs stats outs bufs' stats',
  process_lines tr mode dm input bufs stats = Return (outs, bufs', stats') ->
  Forall2 (fun line out : str => ends_with [10] line = true -> ends_with [10] out = true)
          input outs
  /\ lines stats' = (lines stats + length input)%nat
  /\ (translated_strings stats <= translated_strings stats'
      <= translated_strings stats + length input)%nat
  /\ (json_records stats <= json_records stats' <= json_records stats + length input)%nat.
Proof.
  induction input as [|line rest IH]; intros bufs stats outs bufs' stats'; cbn [process_lines].
  - intros [= <- <- <-]. cbn [length]. repeat split; try lia. constructor.
  - destruct (process_line line tr bufs mode dm stats) as [[[out bufs1] stats1]|] eqn:E; [|done].
    rewrite bind_return. destruct (stdout_encodes out); [|done].
    destruct (process_lines tr mode dm rest bufs1 stats1) as [[[outs1 bufs2] stats2]|] eqn:E2;
      [|done].
    rewrite bind_return. intros [= <- <- <-].
    apply process_line_counted in E as [(H1 & H2 & H3) H4].
    apply IH in E2 as (G0 & G1 & G2 & G3). cbn [length].
    repeat split; try lia. by constructor.
Qed.

(** X11: when [main] returns it has written one text for each line of the
    input, in order, each ending with a newline when its line does, and its
    counters say so: [lines] is the number of lines read, and neither
    [translated_strings] nor [json_records] exceeds it. *)
Theorem main_writes_every_line (dictionary_lines : list str) (overrides_file : option str)
    (arg_min arg_max : Z) (mode : Mode) (dm : DeltaMode) (input outs : list str)
    (stats : TranslationStats) :
  main dictionary_lines overrides_file arg_min arg_max mode dm input = Return (outs, stats) ->
  Forall2 (fun line out : str => ends_with [10] line = true -> ends_with [10] out = true)
          input outs
  /\ lines stats = length input
  /\ (translated_strings stats <= length input)%nat
  /\ (json_records stats <= length input)%nat.
Proof.
  unfold main.
  destruct (load_dictionary dictionary_lines) as [dictionary_map|]; [|done].
  rewrite bind_return.
  destruct (load_overrides overrides_file) as [overrides|]; [|done]. rewrite bind_return.
  destruct (process_lines _ _ _ _ _ _) as [[[outs1 bufs1] stats1]|] eqn:E; [|done].
  rewrite bind_return. intros [= <- <-].
  apply process_lines_counted in E as (G0 & G1 & G2 & G3). cbn in G1, G2, G3.
  repeat split; try done; lia.
Qed.

End LineAccounting.

(** ** The JSON walker *)


Section Walker.
Context {RT : PyRuntime}.

Lemma should_translate_field_keys key event_type path :
  should_translate_field key event_type path = true -> mem key TRANSLATED_KEYS = true.
Proof.
  unfold should_translate_field, mem, TRANSLATED_KEYS, TEXT_KEYS,
    TARGET_STATUS_KEYS, TARGET_REASONING_KEYS.
  intros H. apply bool_decide_eq_true. rewrite !elem_of_app.
  repeat (apply orb_true_iff in H as [H|H]).
  - apply bool_decide_eq_true in H. by left.
  - destruct (truthy_str event_type) as [t|]; [|done].
    apply orb_true_iff in H as [[_ H]%andb_true_iff|[_ H]%andb_true_iff];
      apply bool_decide_eq_true in H.
    + by right.
    + right. rewrite !elem_of_cons in *. tauto.
  - apply bool_decide_eq_true in H. left. rewrite !elem_of_cons in *. tauto.
  - apply andb_true_iff in H as [_ H]. apply bool_decide_eq_true in H.
    right. rewrite !elem_of_cons in *. tauto.
Qed.

Lemma translate_field_spec tr dm rid net path key value bufs v' bufs1 :
  (forall inherited path bufs r bufs',
     translate_json_node tr dm rid value inherited path bufs = Return (r, bufs') ->
     same_shape value r /\ (forall k, untouched dm rid k -> bufs' !! k = bufs !! k)) ->
  translate_field tr dm rid net path key value bufs = Return (v', bufs1) ->
  (same_shape value v'
   \/ (mem key TRANSLATED_KEYS = true /\ is_string value /\ is_string v'))
  /\ (forall k, untouched dm rid k -> bufs1 !! k = bufs !! k).
Proof.
  intros Hvalue. unfold translate_field.
  destruct value as [| | | |s| |];
    try (intros Hv; apply Hvalue in Hv as [? ?]; split; [by left|done]).
  destruct (should_translate_field key net path) eqn:Hf;
    [|intros [= <- <-]; split; [left; constructor|done]].
  apply should_translate_field_keys in Hf.
  destruct (should_expand_delta dm key net rid) eqn:Hx.
  - unfold rewrite_to_full_buffer.
    destruct (translate_text tr _) as [out|]; [|done]. rewrite !bind_return.
    intros [= <- <-]. split; [right; repeat split; eauto; by eexists|].
    intros k Hk. unfold should_expand_delta in Hx.
    destruct dm; [|done]. destruct net as [t|]; [|done].
    destruct rid as [record_id|]; [|done]. cbn [untouched default] in *.
    apply lookup_insert_ne. intros <-.
    by rewrite stream_key_prefix in Hk.
  - destruct (translate_text tr s) as [out|]; [|done]. rewrite bind_return.
    intros [= <- <-]. split; [right; repeat split; eauto; by eexists|done].
Qed.

Lemma translate_json_node_spec tr dm rid node :
  forall inherited path bufs res bufs',
    translate_json_node tr dm rid node inherited path bufs = Return (res, bufs') ->
    same_shape node res
    /\ (forall k, untouched dm rid k -> bufs' !! k = bufs !! k).
Proof.
  induction node as [|b0|z0|fl0|s0|items IH|fields IH] using json_nested_ind;
    intros inherited path bufs res bufs'; cbn [translate_json_node];
    try (intros [= <- <-]; split; [constructor|done]).
  - (* a list *)
    set (net := event_type_or (JArr items) inherited). clearbody net.
    match goal with |- context [ ?f items bufs ] => set (each := f) end.
    assert (Hnil : forall b, each [] b = Return ([], b)) by reflexivity.
    assert (Hcons : forall item rest b,
      each (item :: rest) b
      = ('(item', bufs1) ← translate_json_node tr dm rid item net path b;
         '(rs, bufs2) ← each rest bufs1;
         Return (item' :: rs, bufs2))) by reflexivity.
    clearbody each.
    assert (Heach : forall bufs rs bufs',
      each items bufs = Return (rs, bufs') ->
      Forall2 same_shape items rs
      /\ (forall k, untouched dm rid k -> bufs' !! k = bufs !! k)).
    { clear bufs res bufs'. induction IH as [|item rest Hitem _ IHrest];
        intros bufs rs bufs'.
      - rewrite Hnil. intros [= <- <-]. split; [constructor|done].
      - rewrite Hcons.
        destruct (translate_json_node tr dm rid item net path bufs) as [[item' bufs1]|] eqn:E;
          [|done].
        rewrite bind_return.
        destruct (each rest bufs1) as [[rs' bufs2]|] eqn:E2; [|done].
        rewrite bind_return. intros [= <- <-].
        apply Hitem in E as [S1 F1]. apply IHrest in E2 as [S2 F2].
        split; [by constructor|]. intros k Hk. by rewrite F2, F1. }
    destruct (each items bufs) as [[rs bufs1]|] eqn:E; [|done].
    rewrite bind_return. intros [= <- <-]. apply Heach in E as [S F].
    split; [by constructor|done].
  - (* a dict *)
    set (net := event_type_or (JObj fields) inherited). clearbody net.
    match goal with |- context [ ?f fields bufs ] => set (loop := f) end.
    assert (Hnil : forall b, loop [] b = Return ([], b)) by reflexivity.
    assert (Hcons : forall key value rest b,
      loop ((key, value) :: rest) b
      = ('(value', bufs1) ← translate_field tr dm rid net path key value b;
         '(rs, bufs2) ← loop rest bufs1;
         Return ((key, value') :: rs, bufs2))) by reflexivity.
    clearbody loop.
    assert (Hloop : forall bufs rs bufs',
      loop fields bufs = Return (rs, bufs') ->
      Forall2 (fun f g : str * json =>
                 f.1 = g.1
                 /\ (same_shape f.2 g.2
                     \/ (mem f.1 TRANSLATED_KEYS = true /\ is_string f.2 /\ is_string g.2)))
              fields rs
      /\ (forall k, untouched dm rid k -> bufs' !! k = bufs !! k)).
    { clear bufs res bufs'. induction IH as [|[key value] rest Hvalue _ IHrest];
        intros bufs rs bufs'.
      - rewrite Hnil. intros [= <- <-]. split; [constructor|done].
      - rewrite Hcons. cbn [snd] in Hvalue.
        destruct (translate_field tr dm rid net path key value bufs) as [[v' bufs1]|] eqn:E;
          [|done].
        rewrite bind_return.
        destruct (loop rest bufs1) as [[rs' bufs2]|] eqn:E2; [|done].
        rewrite bind_return. intros [= <- <-].
        apply (translate_field_spec _ _ _ _ _ _ _ _ _ _ Hvalue) in E as [S1 F1].
        apply IHrest in E2 as [S2 F2].
        split; [by constructor|]. intros k Hk. by rewrite F2, F1. }
    destruct (loop fields bufs) as [[rs bufs1]|] eqn:E; [|done].
    rewrite bind_return. intros [= <- <-]. apply Hloop in E as [S F].
    split; [by constructor|done].
Qed.

(** X12: [translate_json_node] returns the value it was given but for
    string values of dicts under one of the ten translated keys: the same
    keys in the same order, the same list lengths, and every other value
    untouched. *)
Theorem translate_json_node_keeps_shape (tr : ControlledTranslator) (dm : DeltaMode)
    (rid : option str) (node : json) (inherited : option str) (path : list str)
    (bufs : buffers) (res : json) (bufs' : buffers) :
  translate_json_node tr dm rid node inherited path bufs = Return (res, bufs') ->
  same_shape node res.
Proof. intros H. by apply translate_json_node_spec in H as [? _]. Qed.

(** X13: [process_line] leaves every buffer as it was but those whose key
    starts with the record id of the line and a bar, and those only in
    full-buffer mode outside text mode; in chunk mode and in text mode the
    buffers are not changed at all. *)
Theorem process_line_buffers_frame (line : str) (tr : ControlledTranslator) (bufs : buffers)
    (mode : Mode) (dm : DeltaMode) (stats : TranslationStats)
    (out : str) (bufs' : buffers) (stats' : TranslationStats) :
  process_line line tr bufs mode dm stats = Return (out, bufs', stats') ->
  (forall k, untouched dm (line_record_id line) k -> bufs' !! k = bufs !! k)
  /\ (dm = chunk \/ mode = text -> bufs' = bufs).
Proof.
  intros Hline.
  assert (Hframe : forall k,
    mode = text \/ untouched dm (line_record_id line) k -> bufs' !! k = bufs !! k).
  { intros k Hk. revert Hline. unfold process_line, line_record_id in *.
    assert (Htext : forall res,
      match mode with
      | jsonl => Return (line, bufs,
                         {| lines := S (lines stats);
                            translated_strings := translated_strings stats;
                            json_records := json_records stats |})
      | _ => translated_text ← translate_text tr (rstrip_newlines line);
             Return (translated_text ++ (if ends_with [10] line then [10] else []), bufs,
                     {| lines := S (lines stats);
                        translated_strings :=
                          if bool_decide (translated_text = rstrip_newlines line)
                          then translated_strings stats else S (translated_strings stats);
                        json_records := json_records stats |})
      end = Return res -> res.1.2 = bufs).
    { intros res. destruct mode; [|by intros [= <-]|];
        (destruct (translate_text tr _); [|done]); rewrite bind_return; by intros [= <-]. }
    cbv zeta.
    destruct (match mode with text => false | _ => _ end) eqn:Htry.
    - destruct Hk as [->|Hk]; [done|].
      destruct (json_loads _) as [parsed|e];
        [|destruct e; try done; intros H; apply Htext in H; cbn in H; by rewrite H].
      destruct (translate_json_node _ _ _ _ _ _ _) as [[translated bufs1]|] eqn:E; [|done].
      rewrite bind_return. intros [= <- <- <-].
      apply translate_json_node_spec in E as [_ F]. rewrite (F k Hk).
      destruct dm; [|done]. destruct (extract_record_id parsed) as [record_id|]; [|done].
      destruct (detect_event_type parsed) as [t|]; [|done].
      destruct (mem t RESET_EVENT_TYPES); [|done].
      cbn [untouched] in Hk. by rewrite clear_by_record_id_lookup, Hk.
    - intros H. apply Htext in H. cbn in H. by rewrite H. }
  split; [intros k Hk; apply Hframe; by right|].
  intros Hno. apply map_eq. intros k. apply Hframe.
  destruct Hno as [-> | ->]; [right|by left]. done.
Qed.

End Walker.

Section LineOutput.
Context {RT : PyRuntime}.

(** X18: the text [process_line] returns is the line itself, or the
    translation of the line without its newlines, or the encoding of the
    JSON value of the line with only strings under translated keys changed;
    the line is counted as a JSON record in the last case and in no other.
    The line itself is returned only in jsonl mode, a JSON value is encoded
    only outside text mode. *)
Theorem process_line_output (line : str) (tr : ControlledTranslator) (bufs : buffers)
    (mode : Mode) (dm : DeltaMode) (stats : TranslationStats)
    (out : str) (bufs' : buffers) (stats' : TranslationStats) :
  process_line line tr bufs mode dm stats = Return (out, bufs', stats') ->
  let content := rstrip_newlines line in
  let newline := if ends_with [10] line then [10] else [] in
  (json_records stats' = json_records stats
   /\ ((mode = jsonl /\ out = line)
       \/ (mode <> jsonl /\ exists translated,
             translate_text tr content = Return translated /\ out = translated ++ newline)))
  \/ (json_records stats' = S (json_records stats) /\ mode <> text
      /\ looks_like_json content = true
      /\ exists parsed translated,
           json_loads content = Return parsed /\ same_shape parsed translated
           /\ out = json_dumps translated ++ newline).
Proof.
  intros Hline content newline. revert Hline. unfold process_line, looks_like_json.
  fold content. fold newline.
  assert (Htext : forall res,
    match mode with
    | jsonl => Return (line, bufs,
                       {| lines := S (lines stats);
                          translated_strings := translated_strings stats;
                          json_records := json_records stats |})
    | _ => translated_text ← translate_text tr content;
           Return (translated_text ++ newline, bufs,
                   {| lines := S (lines stats);
                      translated_strings :=
                        if bool_decide (translated_text = content)
                        then translated_strings stats else S (translated_strings stats);
                      json_records := json_records stats |})
    end = Return res ->
    json_records res.2 = json_records stats
    /\ ((mode = jsonl /\ res.1.1 = line)
        \/ (mode <> jsonl /\ exists translated,
              translate_text tr content = Return translated
              /\ res.1.1 = translated ++ newline))).
  { intros res. destruct mode.
    - destruct (translate_text tr content) as [t|]; [|done]. rewrite bind_return.
      intros [= <-]. split; [done|]. right. split; [done|]. by exists t.
    - intros [= <-]. split; [done|]. by left.
    - destruct (translate_text tr content) as [t|]; [|done]. rewrite bind_return.
      intros [= <-]. split; [done|]. right. split; [done|]. by exists t. }
  cbv zeta.
  destruct (match mode with text => false | _ => _ end) eqn:Htry.
  - destruct (json_loads content) as [parsed|e] eqn:Hp;
      [|destruct e; try done; intros H; left; apply (Htext _ H)].
    destruct (translate_json_node _ _ _ _ _ _ _) as [[translated bufs1]|] eqn:E; [|done].
    rewrite bind_return. intros [= <- <- <-]. right.
    apply translate_json_node_spec in E as [Hshape _].
    repeat split; [by destruct mode|by destruct mode|]. by exists parsed, translated.
  - intros H. left. apply (Htext _ H).
Qed.

End LineOutput.

(** ** Feeding the accumulator *)

Section Feeding.
Context {RT : PyRuntime}.

Lemma feed_spec tr stream_key deltas : forall bufs old outs bufs',
  old = default [] (bufs !! stream_key) ->
  feed tr stream_key deltas bufs = Return (outs, bufs') ->
  length outs = length deltas
  /\ (forall i out, outs !! i = Some out ->
        translate_text tr (old ++ concat (take (S i) deltas)) = Return out)
  /\ bufs' = match deltas with
             | [] => bufs
             | _ => <[stream_key := old ++ concat deltas]> bufs
             end.
Proof.
  induction deltas as [|delta rest IH]; intros bufs old outs bufs' Hold; cbn [feed].
  - intros [= <- <-]. by repeat split.
  - unfold rewrite_to_full_buffer. rewrite <- Hold.
    destruct (translate_text tr _) as [out|] eqn:Hout; [|done]. rewrite !bind_return.
    destruct (feed tr stream_key rest _) as [[outs1 bufs2]|] eqn:Hrest; [|done].
    rewrite bind_return. intros [= <- <-].
    apply (IH _ (old ++ delta)) in Hrest as (Hlen & Houts & Hbufs);
      [|by rewrite lookup_insert_eq].
    split; [cbn [length]; by rewrite Hlen|]. split.
    + intros [|i] o.
      * intros [= <-]. cbn [take concat]. by rewrite take_0, app_nil_r.
      * intros Ho. apply Houts in Ho. cbn [take concat]. by rewrite app_assoc.
    + rewrite Hbufs. cbn [concat]. destruct rest as [|d rest'].
      * by rewrite app_nil_r.
      * by rewrite insert_insert_eq, app_assoc.
Qed.

(** X14: fragments fed one after the other to [rewrite_to_full_buffer]
    for one stream key are joined: each call returns the translation of the
    buffer the key had before, followed by all the fragments fed so far; the
    key's buffer ends as that whole text, and the buffers of the other keys
    stay as they were. *)
Theorem accumulator_joins_fragments (tr : ControlledTranslator) (stream_key : str)
    (deltas : list str) (bufs : buffers) (outs : list str) (bufs' : buffers) :
  feed tr stream_key deltas bufs = Return (outs, bufs') ->
  let old := default [] (bufs !! stream_key) in
  length outs = length deltas
  /\ (forall i out, outs !! i = Some out ->
        translate_text tr (old ++ concat (take (S i) deltas)) = Return out)
  /\ (deltas <> [] -> bufs' !! stream_key = Some (old ++ concat deltas))
  /\ (forall k, k <> stream_key -> bufs' !! k = bufs !! k).
Proof.
  intros Hfeed old.
  destruct (feed_spec _ _ _ _ old _ _ eq_refl Hfeed) as (Hlen & Houts & Hbufs).
  rewrite Hbufs. repeat split; [done|done| |].
  - destruct deltas; [done|]. intros _. apply lookup_insert_eq.
  - intros k Hk. destruct deltas; [done|]. by apply lookup_insert_ne.
Qed.

End Feeding.

(** ** Override templates *)

Section BadTemplate.
Context {RT : PyRuntime}.

Lemma apply_patterns_bad_template patterns : forall out,
  Exists (fun item : str * str => compile_template item.2 = Raise ReError) patterns ->
  apply_patterns patterns out = Raise ReError.
Proof.
  induction patterns as [|[source replacement] ps IH]; intros out Hbad.
  - by apply Exists_nil in Hbad.
  - cbn [apply_patterns]. destruct (compile_template replacement) as [expand|e] eqn:E.
    + rewrite bind_return. apply IH. apply Exists_cons in Hbad as [Hbad|Hbad]; [|done].
      cbn [snd] in Hbad. congruence.
    + unfold compile_template in E.
      destruct (existsb (N.eqb 92) replacement); [|done].
      destruct (re_template replacement); [done|]. by injection E as <-.
Qed.

(** X15: an override whose replacement holds a backslash and is not a
    template that [re] accepts makes [translate_text] raise [re.error] on
    every text that is not blank and has an ASCII letter, whether the
    override's source occurs in the text or not. *)
Theorem bad_override_template_raises (tr : ControlledTranslator) (text source replacement : str) :
  (source, replacement) ∈ override_patterns tr ->
  existsb (N.eqb 92) replacement = true ->
  re_template replacement = None ->
  has_english text = true ->
  translate_text tr text = Raise ReError.
Proof.
  intros Hin Hbs Htpl Heng. unfold translate_text.
  rewrite Heng, (has_english_strip _ Heng). cbn [negb orb].
  destruct (_protect text) as [masked protected].
  unfold _apply_overrides. rewrite apply_patterns_bad_template; [done|].
  apply Exists_exists. exists (source, replacement). split; [done|].
  unfold compile_template. cbn [snd]. by rewrite Hbs, Htpl.
Qed.

End BadTemplate.

(** ** Calls that cannot raise *)

Section Returns.
Context {RT : PyRuntime}.

Lemma apply_patterns_returns patterns : forall text,
  literal_replacements patterns -> exists out, apply_patterns patterns text = Return out.
Proof.
  induction patterns as [|[source replacement] ps IH]; intros text Hlit; [by eexists|].
  apply Forall_cons in Hlit as [Hr Hps]. cbn [apply_patterns snd] in *.
  unfold compile_template. rewrite Hr, bind_return. by apply IH.
Qed.

Lemma translate_text_returns tr text :
  (1 <= min_phrase_words tr)%Z -> literal_replacements (override_patterns tr) ->
  exists out, translate_text tr text = Return out.
Proof.
  intros Hmin Hlit. unfold translate_text.
  destruct (negb _ || negb _); [by eexists|].
  destruct (_protect text) as [masked protected].
  destruct (apply_patterns_returns _ masked Hlit) as [o Ho].
  unfold _apply_overrides. rewrite Ho, bind_return.
  pose proof (dictionary_loop_returns tr o (tokens o) (length (tokens o)) 0 0 Hmin) as [d Hd].
  rewrite apply_dictionary_loop, Hd, bind_return. by eexists.
Qed.

(** X20: when the translator has [1 <= min_phrase_words] and no override
    replacement holds a backslash, [process_line] returns, with the buffers
    as they were, on every line that it does not take as JSON: in text
    mode, on a line that does not look like JSON, and on a line on which
    [json.loads] raises [JSONDecodeError]. *)
Theorem process_line_returns (line : str) (tr : ControlledTranslator) (bufs : buffers)
    (mode : Mode) (dm : DeltaMode) (stats : TranslationStats) :
  (1 <= min_phrase_words tr)%Z ->
  literal_replacements (override_patterns tr) ->
  mode = text \/ looks_like_json (rstrip_newlines line) = false
  \/ json_loads (rstrip_newlines line) = Raise JSONDecodeError ->
  exists out stats',
    process_line line tr bufs mode dm stats = Return (out, bufs, stats').
Proof.
  intros Hmin Hlit Hline. unfold process_line, looks_like_json in *.
  destruct (translate_text_returns tr (rstrip_newlines line) Hmin Hlit) as [t Ht].
  rewrite Ht, bind_return. cbv zeta.
  destruct Hline as [-> | [-> | ->]].
  - by eexists _, _.
  - destruct mode; by eexists _, _.
  - destruct mode; try destruct (_ || _); by eexists _, _.
Qed.

End Returns.
(** ** Inline code *)

Lemma span_len_all (p : N -> bool) s : forallb p s = true -> span_len p s = length s.
Proof.
  induction s as [|c s IH]; [done|]. simpl. intros [-> H]%andb_true_iff. by rewrite IH.
Qed.

Lemma suffix_cons_cases (s' : str) c l :
  s' `suffix_of` c :: l -> s' = c :: l \/ s' `suffix_of` l.
Proof.
  intros [[|x k] E]; [left; by rewrite E|right].
  rewrite <- app_comm_cons in E. injection E as _ ->. by exists k.
Qed.

Section InlineCode.
Context {RT : PyRuntime}.

Lemma re_sub_from_no_match {St} (m : matcher) (repl : St -> str -> St * str) s :
  forall prev st,
    (forall prev' s', s' `suffix_of` s -> m prev' s' = None) ->
    re_sub_from m repl prev 0 st s = (st, s).
Proof.
  induction s as [|c s IH]; intros prev st Hm; cbn [re_sub_from].
  - by rewrite Hm.
  - rewrite Hm by done. rewrite IH; [done|].
    intros prev' s' Hs. apply Hm. by apply suffix_cons_r.
Qed.

Lemma no_fence_in_code body : forall s',
  forallb is_code_char body = true ->
  s' `suffix_of` body ++ [BACKTICK] -> starts_with [BACKTICK; BACKTICK] s' = false.
Proof.
  induction body as [|c body IH]; intros s' Hbody Hs.
  - apply suffix_cons_cases in Hs as [->|Hs]; [done|].
    apply suffix_nil_inv in Hs as ->. done.
  - cbn [forallb] in Hbody. apply andb_true_iff in Hbody as [Hc Hbody].
    rewrite <- app_comm_cons in Hs. apply suffix_cons_cases in Hs as [->|Hs]; [|by apply IH].
    unfold is_code_char in Hc. apply andb_true_iff in Hc as [Hc%negb_true_iff _].
    cbn [starts_with]. rewrite N.eqb_sym, Hc. done.
Qed.

Lemma fenced_code_none body prev s' :
  body <> [] -> forallb is_code_char body = true ->
  s' `suffix_of` BACKTICK :: body ++ [BACKTICK] -> m_fenced_code prev s' = None.
Proof.
  intros Hne Hbody Hs. unfold m_fenced_code.
  assert (H2 : starts_with [BACKTICK; BACKTICK] s' = false).
  { apply suffix_cons_cases in Hs as [->|Hs]; [|by eapply no_fence_in_code].
    destruct body as [|c body]; [done|]. cbn [forallb] in Hbody.
    apply andb_true_iff in Hbody as [Hc _].
    unfold is_code_char in Hc. apply andb_true_iff in Hc as [Hc%negb_true_iff _].
    cbn [app starts_with]. rewrite (N.eqb_sym _ c), Hc. by rewrite andb_false_r. }
  destruct (starts_with FENCE s') eqn:E; [|done]. exfalso.
  unfold FENCE in E.
  destruct s' as [|a [|b [|c r]]]; cbn [starts_with] in *;
    rewrite ?andb_false_r in E; try done.
  apply andb_true_iff in E as [Ea [Eb _]%andb_true_iff]. by rewrite Ea, Eb in H2.
Qed.

Lemma inline_code_whole body :
  body <> [] -> forallb is_code_char body = true ->
  m_inline_code None (BACKTICK :: body ++ [BACKTICK])
  = Some (length (BACKTICK :: body ++ [BACKTICK])).
Proof.
  intros Hne Hbody. unfold m_inline_code. fold is_code_char.
  rewrite span_len_app_stop by done. rewrite span_len_all by done.
  rewrite N.eqb_refl, drop_app_length. cbn [starts_with]. rewrite N.eqb_refl.
  destruct body as [|c body]; [done|]. cbn [length andb Nat.ltb Nat.leb].
  rewrite length_app. cbn [length]. do 2 f_equal. lia.
Qed.

Lemma mask_suffixes (s' : str) :
  s' `suffix_of` placeholder 0 ->
  s' = placeholder 0 \/ s' = [35; 48; PH_CLOSE] \/ s' = [48; PH_CLOSE]
  \/ s' = [PH_CLOSE] \/ s' = [].
Proof.
  change (placeholder 0) with [PH_OPEN; 35; 48; PH_CLOSE].
  intros H. repeat (apply suffix_cons_cases in H as [->|H]; [tauto|]).
  apply suffix_nil_inv in H as ->. tauto.
Qed.

Lemma mask_no_span (m : matcher) prev s' :
  m ∈ [m_url; m_path; m_flag; m_constant] ->
  s' `suffix_of` placeholder 0 -> m prev s' = None.
Proof.
  intros Hm Hs. apply mask_suffixes in Hs.
  change (placeholder 0) with [PH_OPEN; 35; 48; PH_CLOSE] in Hs.
  rewrite !elem_of_cons in Hm. destruct Hm as [->|[->|[->|[->|Hm]]]].
  - destruct Hs as [->|[->|[->|[->| ->]]]]; reflexivity.
  - unfold m_path.
    destruct (match prev with None => true | Some p => is_space p end); [|done].
    destruct Hs as [->|[->|[->|[->| ->]]]]; reflexivity.
  - unfold m_flag. destruct (not_after_word prev); [|done].
    destruct Hs as [->|[->|[->|[->| ->]]]]; reflexivity.
  - unfold m_constant.
    destruct Hs as [->|[->|[->|[->| ->]]]]; try reflexivity;
      destruct (not_after_word prev); reflexivity.
  - by apply elem_of_nil in Hm.
Qed.

Lemma protect_step_mask (m : matcher) (span : str) :
  m ∈ [m_url; m_path; m_flag; m_constant] ->
  protect_step (placeholder 0, [span]) m = (placeholder 0, [span]).
Proof.
  intros Hm. unfold protect_step, re_sub. cbn [fst snd].
  rewrite re_sub_from_no_match; [done|]. intros. by apply mask_no_span.
Qed.

Lemma protect_mask_alone (span : str) :
  foldl protect_step (placeholder 0, [span]) [m_url; m_path; m_flag; m_constant]
  = (placeholder 0, [span]).
Proof.
  cbn [foldl]. by rewrite !protect_step_mask by (rewrite !elem_of_cons; auto).
Qed.

Lemma protect_inline_code body :
  body <> [] -> forallb is_code_char body = true ->
  _protect (BACKTICK :: body ++ [BACKTICK])
  = (placeholder 0, [BACKTICK :: body ++ [BACKTICK]]).
Proof.
  intros Hne Hbody. set (span := BACKTICK :: body ++ [BACKTICK]).
  assert (H1 : protect_step (span, []) m_fenced_code = (span, [])).
  { unfold protect_step, re_sub. cbn [fst snd].
    rewrite re_sub_from_no_match; [done|]. intros prev' s' Hs.
    by apply (fenced_code_none body). }
  assert (H2 : protect_step (span, []) m_inline_code = (placeholder 0, [span])).
  { unfold protect_step. cbn [fst snd].
    rewrite re_sub_whole; [|done|by apply inline_code_whole|done].
    unfold replacer. cbn [fst snd length app]. by rewrite app_nil_r. }
  rewrite protect_fold.
  change PROTECT_PATTERNS
    with ([m_fenced_code; m_inline_code] ++ [m_url; m_path; m_flag; m_constant]).
  rewrite foldl_app. cbn [foldl]. rewrite H1, H2. apply protect_mask_alone.
Qed.

Lemma apply_patterns_nil patterns :
  Forall (fun item : str * str =>
            mask_safe item.1 = true /\ existsb (N.eqb 92) item.2 = false) patterns ->
  apply_patterns patterns [] = Return [].
Proof.
  induction 1 as [|[source replacement] ps [Hs Hr] _ IH]; [done|].
  cbn [apply_patterns fst snd] in *. unfold compile_template. rewrite Hr, bind_return.
  unfold re_sub. cbn [re_sub_from]. rewrite m_override_end; [done|]. by destruct source.
Qed.

(** X16: a text that is one inline code span, a backtick, one or more
    characters other than the backtick and the newline, and a backtick, is
    returned as it is by [translate_text], whatever the dictionary holds,
    when no override source can match inside a mask and no override
    replacement holds a backslash. *)
Theorem inline_code_kept (tr : ControlledTranslator) (body : str) :
  body <> [] ->
  forallb is_code_char body = true ->
  Forall (fun item : str * str =>
            mask_safe item.1 = true /\ existsb (N.eqb 92) item.2 = false)
         (override_patterns tr) ->
  ci_ident PH_OPEN = false -> ci_ident PH_CLOSE = false ->
  translate_text tr ([BACKTICK] ++ body ++ [BACKTICK])
  = Return ([BACKTICK] ++ body ++ [BACKTICK]).
Proof.
  intros Hne Hbody Hpat Hopen Hclose. cbn [app]. unfold translate_text.
  destruct (negb _ || negb _); [done|].
  rewrite protect_inline_code by done.
  unfold _apply_overrides.
  pose proof (override_pass_frame (override_patterns tr) [] 0 []) as Hframe.
  rewrite app_nil_l, app_nil_r in Hframe. rewrite Hframe; [|by eapply Forall_impl; [exact Hpat|intros ? []]|done|done].
  rewrite apply_patterns_nil by done. rewrite !bind_return. cbn [app]. rewrite app_nil_r.
  rewrite apply_dictionary_no_token by done. rewrite bind_return.
  unfold _restore. cbn [length restore_from nth]. f_equal.
  change (replace (placeholder 0) ?new (placeholder 0)) with (new ++ []).
  apply app_nil_r.
Qed.

End InlineCode.

(** ** Entries of one word *)

Lemma is_alnum_not_space c : is_alnum c = true -> is_space c = false.
Proof.
  unfold is_alnum. intros [H|H]%orb_true_iff; [by apply is_letter_not_space|].
  unfold is_digit, in_range in H. apply andb_true_iff in H as [H1%N.leb_le H2%N.leb_le].
  unfold is_space, in_range.
  repeat (apply orb_false_iff; split);
    rewrite ?andb_false_iff, ?N.leb_gt, ?N.eqb_neq; lia.
Qed.

Lemma is_token_sep_char c : is_token_sep c = true -> is_space c = false /\ is_ascii c = true.
Proof.
  unfold is_token_sep. intros [->%N.eqb_eq| ->%N.eqb_eq]%orb_true_iff; done.
Qed.

(** A token has a character, no white space and only ASCII characters. *)
Lemma is_token_chars w :
  is_token w = true ->
  w <> [] /\ forallb (fun c => negb (is_space c)) w = true /\ forallb is_ascii w = true.
Proof.
  destruct w as [|c r]; [done|]. cbn [is_token forallb].
  intros [Hc Hr]%andb_true_iff. split; [done|].
  rewrite (is_letter_not_space _ Hc), (is_alnum_ascii _ (is_letter_alnum _ Hc)). cbn [negb andb].
  rewrite forallb_forall in Hr. split; apply forallb_forall; intros x Hx; apply Hr in Hx;
    apply orb_true_iff in Hx as [Hx|Hx].
  - by rewrite is_alnum_not_space.
  - by destruct (is_token_sep_char _ Hx) as [-> _].
  - by apply is_alnum_ascii.
  - by destruct (is_token_sep_char _ Hx) as [_ ->].
Qed.

Lemma tidy_no_space b w : forallb (fun c => negb (is_space c)) w = true -> tidy b w = true.
Proof.
  revert b. induction w as [|c r IH]; intros b; [done|]. cbn [forallb tidy].
  intros [Hc%negb_true_iff Hr]%andb_true_iff. rewrite Hc. by apply IH.
Qed.

Lemma ends_in_space_app b (a s : str) :
  ends_in_space b (a ++ s) = ends_in_space (ends_in_space b a) s.
Proof.
  revert b. induction a as [|c a IH]; intros b; [done|].
  by rewrite <- app_comm_cons, !ends_in_space_cons, IH.
Qed.

Lemma ends_in_space_no_space w :
  forallb (fun c => negb (is_space c)) w = true -> ends_in_space false w = false.
Proof.
  induction w as [|c r IH]; [done|]. cbn [forallb].
  intros [Hc%negb_true_iff Hr]%andb_true_iff. rewrite ends_in_space_cons, Hc. by apply IH.
Qed.

Lemma ends_in_space_word b w :
  w <> [] -> forallb (fun c => negb (is_space c)) w = true -> ends_in_space b w = false.
Proof.
  destruct w as [|c r]; [done|]. intros _. cbn [forallb].
  intros [Hc%negb_true_iff Hr]%andb_true_iff. rewrite ends_in_space_cons, Hc.
  by apply ends_in_space_no_space.
Qed.

(** Words joined by single spaces. *)
Lemma join_words ws :
  ws <> [] ->
  Forall (fun w : str => w <> [] /\ forallb (fun c => negb (is_space c)) w = true) ws ->
  tidy true (join [32] ws) = true /\ ends_in_space true (join [32] ws) = false.
Proof.
  induction ws as [|w ws IH]; [done|]. intros _ [[Hne Hw] Hws]%Forall_cons.
  destruct ws as [|w' ws'].
  - cbn [join]. split; [by apply tidy_no_space|by apply ends_in_space_word].
  - destruct IH as [IH1 IH2]; [done|done|].
    change (join [32] (w :: w' :: ws')) with (w ++ [32] ++ join [32] (w' :: ws')).
    split.
    + rewrite tidy_app, tidy_no_space by done. rewrite ends_in_space_word by done.
      cbn [app tidy andb]. change (is_space 32) with true. cbn iota.
      by rewrite IH1.
    + rewrite !ends_in_space_app. rewrite (ends_in_space_word true w) by done.
      change (ends_in_space false [32]) with true. exact IH2.
Qed.

Lemma single_spaced_join ws :
  ws <> [] ->
  Forall (fun w : str => w <> [] /\ forallb (fun c => negb (is_space c)) w = true) ws ->
  single_spaced (join [32] ws) = true.
Proof.
  intros Hne Hws. destruct (join_words ws Hne Hws) as [H1 H2].
  unfold single_spaced. rewrite H1. cbn [andb].
  pose proof (tidy_reverse _ (tidy_weaken _ H1)) as Hr.
  unfold ends_in_space in H2. destruct (reverse (join [32] ws)) as [|c r]; [done|].
  cbn [tidy] in *. by rewrite H2 in *.
Qed.

Lemma forallb_join (p : N -> bool) ws :
  p 32 = true -> Forall (fun w : str => forallb p w = true) ws ->
  forallb p (join [32] ws) = true.
Proof.
  intros Hp. induction 1 as [|w ws Hw Hws IH]; [done|]. destruct ws as [|w' ws']; [done|].
  change (join [32] (w :: w' :: ws')) with (w ++ [32] ++ join [32] (w' :: ws')).
  rewrite !forallb_app, Hw, IH. cbn [forallb]. by rewrite Hp.
Qed.

Section SingleWords.
Context {RT : PyRuntime}.

Lemma token_at_token text idx :
  (idx < length (tokens text))%nat ->
  is_token (slice (token_at (tokens text) idx).1 (token_at (tokens text) idx).2 text) = true.
Proof.
  intros Hidx. pose proof (tokens_from_tokens text 0 0) as H.
  rewrite Forall_forall in H. unfold token_at.
  apply lookup_lt_is_Some_2 in Hidx as [t Ht].
  rewrite (nth_lookup_Some _ _ _ _ Ht).
  apply list_elem_of_lookup_2, H in Ht as (_ & _ & Htok). by rewrite !Nat.sub_0_r in Htok.
Qed.

(** The key looked up for a window of two or more tokens holds a space. *)
Lemma window_key_space text index window :
  (2 <= window)%nat -> (index + window <= length (tokens text))%nat ->
  32 ∈ normalize_key (window_phrase text (tokens text) index window).
Proof.
  intros Hw Hlen. unfold window_phrase.
  set (ws := (fun idx => slice _ _ text) <$> seq index window).
  assert (Htok : Forall (fun w : str => is_token w = true) ws).
  { apply Forall_fmap, Forall_forall. intros idx [_ Hidx]%elem_of_seq. cbn.
    apply token_at_token. lia. }
  assert (Hws : Forall (fun w : str =>
                          w <> [] /\ forallb (fun c => negb (is_space c)) w = true) ws).
  { eapply Forall_impl; [exact Htok|]. intros w Hx.
    apply is_token_chars in Hx as (? & ? & _). done. }
  assert (Hascii : forallb is_ascii (join [32] ws) = true).
  { apply forallb_join; [done|]. eapply Forall_impl; [exact Htok|].
    intros w Hx. by apply is_token_chars in Hx as (_ & _ & ?). }
  assert (Hne : ws <> []).
  { unfold ws. destruct window; [lia|]. done. }
  unfold normalize_key.
  rewrite normalize_single_spaced by by apply single_spaced_join.
  unfold lower. rewrite Hascii.
  assert (Hin : 32 ∈ join [32] ws).
  { assert (Hlws : length ws = window) by (unfold ws; by rewrite length_fmap, length_seq).
    clearbody ws. destruct ws as [|a [|b rest]]; cbn [length] in Hlws; [lia|lia|].
    change (join [32] (a :: b :: rest)) with (a ++ [32] ++ join [32] (b :: rest)).
    rewrite !elem_of_app. right. left. by apply list_elem_of_singleton. }
  apply (list_elem_of_fmap_2 ascii_lower) in Hin. exact Hin.
Qed.

Lemma find_best_match_single_words tr text index ws :
  (forall key target, dictionary_map tr !! key = Some target -> 32 ∉ key) ->
  Forall (fun w => 2 <= w /\ Z.of_nat index + w <= Z.of_nat (length (tokens text)))%Z ws ->
  find_best_match tr text (tokens text) index ws = NoMatch.
Proof.
  intros Hkeys. induction 1 as [|w ws [Hw1 Hw2] _ IH]; [done|]. cbn [find_best_match].
  destruct (Z.leb_spec w 0); [lia|].
  destruct (_tokens_are_space_separated _ _ _ _); [|done].
  unfold lookup_phrase.
  destruct (dictionary_map tr !! _) as [target|] eqn:E; [|done].
  exfalso. apply Hkeys in E. apply E, window_key_space; lia.
Qed.

Lemma dictionary_loop_no_match tr text toks fuel : forall index cursor,
  (forall index, find_best_match tr text toks index (window_range tr (length toks) index)
                 = NoMatch) ->
  dictionary_loop tr text toks fuel index cursor = Return (drop cursor text).
Proof.
  induction fuel as [|fuel IH]; intros index cursor Hno; cbn [dictionary_loop]; [done|].
  destruct (index <? length toks)%nat; [|done]. rewrite Hno. by apply IH.
Qed.

(** X17: with [min_phrase_words] at least 2, as by default, a dictionary
    none of whose keys holds a space changes nothing: entries of one word
    are never applied by the dictionary pass. *)
Theorem single_word_entries_unused (tr : ControlledTranslator) (text : str) :
  (2 <= min_phrase_words tr)%Z ->
  (forall key target, dictionary_map tr !! key = Some target -> 32 ∉ key) ->
  _apply_dictionary tr text = Return text.
Proof.
  intros Hmin Hkeys. rewrite apply_dictionary_loop.
  rewrite dictionary_loop_no_match; [done|]. intros index.
  apply find_best_match_single_words; [done|].
  apply Forall_forall. intros w Hw. unfold window_range in Hw.
  apply range_down_elem in Hw. lia.
Qed.

End SingleWords.

(** ** Plain text *)

Lemma starts_with_elem (p s : str) x : starts_with p s = true -> x ∈ p -> x ∈ s.
Proof.
  revert s. induction p as [|a p IH]; intros s Hp Hx; [by apply elem_of_nil in Hx|].
  destruct s as [|b s]; [done|]. cbn [starts_with] in Hp.
  apply andb_true_iff in Hp as [->%N.eqb_eq Hp].
  apply elem_of_cons in Hx as [->|Hx]; [by left|right; by apply IH].
Qed.

Lemma plain_char_elem (s : str) x :
  forallb is_plain_char s = true -> x ∈ s -> is_plain_char x = true.
Proof. intros H Hx. rewrite forallb_forall in H. by apply H, list_elem_of_In. Qed.

Section PlainText.
Context {RT : PyRuntime}.

Lemma path_head_chars s k : path_head s = Some k -> 47 ∈ take 3 s \/ 92 ∈ take 3 s.
Proof.
  unfold path_head. intros H.
  repeat (case_match; try discriminate); subst; cbn [take];
    rewrite !elem_of_cons; auto 10.
Qed.

Lemma m_flag_hyphen prev s k : m_flag prev s = Some k -> exists r, s = 45 :: r.
Proof.
  unfold m_flag. destruct (not_after_word prev); [|done]. intros H.
  repeat (case_match; try discriminate); subst; eauto.
Qed.

Lemma plain_no_span (m : matcher) prev s :
  m ∈ PROTECT_PATTERNS -> forallb is_plain_char s = true -> m prev s = None.
Proof.
  intros Hm Hs. unfold PROTECT_PATTERNS in Hm. rewrite !elem_of_cons in Hm.
  assert (Hno : forall x, x ∈ s -> is_plain_char x = true) by (intros; by eapply plain_char_elem).
  destruct Hm as [->|[->|[->|[->|[->|[->|Hm]]]]]]; [| | | | | |by apply elem_of_nil in Hm].
  - unfold m_fenced_code. destruct (starts_with FENCE s) eqn:E; [|done].
    by specialize (Hno BACKTICK (starts_with_elem _ _ _ E ltac:(by left))).
  - unfold m_inline_code. destruct s as [|c r]; [done|].
    specialize (Hno c ltac:(by left)). unfold is_plain_char in Hno.
    destruct (c =? BACKTICK); [done|]. done.
  - unfold m_url.
    assert (H1 : 47 ∈ u "https://") by (apply (bool_decide_unpack _); by vm_compute).
    assert (H2 : 47 ∈ u "http://") by (apply (bool_decide_unpack _); by vm_compute).
    destruct (starts_with (u "https://") s) eqn:E1;
      [by specialize (Hno 47 (starts_with_elem _ _ _ E1 H1))|].
    destruct (starts_with (u "http://") s) eqn:E2;
      [by specialize (Hno 47 (starts_with_elem _ _ _ E2 H2))|]. done.
  - unfold m_path. destruct (match prev with None => true | Some p => is_space p end); [|done].
    destruct (path_head s) as [k|] eqn:E; [|done].
    apply path_head_chars in E as [E|E];
      apply elem_of_take in E as (i & E%list_elem_of_lookup_2 & _); by apply Hno in E.
  - destruct (m_flag prev s) as [k|] eqn:E; [|done].
    apply m_flag_hyphen in E as [r ->]. by specialize (Hno 45 ltac:(by left)).
  - unfold m_constant. destruct s as [|c r]; [done|].
    specialize (Hno c ltac:(by left)). unfold is_plain_char in Hno.
    rewrite !negb_orb in Hno. apply andb_true_iff in Hno as [Hno Hu%negb_true_iff].
    apply andb_true_iff in Hno as [_ H95%negb_true_iff].
    rewrite Hu, H95. cbn [orb]. by rewrite andb_false_r.
Qed.

Lemma protect_plain patterns text :
  (forall m, m ∈ patterns -> m ∈ PROTECT_PATTERNS) ->
  forallb is_plain_char text = true ->
  foldl protect_step (text, []) patterns = (text, []).
Proof.
  intros Hsub Hs. induction patterns as [|m ps IH]; [done|]. cbn [foldl].
  assert (Hm : protect_step (text, []) m = (text, [])).
  { unfold protect_step, re_sub. cbn [fst snd]. rewrite re_sub_from_no_match; [done|].
    intros prev' s' [k ->]. apply plain_no_span; [apply Hsub; by left|].
    rewrite forallb_app in Hs. by apply andb_true_iff in Hs as [_ ?]. }
  rewrite Hm. apply IH. intros m' Hm'. apply Hsub. by right.
Qed.

(** X19: a text with no backtick, slash, backslash, hyphen, underscore or
    capital letter holds no protected span: [_protect] returns it as it is
    with no span, and [translate_text] is the override pass followed by the
    dictionary pass. *)
Theorem plain_text_not_masked (tr : ControlledTranslator) (text : str) :
  forallb is_plain_char text = true ->
  _protect text = (text, [])
  /\ translate_text tr text
     = (if negb (nonempty (strip text)) || negb (has_english text) then Return text
        else overridden ← _apply_overrides tr text; _apply_dictionary tr overridden).
Proof.
  intros Hs.
  assert (Hp : _protect text = (text, [])).
  { rewrite protect_fold. by apply protect_plain. }
  split; [exact Hp|]. unfold translate_text. rewrite Hp.
  destruct (negb _ || negb _); [done|].
  destruct (_apply_overrides tr text) as [o|]; [|done]. rewrite !bind_return.
  by destruct (_apply_dictionary tr o).
Qed.

End PlainText.

(** ** Examples of the further properties *)

Section FurtherExamples.
Existing Instance example_runtime.

Let entry_line : str :=
  q "{'lang_src':'en','lang_tgt':'zh','term_src':'Machine  Learning','term_tgt':'机器学习'}".
Let other_line : str :=
  q "{'lang_src':'en','lang_tgt':'zh-Hant','term_src':'machine learning','term_tgt':'機器學習'}".

Lemma apply_dictionary_returns_witness :
  exists out,
    _apply_dictionary (new_translator {[ u "machine learning" := u "机器学习" ]} [] 2 8)
                      (u "the machine learning model") = Return out.
Proof.
  refine (proj1 (apply_dictionary_returns _ _ _)). by vm_compute.
Defined.

Lemma translate_text_without_entries_witness :
  translate_text (new_translator ∅ [] 2 8) (u "see `machine learning` now")
  = Return (u "see `machine learning` now").
Proof.
  refine (translate_text_without_entries _ _ _ _ _); [reflexivity|reflexivity|].
  intros index Hlt. assert (Hn : (index < 1)%nat) by exact Hlt.
  destruct index as [|index]; [vm_compute; reflexivity|lia].
Defined.

Lemma load_dictionary_entries_witness :
  is_plain_english_term (u "machine learning") = true
  /\ normalize_key (u "machine learning") = u "machine learning"
  /\ u "机器学习" <> [] /\ normalize_spaces (u "机器学习") = u "机器学习".
Proof.
  refine (load_dictionary_entries [entry_line] {[ u "machine learning" := u "机器学习" ]}
            (u "machine learning") (u "机器学习") _ _); vm_compute; reflexivity.
Defined.

Lemma load_dictionary_first_wins_witness :
  ({[ u "machine learning" := u "机器学习" ]} : gmap str str)
  ⊆ {[ u "machine learning" := u "机器学习" ]}.
Proof.
  refine (load_dictionary_first_wins [entry_line] [other_line] _ _ _ _);
    vm_compute; reflexivity.
Defined.

Lemma load_dictionary_malformed_line_witness :
  load_dictionary ([entry_line] ++ u "{oops" :: [other_line]) = Raise JSONDecodeError.
Proof.
  refine (proj1 (load_dictionary_malformed_line [entry_line] [other_line] (u "{oops")
                   {[ u "machine learning" := u "机器学习" ]} _ _) _).
  - vm_compute. reflexivity.
  - vm_compute. discriminate.
  - vm_compute. reflexivity.
Defined.

Lemma process_line_accounting_witness :
  ends_with [10] (u "机器学习" ++ [10]) = true.
Proof.
  refine (proj2 (proj2 (proj2 (process_line_accounting
            (u "machine learning" ++ [10])
            (new_translator {[ u "machine learning" := u "机器学习" ]} [] 2 8)
            ∅ text full_buffer stats0 (u "机器学习" ++ [10]) ∅
            {| lines := 1; translated_strings := 1; json_records := 0 |} _))) _);
    vm_compute; reflexivity.
Defined.

Lemma process_line_passes_through_witness :
  process_line (u "你好，世界" ++ [10]) (new_translator ∅ [] 2 8) ∅ auto full_buffer stats0
  = Return (u "你好，世界" ++ [10], ∅, count_line stats0).
Proof.
  refine (proj2 (process_line_passes_through (u "你好，世界" ++ [10])
                   (new_translator ∅ [] 2 8) ∅ auto full_buffer stats0 _ _)
                (u "你好，世界") _ _).
  - vm_compute. reflexivity.
  - right. split; vm_compute; reflexivity.
  - by vm_compute.
  - by right.
Defined.

Lemma main_writes_every_line_witness :
  lines {| lines := 2; translated_strings := 1; json_records := 0 |}
  = length [u "machine learning" ++ [10]; u "---" ++ [10]].
Proof.
  refine (proj1 (proj2 (main_writes_every_line [entry_line] None 2 8 auto full_buffer
            [u "machine learning" ++ [10]; u "---" ++ [10]] _ _ _))).
  vm_compute. reflexivity.
Defined.

Lemma translate_json_node_keeps_shape_witness :
  same_shape
    (JObj [(u "type", JStr (u "agent_reasoning")); (u "id", JInt 7);
           (u "text", JStr (u "machine learning"))])
    (JObj [(u "type", JStr (u "agent_reasoning")); (u "id", JInt 7);
           (u "text", JStr (u "机器学习"))]).
Proof.
  refine (translate_json_node_keeps_shape
            (new_translator {[ u "machine learning" := u "机器学习" ]} [] 2 8)
            chunk None _ None [] ∅ _ ∅ _).
  vm_compute. reflexivity.
Defined.

Lemma process_line_buffers_frame_witness :
  let bufs : buffers := {[ u "b|agent_reasoning_delta|delta" := u "kept" ]} in
  (<[ u "a|agent_reasoning_delta|delta" := u "machine" ]> bufs)
    !! u "b|agent_reasoning_delta|delta"
  = bufs !! u "b|agent_reasoning_delta|delta".
Proof.
  intros bufs.
  refine (proj1 (process_line_buffers_frame
            (q "{'type':'agent_reasoning_delta','id':'a','delta':'machine'}")
            (new_translator ∅ [] 2 8) bufs auto full_buffer stats0 _ _ _ _) _ _).
  - vm_compute. reflexivity.
  - vm_compute. reflexivity.
Defined.

Lemma accumulator_joins_fragments_witness :
  ({[ u "r|t|delta" := u "machine learning" ]} : buffers) !! u "r|t|delta"
  = Some (default [] ((∅ : buffers) !! u "r|t|delta") ++ concat [u "machine "; u "learning"]).
Proof.
  refine (proj1 (proj2 (proj2 (accumulator_joins_fragments
            (new_translator {[ u "machine learning" := u "机器学习" ]} [] 2 8)
            (u "r|t|delta") [u "machine "; u "learning"] ∅ _ _ _))) _).
  - vm_compute. reflexivity.
  - done.
Defined.

Lemma bad_override_template_raises_witness :
  translate_text (new_translator ∅ [(u "oops", [92; 113])] 2 8) (u "hello") = Raise ReError.
Proof.
  refine (bad_override_template_raises _ _ (u "oops") [92; 113] _ _ _ _).
  - vm_compute. by left.
  - reflexivity.
  - vm_compute. reflexivity.
  - reflexivity.
Defined.

Lemma inline_code_kept_witness :
  translate_text (new_translator {[ u "machine learning" := u "机器学习" ]} [] 2 8)
                 ([BACKTICK] ++ u "machine learning" ++ [BACKTICK])
  = Return ([BACKTICK] ++ u "machine learning" ++ [BACKTICK]).
Proof.
  refine (inline_code_kept _ _ _ _ _ _ _); by vm_compute.
Defined.

Lemma single_word_entries_unused_witness :
  _apply_dictionary (new_translator {[ u "machine" := u "机器" ]} [] 2 8)
                    (u "machine learning")
  = Return (u "machine learning").
Proof.
  refine (single_word_entries_unused _ _ _ _); [by vm_compute|].
  intros key target Hkey. cbn [new_translator dictionary_map] in Hkey.
  apply lookup_singleton_Some in Hkey as [<- _].
  apply (bool_decide_unpack _). vm_compute. exact I.
Defined.

Lemma process_line_output_witness :
  json_records {| lines := 1; translated_strings := 1; json_records := 1 |}
    = json_records stats0
  \/ json_records {| lines := 1; translated_strings := 1; json_records := 1 |}
      = S (json_records stats0).
Proof.
  refine (match process_line_output
                  (q "{'type':'agent_reasoning','text':'machine learning'}")
                  (new_translator {[ u "machine learning" := u "机器学习" ]} [] 2 8)
                  ∅ auto full_buffer stats0 _ ∅
                  {| lines := 1; translated_strings := 1; json_records := 1 |} _ with
          | or_introl (conj H _) => or_introl H
          | or_intror (conj H _) => or_intror H
          end).
  vm_compute. reflexivity.
Defined.

Lemma plain_text_not_masked_witness :
  _protect (u "the machine learning model, as described.")
  = (u "the machine learning model, as described.", []).
Proof.
  refine (proj1 (plain_text_not_masked (new_translator ∅ [] 2 8) _ _)).
  vm_compute. reflexivity.
Defined.

Lemma process_line_returns_witness :
  exists out stats',
    process_line (u "{oops") (new_translator ∅ [(u "oops", u "ok")] 2 8) ∅
                 auto full_buffer stats0
    = Return (out, ∅, stats').
Proof.
  refine (process_line_returns _ _ _ _ _ _ _ _ _); [by vm_compute| |].
  - constructor; [reflexivity|constructor].
  - right. right. vm_compute. reflexivity.
Defined.

End FurtherExamples.

